(** * pbbridgemapper: affix discovery, region-table synthesis and
      alignment-role aggregation

    A shallow embedding of [pbbridgemapper/affixes.py],
    [pbbridgemapper/main.py] (the aggregation part of
    [create_pbbridgemapper_output]) and [pbbridgemapper/smrtview_output.py],
    followed by the properties of the specification that are stated over
    that code.

    Conventions of the embedding:
    - Python integers are [Z]; numpy table entries are [Z] as well (the
      region table is a signed integer array and every value written by
      the code fits its dtype).
    - A Python exception is a value of [exn]; a function that can raise
      returns a [result].
    - A dictionary that the code iterates over ([subread_dict], the
      per-hole dictionaries inside it, the per-subread role
      dictionaries) is an association list with distinct keys, listed in
      the order in which Python iterates it.  That order is arbitrary in
      Python 2, so every statement below quantifies over all orders.
    - A dictionary that is only read and written by key ([affix_bounds])
      is a [gmap]. *)

From stdpp Require Import base option list gmap strings sorting pretty.
From Stdlib Require Import ZArith QArith.QArith_base Lia.

Local Open Scope Z_scope.

(** ** Exceptions *)

Inductive exn : Type :=
| KeyError
| IndexError
| TypeError
| ValueError
| RuntimeError
| UnboundLocalError.

Inductive result (A : Type) : Type :=
| Ok (a : A)
| Raise (e : exn).
Arguments Ok {A} a.
Arguments Raise {A} e.

Definition rbind {A B} (r : result A) (k : A → result B) : result B :=
  match r with
  | Ok a => k a
  | Raise e => Raise e
  end.

Notation "x ←r m ; k" := (rbind m (λ x, k))
  (at level 20, m at level 100, k at level 200, right associativity,
   format "x  ←r  m ;  '/' k").

(** A [for] loop whose body can raise: the state is threaded through the
    iterations and the first exception ends the loop. *)
Fixpoint for_each {A S} (body : S → A → result S) (s : S) (l : list A)
  : result S :=
  match l with
  | [] => Ok s
  | x :: l' => s' ←r body s x; for_each body s' l'
  end.

(** ** Python dictionaries in iteration order *)

Section Dict.
Context {K V : Type} `{EqDecision K}.

(** [for k in d] *)
Definition dict_keys (d : list (K * V)) : list K := d.*1.

(** [d.get(k)], [k in d] *)
Fixpoint dict_get (d : list (K * V)) (k : K) : option V :=
  match d with
  | [] => None
  | (k', v) :: d' => if decide (k' = k) then Some v else dict_get d' k
  end.

(** [d[k]] *)
Definition dict_getitem (d : list (K * V)) (k : K) : result V :=
  match dict_get d k with
  | Some v => Ok v
  | None => Raise KeyError
  end.

(** [d[k]] where the key expression may evaluate to [None]; [None] is
    never a key of the dictionaries of this program. *)
Definition dict_getitem_opt (d : list (K * V)) (k : option K) : result V :=
  match k with
  | Some k => dict_getitem d k
  | None => Raise KeyError
  end.

(** [d[k] = v]: an existing key keeps its place, a new key is added. *)
Fixpoint dict_set (d : list (K * V)) (k : K) (v : V) : list (K * V) :=
  match d with
  | [] => [(k, v)]
  | (k', v') :: d' =>
      if decide (k' = k) then (k', v) :: d' else (k', v') :: dict_set d' k v
  end.

(** [d.pop(k)] for a key that is present. *)
Fixpoint dict_pop (d : list (K * V)) (k : K) : list (K * V) :=
  match d with
  | [] => []
  | (k', v') :: d' =>
      if decide (k' = k) then d' else (k', v') :: dict_pop d' k
  end.
End Dict.

(** ** Data model *)

(** A half-open read-coordinate range [(start, end)], a Python tuple. *)
Definition bounds : Type := Z * Z.

(** [(movie_name, hole_number)] *)
Definition subread_key : Type := string * Z.

(** The fields of a [CmpH5IO.CmpH5Alignment] that the program reads.
    [similarity] is a float in the source and a rational here. *)
Record CmpH5Alignment : Type := mkAlignment {
  movieInfo_Name : string;
  HoleNumber : Z;
  rStart : Z;
  rEnd : Z;
  referenceName : string;
  RCRefStrand : Z;
  tStart : Z;
  tEnd : Z;
  similarity : Q;
  MapQV : Z
}.

(** [subread_dict]: [(movie_name, hole_number)] to a dictionary keyed by
    subread bounds.  The values are [None] in [affixes.py]; [main.py]
    stores the per-subread role dictionaries there. *)
Definition subread_dict (V : Type) : Type :=
  list (subread_key * list (bounds * V)).

(** Every dictionary has distinct keys. *)
Definition subread_dict_wf {V} (sd : subread_dict V) : Prop :=
  NoDup (dict_keys sd) ∧ Forall (λ kv, NoDup (dict_keys kv.2)) sd.

(** ** affixes.find_subread_entry *)

(** Modelled from the spec: [BasH5IO.intersectRanges] belongs to pbcore
    and is not part of the sources; the specification defines overlap of
    two intervals as [max(a.start, b.start) < min(a.end, b.end)], and the
    function returns the intersection when that holds and [None]
    otherwise. *)
Definition intersectRanges (r1 r2 : bounds) : option bounds :=
  let b := Z.max r1.1 r2.1 in
  let e := Z.min r1.2 r2.2 in
  if decide (b < e) then Some (b, e) else None.

(** The [for ... break] scan of [find_subread_entry]: the first subread
    bounds that intersect the alignment. *)
Fixpoint first_overlap (r : bounds) (l : list bounds) : option bounds :=
  match l with
  | [] => None
  | sb :: l' =>
      match intersectRanges r sb with
      | Some _ => Some sb
      | None => first_overlap r l'
      end
  end.

Definition find_subread_entry {V} (a : CmpH5Alignment) (sd : subread_dict V)
  : option subread_key * option bounds :=
  let key := (movieInfo_Name a, HoleNumber a) in
  match dict_get sd key with
  | None => (None, None)
  | Some inner => (Some key, first_overlap (rStart a, rEnd a) (dict_keys inner))
  end.

(** ** affixes.affix_boundaries *)

(** [alignment_extents]: per key and subread, the extent of the
    alignments seen so far or [None]. *)
Definition extents : Type := list (subread_key * list (bounds * option bounds)).

(** Lines 62-66: every subread starts with no extent. *)
Definition init_inner {V} (inner : list (bounds * V))
  : list (bounds * option bounds) :=
  foldl (λ acc sb, dict_set acc sb None) [] (dict_keys inner).

Definition init_extents {V} (sd : subread_dict V) : result extents :=
  for_each (λ ae key,
      inner ←r dict_getitem sd key;
      Ok (dict_set ae key (init_inner inner)))
    [] (dict_keys sd).

(** Lines 73-80: widen the extent of the subread with one alignment. *)
Definition widen (cur : option bounds) (a : CmpH5Alignment) : bounds :=
  match cur with
  | None => (rStart a, rEnd a)
  | Some c => (Z.min (rStart a) c.1, Z.max (rEnd a) c.2)
  end.

(** Lines 69-80: the body of the loop over the alignments. *)
Definition extent_step {V} (sd : subread_dict V) (ae : extents)
    (a : CmpH5Alignment) : result extents :=
  match find_subread_entry a sd with
  | (None, _) => Ok ae
  | (Some key, overlapping_bounds) =>
      inner ←r dict_getitem ae key;
      cur ←r dict_getitem_opt inner overlapping_bounds;
      match overlapping_bounds with
      | Some sb => Ok (dict_set ae key (dict_set inner sb (Some (widen cur a))))
      | None => Raise KeyError
      end
  end.

(** Lines 93-99 for one subread: the prefix and the suffix that are long
    enough, in the order in which they are appended. *)
Definition subread_affixes (subread_bounds alignment_extent : bounds)
    (min_affix_size : Z) : list bounds :=
  let prefix_bounds := (subread_bounds.1, alignment_extent.1) in
  let suffix_bounds := (alignment_extent.2, subread_bounds.2) in
  (if decide (min_affix_size ≤ prefix_bounds.2 - prefix_bounds.1)
   then [prefix_bounds] else [])
  ++
  (if decide (min_affix_size ≤ suffix_bounds.2 - suffix_bounds.1)
   then [suffix_bounds] else []).

(** [affix_bounds.setdefault(key, []).append(x)] *)
Definition append_affix (ab : gmap subread_key (list bounds))
    (key : subread_key) (x : bounds) : gmap subread_key (list bounds) :=
  <[key := default [] (ab !! key) ++ [x]]> ab.

(** Lines 87-99: the subreads of one key. *)
Definition collect_subread (ae : extents) (min_affix_size : Z)
    (key : subread_key) (ab : gmap subread_key (list bounds))
    (subread_bounds : bounds) : result (gmap subread_key (list bounds)) :=
  inner ←r dict_getitem ae key;
  alignment_extent ←r dict_getitem inner subread_bounds;
  match alignment_extent with
  | None => Ok ab
  | Some e =>
      Ok (foldl (λ ab x, append_affix ab key x) ab
            (subread_affixes subread_bounds e min_affix_size))
  end.

(** Lines 85-99. *)
Definition collect_affixes {V} (sd : subread_dict V) (ae : extents)
    (min_affix_size : Z) : result (gmap subread_key (list bounds)) :=
  for_each (λ ab key,
      inner ←r dict_getitem sd key;
      for_each (collect_subread ae min_affix_size key) ab (dict_keys inner))
    ∅ (dict_keys sd).

Definition affix_boundaries {V} (sd : subread_dict V)
    (cmph5_reader : list CmpH5Alignment) (min_affix_size : Z)
  : result (gmap subread_key (list bounds)) :=
  ae0 ←r init_extents sd;
  ae ←r for_each (extent_step sd) ae0 cmph5_reader;
  collect_affixes sd ae min_affix_size.

(** ** affixes.affix_region_table *)

(** One row of the [/PulseData/Regions] table:
    [[hole_number, region_type, start, end, score]]. *)
Record region_row : Type := mkRow {
  col_hole : Z;
  col_type : Z;
  col_start : Z;
  col_end : Z;
  col_score : Z
}.

Global Instance region_row_eq_dec : EqDecision region_row.
Proof. solve_decision. Defined.

(** Modelled from the spec: the region-type codes are constants of
    pbcore's [BasH5IO] and are not part of the sources.  The
    specification names three annotation kinds (adapter, insert and
    high-quality region); [affixes.py] and its tests select the
    high-quality row with the literal [2], and the bas.h5 format numbers
    adapter and insert rows [0] and [1]. *)
Definition ADAPTER_REGION : Z := 0.
Definition INSERT_REGION : Z := 1.
Definition HQ_REGION : Z := 2.

(** [numpy.unique]: the distinct values in ascending order. *)
Definition numpy_unique (l : list Z) : list Z :=
  merge_sort Z.le (remove_dups l).

(** [numpy.max] of a one-dimensional array; it raises on an empty one,
    which [affix_region_table] never passes. *)
Definition numpy_max (l : list Z) : result Z :=
  match l with
  | [] => Raise ValueError
  | x :: l' => Ok (foldl Z.max x l')
  end.

(** Python's order on pairs of integers, used by [list.sort]. *)
Definition tuple_le (a b : bounds) : Prop :=
  a.1 < b.1 ∨ (a.1 = b.1 ∧ a.2 ≤ b.2).

Global Instance tuple_le_dec : RelDecision tuple_le.
Proof. intros a b. unfold tuple_le. apply _. Defined.

(** [affixes.sort()]: the order is total and two pairs that compare
    equal are the same pair, so the sorted list does not depend on the
    sorting algorithm. *)
Definition list_sort (l : list bounds) : list bounds :=
  merge_sort tuple_le l.

(** Lines 143-149: an adapter row up to each affix and an insert row
    for it; returns the rows and the last [previous_bound]. *)
Fixpoint affix_rows (hole_number previous_bound : Z) (affixes : list bounds)
  : list region_row * Z :=
  match affixes with
  | [] => ([], previous_bound)
  | af :: affixes' =>
      let '(rows, last) := affix_rows hole_number af.2 affixes' in
      (mkRow hole_number ADAPTER_REGION previous_bound af.1 900
         :: mkRow hole_number INSERT_REGION af.1 af.2 (-1)
         :: rows, last)
  end.

(** Lines 126-152: the body of the loop over the hole numbers.  The
    state is the output table built so far and the caller's
    [affix_bounds], whose lists are sorted in place. *)
Definition region_table_step (original_region_table : list region_row)
    (movie_name : string)
    (st : list region_row * gmap subread_key (list bounds))
    (hole_number : Z)
  : result (list region_row * gmap subread_key (list bounds)) :=
  let '(output_region_table, affix_bounds) := st in
  let hole_rows :=
    filter (λ r, col_hole r = hole_number) original_region_table in
  zmw_length ←r numpy_max (col_end <$> hole_rows);
  hq_row ←r match filter (λ r, col_type r = 2) hole_rows with
            | [] => Raise IndexError
            | r :: _ => Ok r
            end;
  match affix_bounds !! (movie_name, hole_number) with
  | None =>
      Ok (output_region_table
            ++ [mkRow hole_number HQ_REGION 0 0 0;
                mkRow hole_number ADAPTER_REGION 0 zmw_length 0],
          affix_bounds)
  | Some affixes =>
      let affixes := list_sort affixes in
      let '(rows, previous_bound) := affix_rows hole_number 0 affixes in
      Ok (output_region_table
            ++ rows
            ++ [mkRow hole_number ADAPTER_REGION previous_bound zmw_length 900;
                hq_row],
          <[(movie_name, hole_number) := affixes]> affix_bounds)
  end.

(** Returns the new table together with [affix_bounds] as the call
    leaves it. *)
Definition affix_region_table (original_region_table : list region_row)
    (movie_name : string) (affix_bounds : gmap subread_key (list bounds))
  : result (list region_row * gmap subread_key (list bounds)) :=
  let hole_numbers := numpy_unique (col_hole <$> original_region_table) in
  for_each (region_table_step original_region_table movie_name)
    ([], affix_bounds) hole_numbers.

(** ** affixes.subread_dictionary *)

(** What the program reads of one ZMW of a [BasH5Reader]. *)
Record Zmw : Type := mkZmw {
  holeNumber : Z;
  insertRegions : list bounds
}.

(** The body of the loop over the ZMWs. *)
Definition subread_dictionary_step {A} (movieName : string)
    (d : subread_dict (option A)) (zmw : Zmw) : subread_dict (option A) :=
  let first_key := (movieName, holeNumber zmw) in
  let d :=
    match dict_get d first_key with
    | None => dict_set d first_key []
    | Some _ => d
    end in
  foldl (λ d second_key,
           dict_set d first_key
             (dict_set (default [] (dict_get d first_key)) second_key None))
    d (insertRegions zmw).

(** A dictionary from [(movie_name, hole_number)] to a dictionary keyed
    by the insert regions of the hole, every value [None]. *)
Definition subread_dictionary {A} (movieName : string) (bash5_reader : list Zmw)
  : subread_dict (option A) :=
  foldl (subread_dictionary_step movieName) [] bash5_reader.

(** ** smrtview_output.alignment_to_output_dict *)

(** The dictionary built by [alignment_to_output_dict]; its keys are
    fixed, so it is a record. *)
Record output_dict : Type := mkOutput {
  read_name : string;
  subread_length : Z;
  subread_start : Z;
  subread_end : Z;
  ref_name : string;
  strand : Z;
  target_start : Z;
  target_end : Z;
  score : Z;
  pct_similarity : Q;
  map_qv : Z
}.

(** [round(x, 4)] of Python 2 on a rational: the closest multiple of
    [10^-4], halves away from zero. *)
Definition round4 (x : Q) : Q :=
  let n := Qnum x in
  let d := Z.pos (Qden x) in
  Qmake (Z.sgn n * ((2 * Z.abs n * 10000 + d) / (2 * d))) 10000.

Definition alignment_to_output_dict (cmph5_alignment : CmpH5Alignment)
    (subread_bounds : bounds) : output_dict :=
  {| read_name :=
       movieInfo_Name cmph5_alignment +:+ "/" +:+
       pretty (HoleNumber cmph5_alignment) +:+ "/" +:+
       pretty subread_bounds.1 +:+ "_" +:+ pretty subread_bounds.2;
     subread_length := subread_bounds.2 - subread_bounds.1;
     subread_start := rStart cmph5_alignment - subread_bounds.1;
     subread_end := rEnd cmph5_alignment - subread_bounds.1;
     ref_name := referenceName cmph5_alignment;
     strand := RCRefStrand cmph5_alignment;
     target_start := tStart cmph5_alignment;
     target_end := tEnd cmph5_alignment;
     score := -100000;
     pct_similarity := round4 (similarity cmph5_alignment);
     map_qv := MapQV cmph5_alignment |}.

(** ** main.create_pbbridgemapper_output: the two aggregation passes *)

(** The per-subread dictionary of roles, keyed by ['prefix'],
    ['primary'] and ['suffix']. *)
Definition role_map : Type := list (string * output_dict).

(** [all_subread_dict]: a subread holds [None] until a primary alignment
    is stored for it. *)
Definition all_subread_dict : Type := subread_dict (option role_map).

(** The two local variables of [create_pbbridgemapper_output] that the
    passes assign: [existing_alignment] and, in the [else] branch of the
    primary pass, [existing_aligment].  A variable is unbound ([None]
    here) until its first assignment; its value is a role record or
    Python's [None]. *)
Record locals : Type := mkLocals {
  existing_alignment : option (option output_dict);
  existing_aligment : option (option output_dict)
}.

Definition no_locals : locals := mkLocals None None.

(** Reading a local variable. *)
Definition read_local {A} (v : option A) : result A :=
  match v with
  | Some x => Ok x
  | None => Raise UnboundLocalError
  end.

(** [existing['map_qv']] where [existing] may be [None]. *)
Definition getitem_map_qv (existing : option output_dict) : result Z :=
  match existing with
  | Some od => Ok (map_qv od)
  | None => Raise TypeError
  end.

(** Lines 185-203: the body of the loop over the primary alignments.
    [alignment.mapQV] reads the map quality of the alignment, the value
    that [alignment_to_output_dict] stores as ['map_qv']. *)
Definition primary_step (st : all_subread_dict * locals)
    (alignment : CmpH5Alignment) : result (all_subread_dict * locals) :=
  let '(d, loc) := st in
  match find_subread_entry alignment d with
  | (None, _) => Ok st
  | (Some key, overlapping_bounds) =>
      inner ←r dict_getitem d key;
      slot ←r dict_getitem_opt inner overlapping_bounds;
      loc ←r match slot with
             | Some roles =>
                 p ←r dict_getitem roles "primary"%string;
                 Ok (mkLocals (Some (Some p)) (existing_aligment loc))
             | None =>
                 Ok (mkLocals (existing_alignment loc) (Some None))
             end;
      typo ←r read_local (existing_aligment loc);
      replace ←r match typo with
                 | None => Ok true
                 | Some _ =>
                     existing ←r read_local (existing_alignment loc);
                     q ←r getitem_map_qv existing;
                     Ok (bool_decide (q < MapQV alignment))
                 end;
      if (replace : bool) then
        match overlapping_bounds with
        | Some sb =>
            let roles :=
              [("primary"%string, alignment_to_output_dict alignment sb)] in
            Ok (dict_set d key (dict_set inner sb (Some roles)), loc)
        | None => Raise KeyError
        end
      else Ok (d, loc)
  end.

(** Lines 212-243: the body of the loop over the affix alignments. *)
Definition affix_step (st : all_subread_dict * locals)
    (alignment : CmpH5Alignment) : result (all_subread_dict * locals) :=
  let '(d, loc) := st in
  match find_subread_entry alignment d with
  | (None, _) => Ok st
  | (Some key, overlapping_bounds) =>
      inner ←r dict_getitem d key;
      slot ←r dict_getitem_opt inner overlapping_bounds;
      match slot, overlapping_bounds with
      | None, _ => Ok st
      | Some _, None => Raise KeyError
      | Some roles, Some sb =>
          let alignment_dict := alignment_to_output_dict alignment sb in
          primary_dict ←r dict_getitem roles "primary"%string;
          let primary_subread_start := subread_start primary_dict in
          let primary_subread_end := subread_end primary_dict in
          let store (affix_type : string) :=
            let existing := dict_get roles affix_type in
            let loc := mkLocals (Some existing) (existing_aligment loc) in
            let replace :=
              match existing with
              | None => true
              | Some e => bool_decide (map_qv e < MapQV alignment)
              end in
            if replace then
              Ok (dict_set d key
                    (dict_set inner sb
                       (Some (dict_set roles affix_type alignment_dict))),
                  loc)
            else Ok (d, loc) in
          if decide (subread_end alignment_dict ≤ primary_subread_start)
          then store "prefix"%string
          else if decide (primary_subread_end ≤ subread_start alignment_dict)
          then store "suffix"%string
          else Ok st
      end
  end.

(** Both passes, from the dictionary of the input subreads to the
    dictionary that is filtered and written. *)
Definition aggregate (d0 : all_subread_dict)
    (primary_cmph5_reader affix_cmph5_reader : list CmpH5Alignment)
  : result all_subread_dict :=
  st1 ←r for_each primary_step (d0, no_locals) primary_cmph5_reader;
  st2 ←r for_each affix_step st1 affix_cmph5_reader;
  Ok st2.1.

(** ** smrtview_output.remove_nonunique_alignments *)

(** [for affix_type in affix_dict]: a dictionary iterator compares the
    size of the dictionary with its size when the loop started before
    every step, the one that ends the loop included, and raises
    [RuntimeError] when they differ. *)
Fixpoint nonunique_loop (used : nat) (keys : list string)
    (affix_dict : role_map) : result role_map :=
  if decide (length affix_dict = used) then
    match keys with
    | [] => Ok affix_dict
    | affix_type :: keys' =>
        if decide (affix_type = "prefix"%string ∨ affix_type = "suffix"%string)
        then
          od ←r dict_getitem affix_dict affix_type;
          if decide (map_qv od < 254)
          then nonunique_loop used keys' (dict_pop affix_dict affix_type)
          else nonunique_loop used keys' affix_dict
        else nonunique_loop used keys' affix_dict
    end
  else Raise RuntimeError.

(** Lines 101-105 for one subread; iterating over [None] raises. *)
Definition remove_nonunique_roles (slot : option role_map)
  : result (option role_map) :=
  match slot with
  | None => Raise TypeError
  | Some affix_dict =>
      roles ←r nonunique_loop (length affix_dict) (dict_keys affix_dict)
                 affix_dict;
      Ok (Some roles)
  end.

Definition remove_nonunique_alignments (d : all_subread_dict)
  : result all_subread_dict :=
  for_each (λ d key,
      inner ←r dict_getitem d key;
      for_each (λ d sb,
          inner ←r dict_getitem d key;
          slot ←r dict_getitem inner sb;
          slot' ←r remove_nonunique_roles slot;
          Ok (dict_set d key (dict_set inner sb slot')))
        d (dict_keys inner))
    d (dict_keys d).

(** ** smrtview_output.write_split_reads_file *)

(** One value appended to [output] in [output_line]. *)
Inductive cell : Type :=
| CStr (s : string)
| CInt (z : Z)
| CFloat (q : Q)
| CAbsent.

Definition role_cells (od : output_dict) : list cell :=
  [CInt (subread_start od); CInt (subread_end od); CStr (ref_name od);
   CInt (strand od); CInt (target_start od); CInt (target_end od);
   CInt (score od); CFloat (pct_similarity od); CInt (map_qv od)].

(** [output_line]: the list [output] before it is joined with tabs. *)
Definition output_line (subread_alns : role_map) : result (list cell) :=
  primary ←r dict_getitem subread_alns "primary"%string;
  Ok ([CStr (read_name primary); CInt (subread_length primary)]
      ++ flat_map (λ affix_type,
             match dict_get subread_alns affix_type with
             | None => replicate 9 CAbsent
             | Some od => role_cells od
             end)
           ["prefix"%string; "primary"%string; "suffix"%string]).

(** The two nested loops
    [for key in subread_dict: for subread_bounds in subread_dict[key]]
    with a body that reads [subread_dict[key][subread_bounds]]. *)
Definition for_each_subread {V S} (d : subread_dict V)
    (body : S → V → result S) (s : S) : result S :=
  for_each (λ s key,
      inner ←r dict_getitem d key;
      for_each (λ s subread_bounds,
          inner ←r dict_getitem d key;
          subread_alns ←r dict_getitem inner subread_bounds;
          body s subread_alns)
        s (dict_keys inner))
    s (dict_keys d).

Definition count_subreads (d : all_subread_dict) : result nat :=
  for_each_subread d
    (λ counter subread_alns,
       match subread_alns with
       | None => Ok counter
       | Some _ => Ok (S counter)
       end)
    0%nat.

(** A line written to the split-reads file. *)
Inductive report_line : Type :=
| VersionLine
| TotalSubreadsLine (n : nat)
| ColumnsLine
| DataRow (cells : list cell).

Definition write_split_reads_file (d : all_subread_dict)
  : result (list report_line) :=
  num_total_subreads ←r count_subreads d;
  for_each_subread d
    (λ file subread_alns,
       match subread_alns with
       | None => Ok file
       | Some roles =>
           line ←r output_line roles;
           Ok (file ++ [DataRow line])
       end)
    [VersionLine; TotalSubreadsLine num_total_subreads; ColumnsLine].

(** * Notions used by the statements *)

(** An alignment is located at a subread when [find_subread_entry]
    returns the key and the bounds of that subread for it. *)
Definition located_at {V} (sd : subread_dict V) (key : subread_key)
    (sb : bounds) (a : CmpH5Alignment) : Prop :=
  find_subread_entry a sd = (Some key, Some sb).

Global Instance located_at_dec {V} (sd : subread_dict V) key sb a :
  Decision (located_at sd key sb a).
Proof. unfold located_at. apply _. Defined.

(** The alignments of a stream that are located at a subread, in stream
    order. *)
Definition located {V} (sd : subread_dict V) (key : subread_key)
    (sb : bounds) (cmph5_reader : list CmpH5Alignment)
  : list CmpH5Alignment :=
  filter (located_at sd key sb) cmph5_reader.

(** An alignment falls in a gap when its key is in the index and its
    read range overlaps none of the subreads of that key. *)
Definition in_gap {V} (sd : subread_dict V) (a : CmpH5Alignment) : Prop :=
  ∃ inner, dict_get sd (movieInfo_Name a, HoleNumber a) = Some inner ∧
           first_overlap (rStart a, rEnd a) (dict_keys inner) = None.

Global Instance in_gap_dec {V} (sd : subread_dict V) a : Decision (in_gap sd a).
Proof.
  unfold in_gap.
  destruct (dict_get sd (movieInfo_Name a, HoleNumber a)) as [inner|].
  - destruct (first_overlap (rStart a, rEnd a) (dict_keys inner)) eqn:E.
    + right. intros (inner' & [= <-] & ?). congruence.
    + left. eauto.
  - right. by intros (inner' & ? & ?).
Defined.

(** Least read start and greatest read end of a non-empty list of
    alignments [a :: l]. *)
Definition min_rStart (a : CmpH5Alignment) (l : list CmpH5Alignment) : Z :=
  foldr (λ b m, Z.min (rStart b) m) (rStart a) l.

Definition max_rEnd (a : CmpH5Alignment) (l : list CmpH5Alignment) : Z :=
  foldr (λ b m, Z.max (rEnd b) m) (rEnd a) l.

(** The envelope of the alignments located at a subread, absent when
    there is none. *)
Definition envelope (l : list CmpH5Alignment) : option bounds :=
  match l with
  | [] => None
  | a :: l' => Some (min_rStart a l', max_rEnd a l')
  end.

(** The affixes that the specification asks for one subread: the prefix
    from the subread start to the envelope start and the suffix from
    the envelope end to the subread end, each kept when its length is at
    least the minimum; nothing for a subread without alignments. *)
Definition expected_affixes (sb : bounds) (l : list CmpH5Alignment)
    (min_affix_size : Z) : list bounds :=
  match envelope l with
  | None => []
  | Some env =>
      (if decide (min_affix_size ≤ env.1 - sb.1) then [(sb.1, env.1)] else [])
      ++
      (if decide (min_affix_size ≤ sb.2 - env.2) then [(env.2, sb.2)] else [])
  end.

(** [sum([len(k) for k in affix_bounds.itervalues()])], the number of
    affixes that [main.create_affix_region_tables] logs. *)
Definition affix_count (ab : gmap subread_key (list bounds)) : nat :=
  map_fold (λ _ l n, (length l + n)%nat) 0%nat ab.

(** ** Region tables *)

(** The rows of one hole, in table order. *)
Definition hole_rows_of (tbl : list region_row) (h : Z) : list region_row :=
  filter (λ r, col_hole r = h) tbl.

(** The read length of a hole: the greatest end coordinate of its rows. *)
Definition read_length (tbl : list region_row) (h : Z) : result Z :=
  numpy_max (col_end <$> hole_rows_of tbl h).

(** The first high-quality-region row of a hole. *)
Definition first_hq_row (tbl : list region_row) (h : Z) : option region_row :=
  head (filter (λ r, col_type r = 2) (hole_rows_of tbl h)).

(** Every hole of the table has a high-quality-region row. *)
Definition has_hq_rows (tbl : list region_row) : Prop :=
  Forall (λ r, Exists (λ hq, col_hole hq = col_hole r ∧ col_type hq = 2) tbl)
    tbl.

(** The rows of a hole that are not high-quality-region rows, as the
    tests select them ([hole_rows[hole_rows[..., 1] != 2]]). *)
Definition non_hq_rows (tbl : list region_row) (h : Z) : list region_row :=
  filter (λ r, col_type r ≠ 2) (hole_rows_of tbl h).

(** Rows ordered by their [(start, end)] pair, the sort key of the
    tests. *)
Definition row_le (r1 r2 : region_row) : Prop :=
  tuple_le (col_start r1, col_end r1) (col_start r2, col_end r2).

Global Instance row_le_dec : RelDecision row_le.
Proof. intros r1 r2. unfold row_le. apply _. Defined.

Definition sort_rows (rows : list region_row) : list region_row :=
  merge_sort row_le rows.

(** [rows] tile [[lo, hi)]: the first row starts at [lo], every row
    ends where the next one starts, no row has a negative length and
    the last row ends at [hi]. *)
Fixpoint tiles (lo hi : Z) (rows : list region_row) : Prop :=
  match rows with
  | [] => lo = hi
  | r :: rows' =>
      col_start r = lo ∧ col_start r ≤ col_end r ∧ tiles (col_end r) hi rows'
  end.

(** No two consecutive rows have the same region type. *)
Fixpoint alternates (rows : list region_row) : Prop :=
  match rows with
  | r1 :: (r2 :: _) as rows' => col_type r1 ≠ col_type r2 ∧ alternates rows'
  | _ => True
  end.

(** The intervals of a list do not overlap one another. *)
Fixpoint pairwise_disjoint (l : list bounds) : Prop :=
  match l with
  | [] => True
  | a :: l' => Forall (λ b, intersectRanges a b = None) l' ∧ pairwise_disjoint l'
  end.

(** Affix intervals that are non-empty sub-intervals of [[0, L)] and
    pairwise disjoint. *)
Definition affixes_fit (l : list bounds) (L : Z) : Prop :=
  Forall (λ a, 0 ≤ a.1 ∧ a.1 < a.2 ∧ a.2 ≤ L) l ∧ pairwise_disjoint l.

(** The rows that [affix_region_table] emits for one hole, given the
    affixes recorded for it, its read length and its high-quality row. *)
Definition synthesized_rows (h : Z) (affixes : option (list bounds)) (L : Z)
    (hq : region_row) : list region_row :=
  match affixes with
  | None => [mkRow h HQ_REGION 0 0 0; mkRow h ADAPTER_REGION 0 L 0]
  | Some l =>
      (affix_rows h 0 (list_sort l)).1
      ++ [mkRow h ADAPTER_REGION (affix_rows h 0 (list_sort l)).2 L 900; hq]
  end.

(** Each interval of [l] is non-empty and starts at or after the end of
    the one before it, the first at or after [prev]. *)
Fixpoint follows (prev : Z) (l : list bounds) : Prop :=
  match l with
  | [] => True
  | a :: l' => prev ≤ a.1 ∧ a.1 < a.2 ∧ follows a.2 l'
  end.

(** The strict order of rows by their [(start, end)] pair. *)
Definition row_lt (r1 r2 : region_row) : Prop :=
  col_start r1 < col_start r2 ∨
  (col_start r1 = col_start r2 ∧ col_end r1 < col_end r2).

(** The extents agree with the alignments processed so far: every
    subread of the index holds the envelope of the alignments located
    at it. *)
Definition extents_of {V} (sd : subread_dict V)
    (processed : list CmpH5Alignment) (ae : extents) : Prop :=
  ∀ key inner, dict_get sd key = Some inner →
    ∃ inner', dict_get ae key = Some inner' ∧
      ∀ sb, sb ∈ dict_keys inner →
        dict_get inner' sb = Some (envelope (located sd key sb processed)).

(** The affixes that the specification asks for one key: those of its
    subreads, in the order of the subreads. *)
Definition expected_key_affixes {V} (sd : subread_dict V)
    (cmph5_reader : list CmpH5Alignment) (min_affix_size : Z)
    (key : subread_key) : list bounds :=
  flat_map (λ sb, expected_affixes sb (located sd key sb cmph5_reader)
                    min_affix_size)
    (dict_keys (default [] (dict_get sd key))).

(** ** The report *)

(** Lines 245-248 of [main.py]: the optional filter and the report. *)
Definition filter_and_write (d : all_subread_dict) (unique_only : bool)
  : result (list report_line) :=
  d ←r (if unique_only then remove_nonunique_alignments d else Ok d);
  write_split_reads_file d.

(** [create_pbbridgemapper_output] from the dictionary of the input
    subreads and the two alignment streams to the lines of the report. *)
Definition create_pbbridgemapper_output (d0 : all_subread_dict)
    (primary_cmph5_reader affix_cmph5_reader : list CmpH5Alignment)
    (unique_only : bool) : result (list report_line) :=
  d ←r aggregate d0 primary_cmph5_reader affix_cmph5_reader;
  filter_and_write d unique_only.

(** The values stored for the subreads of a dictionary, in iteration
    order. *)
Definition subread_slots {V} (d : subread_dict V) : list V :=
  flat_map (λ kv, kv.2.*2) d.

(** The role dictionary of a subread holds a primary role. *)
Definition holds_primary (slot : option role_map) : Prop :=
  match slot with
  | Some roles => is_Some (dict_get roles "primary"%string)
  | None => False
  end.

Global Instance holds_primary_dec slot : Decision (holds_primary slot).
Proof. destruct slot; simpl; apply _. Defined.

(** The number of subreads whose role dictionary holds a primary role. *)
Definition subreads_with_primary (d : all_subread_dict) : nat :=
  length (filter holds_primary (subread_slots d)).

(** Every subread that was populated holds a primary role: what the two
    aggregation passes leave behind. *)
Definition populated_hold_primary (d : all_subread_dict) : Prop :=
  Forall (λ slot, slot = None ∨ holds_primary slot) (subread_slots d).

(** The same, stated by key. *)
Definition populated_hold_primary_at (d : all_subread_dict) : Prop :=
  ∀ key inner sb roles,
    dict_get d key = Some inner → dict_get inner sb = Some (Some roles) →
    is_Some (dict_get roles "primary"%string).

(** The data rows of a report and the count printed in its header. *)
Definition data_rows (file : list report_line) : list (list cell) :=
  omap (λ line, match line with DataRow cells => Some cells | _ => None end)
    file.

Definition header_total (file : list report_line) : option nat :=
  head (omap (λ line, match line with
                      | TotalSubreadsLine n => Some n
                      | _ => None
                      end) file).

(** ** The affix pass *)

(** The role that the affix pass gives an affix alignment of a subread,
    from the positions of the alignment and of the primary alignment
    relative to the subread start: lines 227-232 of [main.py]. *)
Definition affix_role (alignment_dict primary_dict : output_dict)
  : option string :=
  if decide (subread_end alignment_dict ≤ subread_start primary_dict)
  then Some "prefix"%string
  else if decide (subread_end primary_dict ≤ subread_start alignment_dict)
  then Some "suffix"%string
  else None.

(** The replacement rule of a role slot: a new record replaces an
    absent one or one of strictly lower map quality. *)
Definition better_role (existing : option output_dict) (new : output_dict)
  : output_dict :=
  match existing with
  | None => new
  | Some e => if decide (map_qv e < map_qv new) then new else e
  end.

(** The subreads of every hole of the movie are pairwise disjoint and
    lie within the read of the hole. *)
Definition subreads_fit {V} (sd : subread_dict V) (movie : string)
    (tbl : list region_row) : Prop :=
  ∀ h inner L,
    dict_get sd (movie, h) = Some inner → read_length tbl h = Ok L →
    Forall (λ sb, 0 ≤ sb.1 ∧ sb.2 ≤ L) (dict_keys inner) ∧
    pairwise_disjoint (dict_keys inner).

(** ** Example inputs *)

Definition example_alignment (movie : string) (hole rstart rend qv : Z)
  : CmpH5Alignment :=
  mkAlignment movie hole rstart rend "chr1" 0 5000 5800 (Qmake 9 10) qv.

(** One hole with the single subread [(0, 100)]. *)
Definition gap_index : all_subread_dict :=
  [(("m1"%string, 1), [((0, 100), None)])].

(** An alignment of that hole whose read range [(200, 300)] lies after
    the subread. *)
Definition gap_alignment : CmpH5Alignment :=
  example_alignment "m1" 1 200 300 254.

(** One hole with the single subread [(0, 1000)]. *)
Definition one_subread_index : all_subread_dict :=
  [(("m1"%string, 1), [((0, 1000), None)])].

(** Two primary alignments of that subread, the better one first. *)
Definition primary_high : CmpH5Alignment :=
  example_alignment "m1" 1 100 900 254.
Definition primary_low : CmpH5Alignment :=
  example_alignment "m1" 1 100 900 10.

(** A table with the single hole 7: its high-quality row and one insert
    row. *)
Definition no_affix_table : list region_row :=
  [mkRow 7 2 10 90 800; mkRow 7 1 10 90 (-1)].

(** A table with the single hole 3 and two affixes recorded for it, the
    later one first. *)
Definition affix_table : list region_row :=
  [mkRow 3 1 0 40 (-1); mkRow 3 0 40 50 0; mkRow 3 1 50 100 (-1);
   mkRow 3 2 0 100 700].

Definition affix_table_bounds : gmap subread_key (list bounds) :=
  {[ ("m1"%string, 3) := [(60, 100); (0, 20)] ]}.

(** The affix bounds of [one_subread_index] after the alignment
    [primary_high] with a minimum affix size of 50. *)
Definition one_subread_affix_bounds : gmap subread_key (list bounds) :=
  {[ ("m1"%string, 1) := [(0, 100); (900, 1000)] ]}.

(** A subread of [one_subread_index] after both passes: a primary role
    of map quality 254 and a suffix role of map quality 200. *)
Definition suffix_low : CmpH5Alignment :=
  example_alignment "m1" 1 900 950 200.

Definition low_suffix_roles : role_map :=
  [("primary"%string, alignment_to_output_dict primary_high (0, 1000));
   ("suffix"%string, alignment_to_output_dict suffix_low (0, 1000))].

Definition low_suffix_dict : all_subread_dict :=
  [(("m1"%string, 1), [((0, 1000), Some low_suffix_roles)])].

(** The same subread beside one that received no alignment. *)
Definition mixed_dict : all_subread_dict :=
  [(("m1"%string, 1),
    [((0, 1000), Some low_suffix_roles); ((1100, 2000), None)])].

(** * Further notions *)

(** The hole of the alignment is a key of the index. *)
Definition in_index {V} (sd : subread_dict V) (a : CmpH5Alignment) : Prop :=
  is_Some (dict_get sd (movieInfo_Name a, HoleNumber a)).

Global Instance in_index_dec {V} (sd : subread_dict V) a :
  Decision (in_index sd a).
Proof. unfold in_index. apply _. Defined.

(** No key of the dictionary holds an empty list. *)
Definition no_empty_list (ab : gmap subread_key (list bounds)) : Prop :=
  ∀ key l, ab !! key = Some l → l ≠ [].

(** The rows that [affix_region_table] emits for one hole of the table,
    from the affix list that the caller recorded for it. *)
Definition synthesized_block (tbl : list region_row) (movie : string)
    (ab : gmap subread_key (list bounds)) (h : Z) : list region_row :=
  match read_length tbl h, first_hq_row tbl h with
  | Ok L, Some hq => synthesized_rows h (ab !! (movie, h)) L hq
  | _, _ => []
  end.

(** The blocks of the holes of the table, in ascending hole order. *)
Definition synthesized_table (tbl : list region_row) (movie : string)
    (ab : gmap subread_key (list bounds)) : list region_row :=
  flat_map (synthesized_block tbl movie ab) (numpy_unique (col_hole <$> tbl)).

(** Two affix dictionaries record, for every hole of the movie, the
    same intervals up to their order. *)
Definition same_affixes (movie : string)
    (ab1 ab2 : gmap subread_key (list bounds)) : Prop :=
  ∀ h : Z,
    match ab1 !! (movie, h), ab2 !! (movie, h) with
    | Some l1, Some l2 => l1 ≡ₚ l2
    | None, None => True
    | _, _ => False
    end.

(** ** The aggregation passes, subread by subread *)

(** An index as [subread_dictionary] builds it: no subread holds
    roles. *)
Definition fresh_index (d : all_subread_dict) : Prop :=
  Forall (λ slot, slot = None) (subread_slots d).

(** What one affix alignment located at a subread does to the roles of
    that subread: lines 220-243 of [main.py]. *)
Definition affix_update (sb : bounds) (roles : role_map)
    (alignment : CmpH5Alignment) : role_map :=
  let alignment_dict := alignment_to_output_dict alignment sb in
  match dict_get roles "primary"%string with
  | None => roles
  | Some primary_dict =>
      match affix_role alignment_dict primary_dict with
      | None => roles
      | Some affix_type =>
          match dict_get roles affix_type with
          | None => dict_set roles affix_type alignment_dict
          | Some e =>
              if decide (map_qv e < MapQV alignment)
              then dict_set roles affix_type alignment_dict
              else roles
          end
      end
  end.

(** The roles of a subread after the two passes, from the primary and
    the affix alignments located at it, in stream order. *)
Definition roles_of (sb : bounds)
    (primary_aligns affix_aligns : list CmpH5Alignment) : option role_map :=
  match last primary_aligns with
  | None => None
  | Some a =>
      Some (foldl (affix_update sb)
              [("primary"%string, alignment_to_output_dict a sb)]
              affix_aligns)
  end.

(** Every subread of [d0] is a subread of [d] and holds [F key sb]. *)
Definition slots_are (d0 d : all_subread_dict)
    (F : subread_key → bounds → option role_map) : Prop :=
  ∀ key inner0 sb, dict_get d0 key = Some inner0 → sb ∈ dict_keys inner0 →
    ∃ inner, dict_get d key = Some inner ∧ dict_get inner sb = Some (F key sb).

(** The alignment locator gives the same answers on [d] as on [d0]. *)
Definition same_entries (d0 d : all_subread_dict) : Prop :=
  ∀ a, find_subread_entry a d = find_subread_entry a d0.

(** The state of the primary pass after the alignments [processed]. *)
Definition primary_pass_inv (d0 : all_subread_dict)
    (processed : list CmpH5Alignment) (st : all_subread_dict * locals)
  : Prop :=
  same_entries d0 st.1 ∧
  slots_are d0 st.1 (λ key sb, roles_of sb (located d0 key sb processed) []) ∧
  (existing_aligment st.2 = Some None ∨
   (existing_aligment st.2 = None ∧
    ∀ key sb, located d0 key sb processed = [])).

(** The state of the affix pass after the affix alignments [processed],
    the primary pass having run over [primary_aligns]. *)
Definition affix_pass_inv (d0 : all_subread_dict)
    (primary_aligns processed : list CmpH5Alignment)
    (st : all_subread_dict * locals) : Prop :=
  same_entries d0 st.1 ∧
  slots_are d0 st.1
    (λ key sb, roles_of sb (located d0 key sb primary_aligns)
                 (located d0 key sb processed)).

(** ** The uniqueness filter and the report *)

(** The record of a role, when there is one, has a map quality of at
    least 254. *)
Definition high_quality (roles : role_map) (affix_type : string) : Prop :=
  match dict_get roles affix_type with
  | Some od => 254 ≤ map_qv od
  | None => True
  end.

Global Instance high_quality_dec roles affix_type :
  Decision (high_quality roles affix_type).
Proof. unfold high_quality. destruct (dict_get roles affix_type); apply _. Defined.

(** A subread that [remove_nonunique_alignments] passes over without
    an exception: it holds roles, and neither affix is below the
    threshold. *)
Definition survives_filter (slot : option role_map) : Prop :=
  match slot with
  | None => False
  | Some roles =>
      high_quality roles "prefix"%string ∧ high_quality roles "suffix"%string
  end.

Global Instance survives_filter_dec slot : Decision (survives_filter slot).
Proof. destruct slot; simpl; apply _. Defined.

(** [OUTPUT_COLUMNS], the names that the third header line of the
    report joins with tabs. *)
Definition OUTPUT_COLUMNS : list string :=
  ["read"; "subreadLength";
   "prologSubreadStart"; "prologSubreadEnd"; "prologRefid";
   "prologTstrand"; "prologStart"; "prologEnd"; "prologScore";
   "prologPctsimilarity"; "prologMapqv";
   "primarySubreadStart"; "primarySubreadEnd"; "primaryRefid";
   "primaryTstrand"; "primaryStart"; "primaryEnd"; "primaryScore";
   "primaryPctsimilarity"; "primaryMapqv";
   "epilogSubreadStart"; "epilogSubreadEnd"; "epilogRefid";
   "epilogTstrand"; "epilogStart"; "epilogEnd"; "epilogScore";
   "epilogPctsimilarity"; "epilogMapqv"]%string.

(** A subread that holds roles but no primary role. *)
Definition lacks_primary (slot : option role_map) : Prop :=
  is_Some slot ∧ ¬ holds_primary slot.

Global Instance lacks_primary_dec slot : Decision (lacks_primary slot).
Proof. unfold lacks_primary. apply _. Defined.

(** * Properties *)

(** ** Loops and dictionaries *)

Lemma rbind_Ok {A B} (r : result A) (k : A → result B) (b : B) :
  rbind r k = Ok b ↔ ∃ a, r = Ok a ∧ k a = Ok b.
Proof.
  destruct r as [a|e]; simpl; split.
  - eauto.
  - by intros (a' & [= <-] & ?).
  - done.
  - by intros (a' & ? & ?).
Qed.

Lemma for_each_app {A S} (body : S → A → result S) (s : S) (l1 l2 : list A) :
  for_each body s (l1 ++ l2) = s' ←r for_each body s l1; for_each body s' l2.
Proof.
  revert s. induction l1 as [|x l1 IH]; intros s; simpl; [done|].
  destruct (body s x); simpl; auto.
Qed.

(** A loop whose body never raises is a left fold. *)
Lemma for_each_pure {A S} (f : S → A → S) (s : S) (l : list A) :
  for_each (λ s x, Ok (f s x)) s l = Ok (foldl f s l).
Proof. revert s. induction l as [|x l IH]; intros s; simpl; auto. Qed.

Lemma for_each_ext_in {A S} (f g : S → A → result S) (s : S) (l : list A) :
  (∀ s x, x ∈ l → f s x = g s x) → for_each f s l = for_each g s l.
Proof.
  revert s. induction l as [|x l IH]; intros s Hfg; simpl; [done|].
  rewrite Hfg by left. destruct (g s x); simpl; [|done].
  apply IH. intros. apply Hfg. by right.
Qed.

Section DictFacts.
Context {K V : Type} `{EqDecision K}.
Implicit Types (d : list (K * V)) (k : K) (v : V).

Lemma dict_get_set_eq d k v : dict_get (dict_set d k v) k = Some v.
Proof.
  induction d as [|[k' v'] d IH]; simpl.
  - by rewrite decide_True.
  - destruct (decide (k' = k)) as [->|Hne]; simpl.
    + by rewrite decide_True.
    + by rewrite decide_False.
Qed.

Lemma dict_get_set_ne d k k' v :
  k ≠ k' → dict_get (dict_set d k v) k' = dict_get d k'.
Proof.
  intros Hne. induction d as [|[k1 v1] d IH]; simpl.
  - by rewrite decide_False.
  - destruct (decide (k1 = k)) as [->|Hne1]; simpl.
    + by rewrite !decide_False.
    + by rewrite IH.
Qed.

Lemma dict_get_set d k k' v :
  dict_get (dict_set d k v) k' =
  if decide (k = k') then Some v else dict_get d k'.
Proof.
  destruct (decide (k = k')) as [->|?];
    auto using dict_get_set_eq, dict_get_set_ne.
Qed.

Lemma dict_get_Some_keys d k v : dict_get d k = Some v → k ∈ dict_keys d.
Proof.
  induction d as [|[k' v'] d IH]; simpl; [done|].
  destruct (decide (k' = k)) as [->|?]; intros.
  - left.
  - right. auto.
Qed.

Lemma dict_get_Some_elem d k v : dict_get d k = Some v → (k, v) ∈ d.
Proof.
  induction d as [|[k' v'] d IH]; simpl; [done|].
  destruct (decide (k' = k)) as [->|?]; intros.
  - simplify_eq. left.
  - right. auto.
Qed.

Lemma dict_keys_get d k : k ∈ dict_keys d → is_Some (dict_get d k).
Proof.
  induction d as [|[k' v'] d IH]; simpl.
  - by intros ?%elem_of_nil.
  - intros Hin. destruct (decide (k' = k)) as [->|?]; [eauto|].
    apply IH. apply elem_of_cons in Hin as [?|?]; [congruence|done].
Qed.

Lemma dict_get_None_keys d k : dict_get d k = None ↔ k ∉ dict_keys d.
Proof.
  split.
  - intros Hn Hin. apply dict_keys_get in Hin as [? ?]. congruence.
  - intros Hn. destruct (dict_get d k) eqn:E; [|done].
    by apply dict_get_Some_keys in E.
Qed.

Lemma dict_get_elem_NoDup d k v :
  NoDup (dict_keys d) → (k, v) ∈ d → dict_get d k = Some v.
Proof.
  induction d as [|[k' v'] d IH]; simpl.
  - by intros _ ?%elem_of_nil.
  - intros [Hk Hnd]%NoDup_cons Hin.
    apply elem_of_cons in Hin as [?|Hin]; simplify_eq.
    + by rewrite decide_True.
    + rewrite decide_False; [auto|].
      intros ->. apply Hk. unfold dict_keys.
      apply (list_elem_of_fmap_2 fst) in Hin. done.
Qed.

Lemma dict_keys_set_present d k v :
  k ∈ dict_keys d → dict_keys (dict_set d k v) = dict_keys d.
Proof.
  induction d as [|[k' v'] d IH]; simpl.
  - by intros ?%elem_of_nil.
  - intros Hin. destruct (decide (k' = k)) as [->|?]; simpl; [done|].
    f_equal. apply IH.
    apply elem_of_cons in Hin as [?|?]; [congruence|done].
Qed.

Lemma dict_keys_set_absent d k v :
  k ∉ dict_keys d → dict_keys (dict_set d k v) = dict_keys d ++ [k].
Proof.
  induction d as [|[k' v'] d IH]; simpl; [done|].
  intros Hin. apply not_elem_of_cons in Hin as [? ?].
  rewrite decide_False by done. simpl. f_equal. auto.
Qed.

Lemma dict_set_NoDup d k v :
  NoDup (dict_keys d) → NoDup (dict_keys (dict_set d k v)).
Proof.
  intros Hnd. destruct (decide (k ∈ dict_keys d)).
  - by rewrite dict_keys_set_present.
  - rewrite dict_keys_set_absent by done.
    apply NoDup_app. split_and!; [done| |apply NoDup_singleton].
    intros x Hx ->%list_elem_of_singleton. done.
Qed.

Lemma dict_getitem_Ok d k v : dict_getitem d k = Ok v ↔ dict_get d k = Some v.
Proof.
  unfold dict_getitem. destruct (dict_get d k); split; congruence.
Qed.
End DictFacts.

(** ** The alignment locator: alignments in a gap *)

Lemma find_subread_entry_gap {V} (sd : subread_dict V) a :
  in_gap sd a →
  find_subread_entry a sd = (Some (movieInfo_Name a, HoleNumber a), None).
Proof.
  intros (inner & Hget & Hnone). unfold find_subread_entry.
  by rewrite Hget, Hnone.
Qed.

(** Whatever the extents hold, the extent loop raises on an alignment
    that falls in a gap. *)
Lemma extent_step_gap {V} (sd : subread_dict V) ae a :
  in_gap sd a → ∃ e, extent_step sd ae a = Raise e.
Proof.
  intros Hgap. unfold extent_step.
  rewrite (find_subread_entry_gap _ _ Hgap).
  destruct (dict_getitem ae _); simpl; eauto.
Qed.

Lemma primary_step_gap d loc a :
  in_gap d a → primary_step (d, loc) a = Raise KeyError.
Proof.
  intros Hgap. unfold primary_step.
  rewrite (find_subread_entry_gap _ _ Hgap).
  destruct Hgap as (inner & Hget & _).
  unfold dict_getitem. by rewrite Hget.
Qed.

Lemma affix_step_gap d loc a :
  in_gap d a → affix_step (d, loc) a = Raise KeyError.
Proof.
  intros Hgap. unfold affix_step.
  rewrite (find_subread_entry_gap _ _ Hgap).
  destruct Hgap as (inner & Hget & _).
  unfold dict_getitem. by rewrite Hget.
Qed.

(** C3, at the index [{("m1", 1): {(0, 100): None}}] and an alignment of
    hole [("m1", 1)] with read range [(200, 300)]: [find_subread_entry]
    returns the key together with [None] for the bounds, not
    [(None, None)], and each of its three callers then looks up the
    bounds [None] and raises [KeyError] instead of skipping the
    alignment. *)
Theorem gap_alignment_raises :
  in_gap gap_index gap_alignment ∧
  find_subread_entry gap_alignment gap_index = (Some ("m1"%string, 1), None) ∧
  affix_boundaries gap_index [gap_alignment] 50 = Raise KeyError ∧
  for_each primary_step (gap_index, no_locals) [gap_alignment]
    = Raise KeyError ∧
  for_each affix_step (gap_index, no_locals) [gap_alignment]
    = Raise KeyError.
Proof.
  split_and!; [|reflexivity..].
  eexists. split; reflexivity.
Qed.

(** ** The primary pass keeps the last alignment *)

(** C1, at the index [{("m1", 1): {(0, 1000): None}}] and two primary
    alignments of the same subread with map qualities 254 then 10: the
    primary slot ends with the record of map quality 10, the one
    processed last, and not with the better one. *)
Theorem primary_pass_keeps_last :
  aggregate one_subread_index [primary_high; primary_low] [] =
    Ok [(("m1"%string, 1),
         [((0, 1000),
           Some [("primary"%string,
                  alignment_to_output_dict primary_low (0, 1000))])])] ∧
  map_qv (alignment_to_output_dict primary_low (0, 1000)) = 10 ∧
  map_qv (alignment_to_output_dict primary_high (0, 1000)) = 254.
Proof. split_and!; reflexivity. Qed.

(** ** The region-table synthesizer, hole by hole *)

Lemma numpy_unique_elem_of l x : x ∈ numpy_unique l ↔ x ∈ l.
Proof.
  unfold numpy_unique. rewrite merge_sort_Permutation.
  apply elem_of_remove_dups.
Qed.

Lemma numpy_unique_NoDup l : NoDup (numpy_unique l).
Proof.
  unfold numpy_unique. rewrite merge_sort_Permutation.
  apply NoDup_remove_dups.
Qed.

Lemma affix_rows_hole h prev l :
  Forall (λ r, col_hole r = h) (affix_rows h prev l).1.
Proof.
  revert prev. induction l as [|af l IH]; intros prev; simpl.
  - constructor.
  - specialize (IH af.2). destruct (affix_rows h af.2 l) as [rows last].
    simpl in *. by repeat constructor.
Qed.

Lemma filter_hole_same h (rows : list region_row) :
  Forall (λ r, col_hole r = h) rows →
  filter (λ r, col_hole r = h) rows = rows.
Proof.
  induction 1 as [|r rows Hr _ IH]; [done|].
  by rewrite filter_cons_True, IH.
Qed.

Lemma filter_hole_other h h' (rows : list region_row) :
  h ≠ h' → Forall (λ r, col_hole r = h) rows →
  filter (λ r, col_hole r = h') rows = [].
Proof.
  intros Hne. induction 1 as [|r rows Hr _ IH]; [done|].
  rewrite filter_cons_False by congruence. done.
Qed.

Lemma read_length_Ok tbl h :
  h ∈ col_hole <$> tbl → ∃ L, read_length tbl h = Ok L.
Proof.
  intros (r & -> & Hr)%list_elem_of_fmap. unfold read_length.
  assert (r ∈ hole_rows_of tbl (col_hole r)) as Hin
    by (by apply list_elem_of_filter).
  destruct (hole_rows_of tbl (col_hole r)); [by apply elem_of_nil in Hin|].
  simpl. eauto.
Qed.

Lemma first_hq_row_Some tbl h :
  has_hq_rows tbl → h ∈ col_hole <$> tbl →
  ∃ hq, first_hq_row tbl h = Some hq ∧ col_hole hq = h ∧ col_type hq = 2
        ∧ hq ∈ tbl.
Proof.
  intros Hhq (r & -> & Hr)%list_elem_of_fmap.
  unfold has_hq_rows in Hhq. rewrite Forall_forall in Hhq.
  apply Hhq in Hr. apply Exists_exists in Hr as (hq & Hin & Hhole & Hty).
  unfold first_hq_row.
  assert (hq ∈ filter (λ r, col_type r = 2) (hole_rows_of tbl (col_hole r)))
    as Hin'.
  { apply list_elem_of_filter. split; [done|].
    by apply list_elem_of_filter. }
  destruct (filter _ (hole_rows_of tbl (col_hole r))) as [|hq' l] eqn:E;
    [by apply elem_of_nil in Hin'|].
  exists hq'. simpl. split; [done|].
  assert (hq' ∈ hq' :: l) as Hhq' by left. rewrite <-E in Hhq'.
  apply list_elem_of_filter in Hhq' as [? Hhq'].
  apply list_elem_of_filter in Hhq' as [? ?]. done.
Qed.

(** One step of the loop: the block of the hole is appended and the
    affix list of the hole, when there is one, is replaced by its sorted
    copy. *)
Lemma region_table_step_spec tbl movie out ab h L hq :
  read_length tbl h = Ok L → first_hq_row tbl h = Some hq →
  region_table_step tbl movie (out, ab) h =
    Ok (out ++ synthesized_rows h (ab !! (movie, h)) L hq,
        match ab !! (movie, h) with
        | Some l => <[(movie, h) := list_sort l]> ab
        | None => ab
        end).
Proof.
  intros HL Hhq. unfold region_table_step, read_length, first_hq_row,
    hole_rows_of in *.
  rewrite HL. simpl.
  destruct (filter (λ r, col_type r = 2) _) as [|hq' ?]; [done|].
  simpl in Hhq. simplify_eq. simpl.
  destruct (ab !! (movie, h)) as [l|]; simpl; [|done].
  destruct (affix_rows h 0 (list_sort l)) as [rows last]. done.
Qed.

Lemma synthesized_rows_hole h affixes L hq :
  col_hole hq = h →
  Forall (λ r, col_hole r = h) (synthesized_rows h affixes L hq).
Proof.
  intros Hhq. destruct affixes as [l|]; simpl.
  - apply Forall_app. split; [apply affix_rows_hole|].
    by repeat constructor.
  - by repeat constructor.
Qed.

(** The whole loop over distinct holes of the table. *)
Lemma region_table_loop_spec tbl movie hs :
  has_hq_rows tbl → NoDup hs → (∀ h, h ∈ hs → h ∈ col_hole <$> tbl) →
  ∀ out ab, ∃ out' ab',
    for_each (region_table_step tbl movie) (out, ab) hs = Ok (out ++ out', ab')
    ∧ (∀ h, h ∉ hs → filter (λ r, col_hole r = h) out' = [])
    ∧ (∀ h, h ∈ hs → ∃ L hq,
          read_length tbl h = Ok L ∧ first_hq_row tbl h = Some hq ∧
          filter (λ r, col_hole r = h) out'
            = synthesized_rows h (ab !! (movie, h)) L hq)
    ∧ (∀ h, h ∈ hs → ab' !! (movie, h) = list_sort <$> ab !! (movie, h))
    ∧ (∀ k, (∀ h, h ∈ hs → k ≠ (movie, h)) → ab' !! k = ab !! k).
Proof.
  intros Hhq Hnd. induction Hnd as [|h hs Hnotin Hnd IH]; intros Hin out ab.
  - exists [], ab. simpl. rewrite app_nil_r. split_and!; try done.
    + by intros h ?%elem_of_nil.
    + by intros h ?%elem_of_nil.
  - destruct (read_length_Ok tbl h) as [L HL]; [apply Hin; left|].
    destruct (first_hq_row_Some tbl h Hhq) as (hq & Hfirst & Hhole & Hty & _);
      [apply Hin; left|].
    cbn [for_each]. rewrite (region_table_step_spec _ _ _ _ _ _ _ HL Hfirst).
    cbn [rbind].
    set (ab1 := match ab !! (movie, h) with
                | Some l => <[(movie, h) := list_sort l]> ab
                | None => ab
                end).
    assert (∀ k, k ≠ (movie, h) → ab1 !! k = ab !! k) as Hab1_ne.
    { intros k Hk. unfold ab1. destruct (ab !! (movie, h)); [|done].
      by rewrite lookup_insert_ne. }
    assert (ab1 !! (movie, h) = list_sort <$> ab !! (movie, h)) as Hab1_eq.
    { unfold ab1. destruct (ab !! (movie, h)) eqn:E; simpl.
      - by rewrite lookup_insert_eq.
      - done. }
    destruct (IH (λ h' Hh', Hin h' (list_elem_of_further _ _ _ Hh'))
                (out ++ synthesized_rows h (ab !! (movie, h)) L hq) ab1)
      as (out' & ab' & Hloop & Hother & Hblocks & Hsorted & Hframe).
    exists (synthesized_rows h (ab !! (movie, h)) L hq ++ out'), ab'.
    pose proof (synthesized_rows_hole h (ab !! (movie, h)) L hq Hhole) as Hrows.
    split_and!.
    + by rewrite Hloop, <-app_assoc.
    + intros h' Hh'. apply not_elem_of_cons in Hh' as [Hne Hh'].
      rewrite filter_app, Hother by done.
      rewrite (filter_hole_other h h') by done. done.
    + intros h' Hh'. apply elem_of_cons in Hh' as [->|Hh'].
      * exists L, hq. split_and!; [done..|].
        rewrite filter_app, Hother by done.
        rewrite filter_hole_same by done. by rewrite app_nil_r.
      * assert (h ≠ h') as Hne by (by intros ->).
        destruct (Hblocks h' Hh') as (L' & hq' & HL' & Hfirst' & Hrows').
        exists L', hq'. split_and!; [done..|].
        rewrite filter_app, (filter_hole_other h h') by done. simpl.
        rewrite Hrows', Hab1_ne; [done|]. congruence.
    + intros h' Hh'. apply elem_of_cons in Hh' as [->|Hh'].
      * rewrite Hframe, Hab1_eq; [done|].
        intros h' Hh' [= <-]. exact (Hnotin Hh').
      * rewrite (Hsorted h' Hh'). rewrite Hab1_ne; [done|].
        intros [= <-]. exact (Hnotin Hh').
    + intros k Hk. rewrite Hframe.
      * apply Hab1_ne. apply Hk. left.
      * intros h' Hh'. apply Hk. by right.
Qed.

(** What [affix_region_table] returns on a table in which every hole
    has a high-quality-region row. *)
Lemma affix_region_table_spec tbl movie ab :
  has_hq_rows tbl →
  ∃ out ab',
    affix_region_table tbl movie ab = Ok (out, ab')
    ∧ (∀ h, h ∉ col_hole <$> tbl → hole_rows_of out h = [])
    ∧ (∀ h, h ∈ col_hole <$> tbl → ∃ L hq,
          read_length tbl h = Ok L ∧ first_hq_row tbl h = Some hq ∧
          hole_rows_of out h = synthesized_rows h (ab !! (movie, h)) L hq)
    ∧ (∀ h, h ∈ col_hole <$> tbl →
          ab' !! (movie, h) = list_sort <$> ab !! (movie, h))
    ∧ (∀ k, (∀ h, h ∈ col_hole <$> tbl → k ≠ (movie, h)) → ab' !! k = ab !! k).
Proof.
  intros Hhq. unfold affix_region_table.
  destruct (region_table_loop_spec tbl movie
              (numpy_unique (col_hole <$> tbl)) Hhq
              (numpy_unique_NoDup _)
              (λ h, proj1 (numpy_unique_elem_of _ h)) [] ab)
    as (out & ab' & Hloop & Hother & Hblocks & Hsorted & Hframe).
  exists out, ab'. simpl in Hloop. split_and!; [done|..].
  - intros h Hh. apply Hother. by rewrite numpy_unique_elem_of.
  - intros h Hh. apply Hblocks. by apply numpy_unique_elem_of.
  - intros h Hh. apply Hsorted. by apply numpy_unique_elem_of.
  - intros k Hk. apply Hframe. intros h Hh. apply Hk.
    by apply numpy_unique_elem_of.
Qed.

(** ** Holes without affixes *)

(** C2, counterexample: for the table
    [[7, 2, 10, 90, 800], [7, 1, 10, 90, -1]] and no affixes, the
    synthesized table has two rows for hole 7, an empty high-quality
    row and the adapter row; the original high-quality row
    [[7, 2, 10, 90, 800]] is not copied. *)
Lemma no_affix_hole_drops_hq_row :
  affix_region_table no_affix_table "m1" ∅ =
    Ok ([mkRow 7 HQ_REGION 0 0 0; mkRow 7 ADAPTER_REGION 0 90 0], ∅) ∧
  first_hq_row no_affix_table 7 = Some (mkRow 7 2 10 90 800) ∧
  mkRow 7 2 10 90 800 ∉ [mkRow 7 HQ_REGION 0 0 0; mkRow 7 ADAPTER_REGION 0 90 0].
Proof.
  split_and!; [reflexivity..|].
  intros Hin. repeat (apply elem_of_cons in Hin as [Hin|Hin]; [discriminate|]).
  by apply elem_of_nil in Hin.
Qed.

(** C2, amended: for every hole of the original table that has no entry
    in the affix bounds, the rows of the synthesized table for that
    hole are exactly two, a zero-length high-quality-region row
    [[hole, HQ, 0, 0, 0]] and an adapter row
    [[hole, ADAPTER, 0, read_length, 0]]. *)
Theorem no_affix_hole_rows tbl movie ab h :
  has_hq_rows tbl → h ∈ col_hole <$> tbl → ab !! (movie, h) = None →
  ∃ out ab' L,
    affix_region_table tbl movie ab = Ok (out, ab') ∧
    read_length tbl h = Ok L ∧
    hole_rows_of out h =
      [mkRow h HQ_REGION 0 0 0; mkRow h ADAPTER_REGION 0 L 0].
Proof.
  intros Hhq Hh Hnone.
  destruct (affix_region_table_spec tbl movie ab Hhq)
    as (out & ab' & Hrun & _ & Hblocks & _).
  destruct (Hblocks h Hh) as (L & hq & HL & _ & Hrows).
  exists out, ab', L. split_and!; [done..|].
  by rewrite Hrows, Hnone.
Qed.

Lemma no_affix_hole_rows_witness :
  has_hq_rows no_affix_table ∧
  7 ∈ col_hole <$> no_affix_table ∧
  (∅ : gmap subread_key (list bounds)) !! ("m1"%string, 7) = None ∧
  ∃ out ab' L,
    affix_region_table no_affix_table "m1" ∅ = Ok (out, ab') ∧
    read_length no_affix_table 7 = Ok L ∧
    hole_rows_of out 7 =
      [mkRow 7 HQ_REGION 0 0 0; mkRow 7 ADAPTER_REGION 0 L 0].
Proof.
  assert (has_hq_rows no_affix_table) as H1 by compute_done.
  assert (7 ∈ col_hole <$> no_affix_table) as H2 by (simpl; left).
  assert ((∅ : gmap subread_key (list bounds)) !! ("m1"%string, 7) = None)
    as H3 by reflexivity.
  split_and!; [exact H1|exact H2|exact H3|].
  exact (no_affix_hole_rows no_affix_table "m1" ∅ 7 H1 H2 H3).
Defined.

(** ** In-place sorting of the affix bounds *)

Global Instance tuple_le_total : Total tuple_le.
Proof. intros [a1 a2] [b1 b2]. unfold tuple_le. simpl. lia. Qed.

Global Instance tuple_le_trans : Transitive tuple_le.
Proof. intros [a1 a2] [b1 b2] [c1 c2]. unfold tuple_le. simpl. lia. Qed.

Global Instance tuple_le_antisymm : AntiSymm (=) tuple_le.
Proof.
  intros [a1 a2] [b1 b2]. unfold tuple_le. simpl. intros ??.
  f_equal; lia.
Qed.

Lemma list_sort_Permutation l : list_sort l ≡ₚ l.
Proof. apply merge_sort_Permutation. Qed.

Lemma list_sort_StronglySorted l : StronglySorted tuple_le (list_sort l).
Proof. apply StronglySorted_merge_sort; apply _. Qed.

(** A list sorted as Python sorts pairs is sorted by start coordinate. *)
Lemma list_sort_by_start l : StronglySorted (λ a b, a.1 ≤ b.1) (list_sort l).
Proof.
  induction (list_sort_StronglySorted l) as [|a l' _ IH Hall];
    constructor; [done|].
  eapply Forall_impl; [exact Hall|]. unfold tuple_le. simpl. lia.
Qed.

(** C10: [affix_region_table] changes its [affix_bounds] argument.
    After a call on a table in which every hole has a high-quality row,
    the list stored for every hole of the table that had affixes is the
    same collection of intervals sorted ascending by start coordinate
    (ties by end coordinate), and no other entry is touched. *)
Theorem affix_region_table_sorts_in_place tbl movie ab :
  has_hq_rows tbl →
  ∃ out ab',
    affix_region_table tbl movie ab = Ok (out, ab') ∧
    (∀ h l, h ∈ col_hole <$> tbl → ab !! (movie, h) = Some l →
       ab' !! (movie, h) = Some (list_sort l) ∧
       list_sort l ≡ₚ l ∧
       StronglySorted (λ a b, a.1 ≤ b.1) (list_sort l) ∧
       StronglySorted tuple_le (list_sort l)) ∧
    (∀ k, (∀ h, h ∈ col_hole <$> tbl → k ≠ (movie, h)) → ab' !! k = ab !! k).
Proof.
  intros Hhq.
  destruct (affix_region_table_spec tbl movie ab Hhq)
    as (out & ab' & Hrun & _ & _ & Hsorted & Hframe).
  exists out, ab'. split_and!; [done| |done].
  intros h l Hh Hl. split_and!.
  - by rewrite Hsorted, Hl.
  - apply list_sort_Permutation.
  - apply list_sort_by_start.
  - apply list_sort_StronglySorted.
Qed.

Lemma affix_region_table_sorts_in_place_witness :
  has_hq_rows affix_table ∧
  ∃ out ab',
    affix_region_table affix_table "m1" affix_table_bounds = Ok (out, ab') ∧
    (∀ h l, h ∈ col_hole <$> affix_table →
       affix_table_bounds !! ("m1"%string, h) = Some l →
       ab' !! ("m1"%string, h) = Some (list_sort l) ∧
       list_sort l ≡ₚ l ∧
       StronglySorted (λ a b, a.1 ≤ b.1) (list_sort l) ∧
       StronglySorted tuple_le (list_sort l)) ∧
    (∀ k, (∀ h, h ∈ col_hole <$> affix_table → k ≠ ("m1"%string, h)) →
       ab' !! k = affix_table_bounds !! k).
Proof.
  assert (has_hq_rows affix_table) as H1 by compute_done.
  split; [exact H1|].
  exact (affix_region_table_sorts_in_place affix_table "m1"
           affix_table_bounds H1).
Defined.

(** ** Tiling and alternation of the synthesized rows *)

Lemma intersectRanges_None a b :
  intersectRanges a b = None ↔ Z.min a.2 b.2 ≤ Z.max a.1 b.1.
Proof.
  unfold intersectRanges. case_decide; split; try done; lia.
Qed.

Lemma intersectRanges_None_sym a b :
  intersectRanges a b = None → intersectRanges b a = None.
Proof. rewrite !intersectRanges_None. lia. Qed.

Lemma pairwise_disjoint_Permutation l l' :
  l ≡ₚ l' → pairwise_disjoint l → pairwise_disjoint l'.
Proof.
  induction 1 as [|x l l' Hp IH|x y l|l l' l'' _ IH1 _ IH2]; simpl.
  - done.
  - intros [Hx Hl]. split; [by rewrite <-Hp|auto].
  - intros [[Hyx Hy]%Forall_cons [Hx Hl]]. split_and!; [|done..].
    constructor; [|done]. by apply intersectRanges_None_sym.
  - auto.
Qed.

Lemma sorted_disjoint_follows l :
  StronglySorted tuple_le l → pairwise_disjoint l →
  Forall (λ a, a.1 < a.2) l →
  ∀ prev, Forall (λ a, prev ≤ a.1) l → follows prev l.
Proof.
  induction 1 as [|a l _ IH Hle]; intros Hdis Hne prev Hprev; simpl; [done|].
  destruct Hdis as [Hdis_a Hdis].
  apply Forall_cons in Hne as [Hne_a Hne].
  apply Forall_cons in Hprev as [Hprev_a _].
  split_and!; [done..|].
  apply IH; [done..|].
  rewrite Forall_forall in *. intros b Hb.
  specialize (Hle b Hb). specialize (Hdis_a b Hb). specialize (Hne b Hb).
  apply intersectRanges_None in Hdis_a. unfold tuple_le in Hle. lia.
Qed.

Lemma affix_rows_props h l : ∀ prev,
  follows prev l →
  prev ≤ (affix_rows h prev l).2 ∧
  tiles prev (affix_rows h prev l).2 (affix_rows h prev l).1 ∧
  Forall (λ r, prev ≤ col_start r ∧
               col_start r < (affix_rows h prev l).2 ∧
               col_type r ≠ 2)
    (affix_rows h prev l).1 ∧
  StronglySorted row_lt (affix_rows h prev l).1.
Proof.
  induction l as [|af l IH]; intros prev Hfol; simpl in *.
  - split_and!; [lia|done|constructor|constructor].
  - destruct Hfol as (Hprev & Hne & Hfol). specialize (IH _ Hfol).
    destruct (affix_rows h af.2 l) as [rows last]. simpl in *.
    destruct IH as (Hlast & Htiles & Hall & Hsorted).
    assert (Forall (λ r, af.2 ≤ col_start r) rows) as Hstart.
    { eapply Forall_impl; [exact Hall|]. simpl. lia. }
    refine (conj _ (conj _ (conj _ _))).
    + lia.
    + repeat split; try done; lia.
    + constructor; [simpl; unfold ADAPTER_REGION; lia|].
      constructor; [simpl; unfold INSERT_REGION; lia|].
      eapply Forall_impl; [exact Hall|]. simpl. lia.
    + constructor; [constructor; [done|]|constructor].
      * eapply Forall_impl; [exact Hstart|]. unfold row_lt. simpl. lia.
      * unfold row_lt. simpl. lia.
      * eapply Forall_impl; [exact Hstart|]. unfold row_lt. simpl. lia.
Qed.

Lemma affix_rows_last_le h l L : ∀ prev,
  prev ≤ L → Forall (λ a, a.2 ≤ L) l → (affix_rows h prev l).2 ≤ L.
Proof.
  induction l as [|af l IH]; intros prev Hprev Hall; simpl; [done|].
  apply Forall_cons in Hall as [Haf Hall]. specialize (IH af.2 Haf Hall).
  by destruct (affix_rows h af.2 l).
Qed.

Lemma affix_rows_alternates h l x y s : ∀ prev,
  alternates ((affix_rows h prev l).1 ++ [mkRow h ADAPTER_REGION x y s]) ∧
  ∃ r rest,
    (affix_rows h prev l).1 ++ [mkRow h ADAPTER_REGION x y s] = r :: rest ∧
    col_type r = ADAPTER_REGION.
Proof.
  induction l as [|af l IH]; intros prev; simpl.
  - split; [done|]. eauto.
  - specialize (IH af.2). destruct (affix_rows h af.2 l) as [rows last].
    simpl in *. destruct IH as (Halt & r & rest & Heq & Hr).
    rewrite Heq in *. split; [|eauto]. rewrite Hr.
    unfold ADAPTER_REGION, INSERT_REGION. split_and!; done.
Qed.

Lemma tiles_app lo mid hi rows1 rows2 :
  tiles lo mid rows1 → tiles mid hi rows2 → tiles lo hi (rows1 ++ rows2).
Proof.
  revert lo. induction rows1 as [|r rows1 IH]; intros lo; simpl.
  - by intros ->.
  - intros (? & ? & ?) ?. split_and!; eauto.
Qed.

Global Instance row_le_total : Total row_le.
Proof. intros r1 r2. unfold row_le. apply total, _. Qed.

Global Instance row_le_trans : Transitive row_le.
Proof. intros r1 r2 r3. unfold row_le. apply transitivity. Qed.

Lemma row_lt_distinct rows r1 r2 :
  StronglySorted row_lt rows → r1 ∈ rows → r2 ∈ rows →
  row_le r1 r2 → row_le r2 r1 → r1 = r2.
Proof.
  unfold row_le, tuple_le. simpl.
  induction 1 as [|r rows _ IH Hall]; intros H1 H2 H12 H21.
  - by apply elem_of_nil in H1.
  - rewrite Forall_forall in Hall. unfold row_lt in Hall.
    apply elem_of_cons in H1 as [->|H1], H2 as [->|H2]; [done| | |by auto].
    + specialize (Hall _ H2). lia.
    + specialize (Hall _ H1). lia.
Qed.

Lemma StronglySorted_weaken {A} (R R' : relation A) l :
  (∀ x y, R x y → R' x y) → StronglySorted R l → StronglySorted R' l.
Proof.
  intros HR. induction 1 as [|x l _ IH Hall]; constructor; [done|].
  eapply Forall_impl; [exact Hall|]. auto.
Qed.

(** Rows that are in strictly increasing [(start, end)] order are left
    as they are by sorting. *)
Lemma sort_rows_sorted rows : StronglySorted row_lt rows → sort_rows rows = rows.
Proof.
  intros Hs. unfold sort_rows.
  apply (Sorted_unique_strong row_le).
  - intros r1 r2 H1 H2. rewrite merge_sort_Permutation in H1.
    by apply row_lt_distinct with rows.
  - apply Sorted_merge_sort, _.
  - apply StronglySorted_Sorted.
    eapply StronglySorted_weaken; [|exact Hs].
    unfold row_lt, row_le, tuple_le. simpl. lia.
  - apply merge_sort_Permutation.
Qed.

Lemma filter_Forall_id {A} (P : A → Prop) `{∀ x, Decision (P x)} (l : list A) :
  Forall P l → filter P l = l.
Proof.
  induction 1 as [|x l Hx _ IH]; [done|].
  by rewrite filter_cons_True, IH.
Qed.

Lemma foldl_max_elem_of (x : Z) (l : list Z) : foldl Z.max x l ∈ x :: l.
Proof.
  revert x. induction l as [|y l IH]; intros x; simpl; [left|].
  specialize (IH (Z.max x y)).
  apply elem_of_cons in IH as [->|IH].
  - destruct (Z.max_spec x y) as [[_ ->]|[_ ->]]; [right; left|left].
  - by do 2 right.
Qed.

Lemma read_length_nonneg tbl h L :
  Forall (λ r, 0 ≤ col_end r) tbl → read_length tbl h = Ok L → 0 ≤ L.
Proof.
  intros Hall. unfold read_length, numpy_max.
  destruct (col_end <$> hole_rows_of tbl h) as [|x l] eqn:E; [done|].
  intros [= <-]. pose proof (foldl_max_elem_of x l) as Hin.
  rewrite <-E in Hin. apply list_elem_of_fmap in Hin as (r & -> & Hr).
  apply list_elem_of_filter in Hr as [_ Hr].
  rewrite Forall_forall in Hall. auto.
Qed.

(** The rows of one hole other than the high-quality row are in
    increasing order, tile the read and alternate. *)
Lemma synthesized_rows_tile h affixes L hq :
  0 ≤ L → col_type hq = 2 →
  (∀ l, affixes = Some l → affixes_fit l L) →
  let rows := filter (λ r, col_type r ≠ 2) (synthesized_rows h affixes L hq) in
  StronglySorted row_lt rows ∧ tiles 0 L rows ∧ alternates rows.
Proof.
  intros HL Hhq Hfit. destruct affixes as [l|]; simpl.
  - destruct (Hfit l eq_refl) as [Hall Hdis].
    assert (Forall (λ a, 0 ≤ a.1 ∧ a.1 < a.2 ∧ a.2 ≤ L) (list_sort l)) as Hall'
      by (by rewrite list_sort_Permutation).
    assert (follows 0 (list_sort l)) as Hfol.
    { apply sorted_disjoint_follows.
      - apply list_sort_StronglySorted.
      - eapply pairwise_disjoint_Permutation; [|exact Hdis].
        symmetry. apply list_sort_Permutation.
      - eapply Forall_impl; [exact Hall'|]. simpl. lia.
      - eapply Forall_impl; [exact Hall'|]. simpl. lia. }
    destruct (affix_rows_props h _ _ Hfol) as (Hlast & Htiles & Hrows & Hsorted).
    pose proof (affix_rows_last_le h (list_sort l) L 0 HL) as Hle.
    destruct (affix_rows_alternates h (list_sort l)
                (affix_rows h 0 (list_sort l)).2 L 900 0) as [Halt _].
    rewrite filter_app.
    rewrite (filter_Forall_id (λ r, col_type r ≠ 2)); last first.
    { eapply Forall_impl; [exact Hrows|]. simpl. tauto. }
    rewrite filter_cons_True by (simpl; unfold ADAPTER_REGION; lia).
    rewrite filter_cons_False by (simpl; intros Hn; by apply Hn).
    rewrite filter_nil.
    split_and!.
    + apply StronglySorted_app_2; [|done|repeat constructor].
      intros r1 r2 Hr1 ->%list_elem_of_singleton.
      rewrite Forall_forall in Hrows. specialize (Hrows _ Hr1).
      unfold row_lt. simpl. lia.
    + eapply tiles_app; [exact Htiles|]. simpl. split_and!; [done| |done].
      apply Hle. eapply Forall_impl; [exact Hall'|]. simpl. lia.
    + done.
  - rewrite filter_cons_False by (simpl; intros Hn; by apply Hn).
    rewrite filter_cons_True by (simpl; unfold ADAPTER_REGION; lia).
    rewrite filter_nil. simpl. split_and!; try done. repeat constructor.
Qed.

Lemma synthesized_rows_nonempty h affixes L hq :
  synthesized_rows h affixes L hq ≠ [].
Proof.
  unfold synthesized_rows. destruct affixes as [l|]; [|done].
  by destruct (affix_rows h 0 (list_sort l)).1.
Qed.

(** The synthesized table, hole by hole, under the assumptions on the
    table and on the affix intervals: its holes are the holes of the
    original table, and the rows of each of them tile its read. *)
Lemma affix_region_table_tiles tbl movie ab :
  has_hq_rows tbl →
  Forall (λ r, 0 ≤ col_end r) tbl →
  (∀ h l L, ab !! (movie, h) = Some l → read_length tbl h = Ok L →
            affixes_fit l L) →
  ∃ out ab',
    affix_region_table tbl movie ab = Ok (out, ab') ∧
    (∀ h, h ∈ col_hole <$> out ↔ h ∈ col_hole <$> tbl) ∧
    ∀ h, h ∈ col_hole <$> tbl →
      ∃ L, read_length tbl h = Ok L ∧
           tiles 0 L (sort_rows (non_hq_rows out h)) ∧
           alternates (sort_rows (non_hq_rows out h)).
Proof.
  intros Hhq Hnonneg Hfit.
  destruct (affix_region_table_spec tbl movie ab Hhq)
    as (out & ab' & Hrun & Hother & Hblocks & _).
  exists out, ab'. split; [done|]. split.
  - intros h. split.
    + intros Hh.
      destruct (decide (h ∈ col_hole <$> tbl)) as [|Hn]; [done|].
      apply Hother in Hn. apply list_elem_of_fmap in Hh as (r & -> & Hr).
      assert (r ∈ hole_rows_of out (col_hole r)) as Hr'
        by (by apply list_elem_of_filter).
      rewrite Hn in Hr'. by apply elem_of_nil in Hr'.
    + intros Hin.
      destruct (Hblocks h Hin) as (L & hq & _ & _ & Hrows).
      destruct (hole_rows_of out h) as [|r rows] eqn:Hhole.
      * symmetry in Hrows. by apply synthesized_rows_nonempty in Hrows.
      * assert (r ∈ hole_rows_of out h) as Hr by (rewrite Hhole; left).
        apply list_elem_of_filter in Hr as [Hr_hole Hr].
        apply list_elem_of_fmap. by exists r.
  - intros h Hin.
    destruct (Hblocks h Hin) as (L & hq & HL & Hfirst & Hrows).
    destruct (first_hq_row_Some tbl h Hhq Hin) as (hq' & Hfirst' & _ & Hty & _).
    assert (hq' = hq) as -> by congruence.
    exists L. split; [done|]. unfold non_hq_rows. rewrite Hrows.
    destruct (synthesized_rows_tile h (ab !! (movie, h)) L hq)
      as (Hsorted & Htiles & Halt).
    + by eapply read_length_nonneg.
    + done.
    + intros l Hl. by eapply Hfit.
    + by rewrite sort_rows_sorted.
Qed.

(** C5: let every hole of the table have a high-quality row and
    non-negative end coordinates, and let the affix intervals recorded
    for each hole be non-empty, pairwise disjoint sub-intervals of
    [[0, read_length)].  Then the synthesized table has exactly the
    holes of the original table, and for every one of them the rows
    other than high-quality rows, sorted by their [(start, end)]
    coordinates, tile [[0, read_length)] without gap or overlap, and no
    two consecutive ones have the same region type. *)
Theorem region_table_tiles_and_alternates tbl movie ab :
  has_hq_rows tbl →
  Forall (λ r, 0 ≤ col_end r) tbl →
  (∀ h l L, ab !! (movie, h) = Some l → read_length tbl h = Ok L →
            affixes_fit l L) →
  ∃ out ab',
    affix_region_table tbl movie ab = Ok (out, ab') ∧
    (∀ h, h ∈ col_hole <$> out ↔ h ∈ col_hole <$> tbl) ∧
    ∀ h, h ∈ col_hole <$> tbl →
      ∃ L, read_length tbl h = Ok L ∧
           tiles 0 L (sort_rows (non_hq_rows out h)) ∧
           alternates (sort_rows (non_hq_rows out h)).
Proof. apply affix_region_table_tiles. Qed.

Lemma region_table_tiles_and_alternates_witness :
  has_hq_rows affix_table ∧
  Forall (λ r, 0 ≤ col_end r) affix_table ∧
  (∀ h l L, affix_table_bounds !! ("m1"%string, h) = Some l →
            read_length affix_table h = Ok L → affixes_fit l L) ∧
  ∃ out ab',
    affix_region_table affix_table "m1" affix_table_bounds = Ok (out, ab') ∧
    (∀ h, h ∈ col_hole <$> out ↔ h ∈ col_hole <$> affix_table) ∧
    ∀ h, h ∈ col_hole <$> affix_table →
      ∃ L, read_length affix_table h = Ok L ∧
           tiles 0 L (sort_rows (non_hq_rows out h)) ∧
           alternates (sort_rows (non_hq_rows out h)).
Proof.
  assert (has_hq_rows affix_table) as H1 by compute_done.
  assert (Forall (λ r, 0 ≤ col_end r) affix_table) as H2 by compute_done.
  assert (∀ h l L, affix_table_bounds !! ("m1"%string, h) = Some l →
            read_length affix_table h = Ok L → affixes_fit l L) as H3.
  { unfold affix_table_bounds.
    intros h l L [[= <-] <-]%lookup_singleton_Some [= <-].
    split; [repeat constructor; simpl; lia|repeat constructor]. }
  split_and!; [exact H1|exact H2|exact H3|].
  exact (region_table_tiles_and_alternates affix_table "m1"
           affix_table_bounds H1 H2 H3).
Defined.

(** ** The extent loop of [affix_boundaries] *)

Lemma foldl_dict_set_get {K V} `{EqDecision K} (f : K → V) (ks : list K) :
  ∀ (acc : list (K * V)) k,
    dict_get (foldl (λ acc k, dict_set acc k (f k)) acc ks) k =
    if decide (k ∈ ks) then Some (f k) else dict_get acc k.
Proof.
  induction ks as [|k0 ks IH]; intros acc k; cbn [foldl].
  - rewrite decide_False; [done|]. by intros ?%elem_of_nil.
  - rewrite IH. destruct (decide (k ∈ ks)) as [Hin|Hnin].
    + rewrite decide_True; [done|]. by right.
    + rewrite dict_get_set. destruct (decide (k0 = k)) as [->|Hne].
      * rewrite decide_True; [done|]. left.
      * rewrite decide_False; [done|].
        intros [?|?]%elem_of_cons; congruence.
Qed.

Lemma init_inner_get {V} (inner : list (bounds * V)) sb :
  sb ∈ dict_keys inner → dict_get (init_inner inner) sb = Some None.
Proof.
  intros Hin. unfold init_inner.
  rewrite (foldl_dict_set_get (λ _, None)). by rewrite decide_True.
Qed.

Lemma init_extents_spec {V} (sd : subread_dict V) :
  ∃ ae0, init_extents sd = Ok ae0 ∧
         ∀ key, dict_get ae0 key = init_inner <$> dict_get sd key.
Proof.
  unfold init_extents.
  rewrite (for_each_ext_in _
             (λ ae key, Ok (dict_set ae key
                              (init_inner (default [] (dict_get sd key)))))).
  - rewrite for_each_pure. eexists. split; [done|]. intros key.
    rewrite (foldl_dict_set_get
               (λ key, init_inner (default [] (dict_get sd key)))). simpl.
    destruct (decide (key ∈ dict_keys sd)) as [Hin|Hnin].
    + apply dict_keys_get in Hin as [inner ->]. done.
    + apply dict_get_None_keys in Hnin. by rewrite Hnin.
  - intros ae key Hin. apply dict_keys_get in Hin as [inner Hget].
    unfold dict_getitem. by rewrite Hget.
Qed.

Lemma first_overlap_elem_of r l sb : first_overlap r l = Some sb → sb ∈ l.
Proof.
  induction l as [|sb' l IH]; simpl; [done|].
  destruct (intersectRanges r sb').
  - intros [= ->]. left.
  - intros. right. auto.
Qed.

(** The alignment overlaps the subread it is located at. *)
Lemma first_overlap_overlaps r l sb :
  first_overlap r l = Some sb → is_Some (intersectRanges r sb).
Proof.
  induction l as [|sb' l IH]; simpl; [done|].
  destruct (intersectRanges r sb') eqn:E; [|done].
  intros [= <-]. rewrite E. eauto.
Qed.

Lemma min_rStart_snoc a l b :
  min_rStart a (l ++ [b]) = Z.min (rStart b) (min_rStart a l).
Proof.
  unfold min_rStart. induction l as [|c l IH]; simpl; [lia|].
  rewrite IH. lia.
Qed.

Lemma max_rEnd_snoc a l b :
  max_rEnd a (l ++ [b]) = Z.max (rEnd b) (max_rEnd a l).
Proof.
  unfold max_rEnd. induction l as [|c l IH]; simpl; [lia|].
  rewrite IH. lia.
Qed.

Lemma envelope_snoc l a : envelope (l ++ [a]) = Some (widen (envelope l) a).
Proof.
  destruct l as [|b l]; simpl; [done|].
  by rewrite min_rStart_snoc, max_rEnd_snoc.
Qed.

(** The least start is a lower bound of the starts and is the start of
    one of the alignments; likewise for the greatest end. *)
Lemma min_rStart_le a l b : b ∈ a :: l → min_rStart a l ≤ rStart b.
Proof.
  unfold min_rStart. induction l as [|c l IH]; simpl.
  - intros ->%list_elem_of_singleton. lia.
  - intros [->|[->|Hin]%elem_of_cons]%elem_of_cons.
    + specialize (IH ltac:(left)). lia.
    + lia.
    + specialize (IH ltac:(by right)). lia.
Qed.

Lemma max_rEnd_ge a l b : b ∈ a :: l → rEnd b ≤ max_rEnd a l.
Proof.
  unfold max_rEnd. induction l as [|c l IH]; simpl.
  - intros ->%list_elem_of_singleton. lia.
  - intros [->|[->|Hin]%elem_of_cons]%elem_of_cons.
    + specialize (IH ltac:(left)). lia.
    + lia.
    + specialize (IH ltac:(by right)). lia.
Qed.

Lemma min_rStart_attained a l : ∃ b, b ∈ a :: l ∧ min_rStart a l = rStart b.
Proof.
  unfold min_rStart. induction l as [|c l (b & Hb & IH)]; simpl.
  - exists a. split; [left|done].
  - rewrite IH. destruct (Z.min_spec (rStart c) (rStart b)) as [[_ ->]|[_ ->]].
    + exists c. split; [right; left|done].
    + exists b. split; [|done].
      apply elem_of_cons in Hb as [->|?]; [left|by do 2 right].
Qed.

Lemma max_rEnd_attained a l : ∃ b, b ∈ a :: l ∧ max_rEnd a l = rEnd b.
Proof.
  unfold max_rEnd. induction l as [|c l (b & Hb & IH)]; simpl.
  - exists a. split; [left|done].
  - rewrite IH. destruct (Z.max_spec (rEnd c) (rEnd b)) as [[_ ->]|[_ ->]].
    + exists b. split; [|done].
      apply elem_of_cons in Hb as [->|?]; [left|by do 2 right].
    + exists c. split; [right; left|done].
Qed.

Lemma located_snoc_same {V} (sd : subread_dict V) key sb l a :
  find_subread_entry a sd = (Some key, Some sb) →
  located sd key sb (l ++ [a]) = located sd key sb l ++ [a].
Proof.
  intros Hfind. unfold located. rewrite filter_app. f_equal.
  by rewrite filter_cons_True.
Qed.

Lemma located_snoc_other {V} (sd : subread_dict V) key sb l a :
  find_subread_entry a sd ≠ (Some key, Some sb) →
  located sd key sb (l ++ [a]) = located sd key sb l.
Proof.
  intros Hfind. unfold located. rewrite filter_app.
  rewrite (filter_cons_False _ a) by done. by rewrite filter_nil, app_nil_r.
Qed.

Lemma extent_step_spec {V} (sd : subread_dict V) processed ae a :
  extents_of sd processed ae → ¬ in_gap sd a →
  ∃ ae', extent_step sd ae a = Ok ae' ∧ extents_of sd (processed ++ [a]) ae'.
Proof.
  intros Hinv Hgap. unfold extent_step.
  destruct (find_subread_entry a sd) as [okey osb] eqn:Hfind.
  pose proof Hfind as Hfind'. unfold find_subread_entry in Hfind'.
  destruct (dict_get sd (movieInfo_Name a, HoleNumber a)) as [inner|] eqn:Hget.
  - destruct (first_overlap (rStart a, rEnd a) (dict_keys inner)) as [sb|]
      eqn:Hfo; last first.
    { destruct Hgap. exists inner. by rewrite Hget. }
    injection Hfind' as <- <-.
    destruct (Hinv _ _ Hget) as (inner' & Hae & Hsb).
    unfold dict_getitem, dict_getitem_opt, dict_getitem. rewrite Hae. simpl.
    rewrite (Hsb sb (first_overlap_elem_of _ _ _ Hfo)). simpl.
    eexists. split; [done|]. intros key2 inner2 Hget2.
    destruct (decide ((movieInfo_Name a, HoleNumber a) = key2)) as [<-|Hne].
    + rewrite dict_get_set_eq. eexists. split; [done|].
      assert (inner2 = inner) as -> by congruence.
      intros sb2 Hsb2. rewrite dict_get_set.
      destruct (decide (sb = sb2)) as [<-|Hne].
      * by rewrite (located_snoc_same _ _ _ _ _ Hfind), envelope_snoc.
      * rewrite located_snoc_other; [by apply Hsb|].
        rewrite Hfind. congruence.
    + rewrite dict_get_set_ne by done.
      destruct (Hinv _ _ Hget2) as (inner2' & Hae2 & Hsb2).
      exists inner2'. split; [done|]. intros sb2 Hin2.
      rewrite located_snoc_other; [by apply Hsb2|].
      rewrite Hfind. congruence.
  - injection Hfind' as <- <-. exists ae. split; [done|].
    intros key2 inner2 Hget2.
    destruct (Hinv _ _ Hget2) as (inner2' & Hae2 & Hsb2).
    exists inner2'. split; [done|]. intros sb2 Hin2.
    rewrite located_snoc_other; [by apply Hsb2|].
    rewrite Hfind. congruence.
Qed.

Lemma extent_loop_spec {V} (sd : subread_dict V) l : ∀ processed ae,
  extents_of sd processed ae → Forall (λ a, ¬ in_gap sd a) l →
  ∃ ae', for_each (extent_step sd) ae l = Ok ae' ∧
         extents_of sd (processed ++ l) ae'.
Proof.
  induction l as [|a l IH]; intros processed ae Hinv Hall; simpl.
  - exists ae. by rewrite app_nil_r.
  - apply Forall_cons in Hall as [Ha Hall].
    destruct (extent_step_spec sd processed ae a Hinv Ha) as (ae1 & -> & Hinv1).
    simpl. destruct (IH _ _ Hinv1 Hall) as (ae' & Hloop & Hinv').
    exists ae'. by rewrite <-app_assoc in Hinv'.
Qed.

(** The loop returns only when no alignment falls in a gap. *)
Lemma extent_loop_Ok_no_gap {V} (sd : subread_dict V) l : ∀ ae ae',
  for_each (extent_step sd) ae l = Ok ae' → Forall (λ a, ¬ in_gap sd a) l.
Proof.
  induction l as [|a l IH]; intros ae ae'; simpl; [constructor|].
  intros (ae1 & Hstep & Hloop)%rbind_Ok. constructor; [|by eapply IH].
  intros Hgap. destruct (extent_step_gap sd ae a Hgap) as [e He]. congruence.
Qed.

Lemma init_extents_of {V} (sd : subread_dict V) ae0 :
  init_extents sd = Ok ae0 → extents_of sd [] ae0.
Proof.
  destruct (init_extents_spec sd) as (ae0' & -> & Hget). intros [= <-].
  intros key inner Hkey. exists (init_inner inner).
  rewrite Hget, Hkey. split; [done|]. intros sb Hsb. by apply init_inner_get.
Qed.

(** ** The affix loop of [affix_boundaries] *)

Lemma expected_affixes_eq sb l M :
  expected_affixes sb l M =
  match envelope l with
  | None => []
  | Some e => subread_affixes sb e M
  end.
Proof. unfold expected_affixes, subread_affixes. by destruct (envelope l). Qed.

Lemma foldl_append_affix_ne key l : ∀ ab k,
  k ≠ key → foldl (λ ab x, append_affix ab key x) ab l !! k = ab !! k.
Proof.
  induction l as [|x l IH]; intros ab k Hne; simpl; [done|].
  rewrite IH by done. unfold append_affix. by rewrite lookup_insert_ne.
Qed.

Lemma foldl_append_affix_eq key l : ∀ ab,
  default [] (foldl (λ ab x, append_affix ab key x) ab l !! key) =
  default [] (ab !! key) ++ l.
Proof.
  induction l as [|x l IH]; intros ab; simpl; [by rewrite app_nil_r|].
  rewrite IH. unfold append_affix. rewrite lookup_insert_eq. simpl.
  by rewrite <-app_assoc.
Qed.

Lemma foldl_append_affix_lookup key l ab k :
  default [] (foldl (λ ab x, append_affix ab key x) ab l !! k) =
  default [] (ab !! k) ++ (if decide (k = key) then l else []).
Proof.
  destruct (decide (k = key)) as [->|Hne].
  - apply foldl_append_affix_eq.
  - by rewrite foldl_append_affix_ne, app_nil_r.
Qed.

Lemma collect_subread_spec {V} (sd : subread_dict V) aligns ae M key inner
    ab sb :
  extents_of sd aligns ae → dict_get sd key = Some inner →
  sb ∈ dict_keys inner →
  collect_subread ae M key ab sb =
    Ok (foldl (λ ab x, append_affix ab key x) ab
          (expected_affixes sb (located sd key sb aligns) M)).
Proof.
  intros Hinv Hget Hsb. destruct (Hinv _ _ Hget) as (inner' & Hae & Hext).
  unfold collect_subread, dict_getitem. rewrite Hae. simpl.
  rewrite (Hext sb Hsb). simpl. rewrite expected_affixes_eq.
  by destruct (envelope _).
Qed.

Lemma collect_subreads_spec {V} (sd : subread_dict V) aligns ae M key inner
    sbs :
  extents_of sd aligns ae → dict_get sd key = Some inner →
  (∀ sb, sb ∈ sbs → sb ∈ dict_keys inner) →
  ∀ ab,
    for_each (collect_subread ae M key) ab sbs =
      Ok (foldl (λ ab x, append_affix ab key x) ab
            (flat_map (λ sb, expected_affixes sb (located sd key sb aligns) M)
               sbs)).
Proof.
  intros Hinv Hget. induction sbs as [|sb sbs IH]; intros Hin ab; simpl.
  - done.
  - rewrite (collect_subread_spec sd aligns ae M key inner) by
      (done || apply Hin; left).
    simpl. rewrite IH by (intros; apply Hin; by right).
    by rewrite foldl_app.
Qed.

Lemma collect_keys_spec {V} (sd : subread_dict V) aligns ae M keys :
  extents_of sd aligns ae →
  (∀ key, key ∈ keys → key ∈ dict_keys sd) →
  ∀ ab,
    for_each (λ ab key,
        inner ←r dict_getitem sd key;
        for_each (collect_subread ae M key) ab (dict_keys inner))
      ab keys =
    Ok (foldl (λ ab key,
                 foldl (λ ab x, append_affix ab key x) ab
                   (expected_key_affixes sd aligns M key))
          ab keys).
Proof.
  intros Hinv.
  induction keys as [|key keys IH]; intros Hin ab; cbn [for_each foldl].
  - done.
  - destruct (dict_keys_get sd key) as [inner Hget]; [apply Hin; left|].
    unfold dict_getitem at 1. rewrite Hget. cbn [rbind].
    rewrite (collect_subreads_spec sd aligns ae M key inner) by done.
    cbn [rbind]. rewrite IH by (intros; apply Hin; by right).
    do 3 f_equal. unfold expected_key_affixes. by rewrite Hget.
Qed.

Lemma foldl_keys_lookup (f : subread_key → list bounds) keys :
  NoDup keys → ∀ ab k,
    default [] (foldl (λ ab key, foldl (λ ab x, append_affix ab key x) ab
                                   (f key)) ab keys !! k) =
    default [] (ab !! k) ++ (if decide (k ∈ keys) then f k else []).
Proof.
  induction 1 as [|key keys Hnotin _ IH]; intros ab k; cbn [foldl].
  - rewrite decide_False by (by intros ?%elem_of_nil). by rewrite app_nil_r.
  - rewrite IH, foldl_append_affix_lookup, <-app_assoc. f_equal.
    destruct (decide (k = key)) as [->|Hne].
    + rewrite decide_False by done. rewrite decide_True by left.
      by rewrite app_nil_r.
    + cbn [app]. destruct (decide (k ∈ keys)) as [Hin|Hnin].
      * rewrite decide_True; [done|]. by right.
      * rewrite decide_False; [done|].
        intros [?|?]%elem_of_cons; done.
Qed.

Lemma foldl_keys_lookup_other (f : subread_key → list bounds) keys : ∀ ab k,
  k ∉ keys →
  foldl (λ ab key, foldl (λ ab x, append_affix ab key x) ab (f key)) ab keys
    !! k = ab !! k.
Proof.
  induction keys as [|key keys IH]; intros ab k Hnin; simpl; [done|].
  apply not_elem_of_cons in Hnin as [Hne Hnin].
  rewrite IH by done. by apply foldl_append_affix_ne.
Qed.

(** What [affix_boundaries] computes: it returns exactly when no
    alignment falls in a gap, and then the list recorded for a key is
    the concatenation of the affixes of its subreads, while a key
    outside the index gets no entry. *)
Lemma affix_boundaries_spec {V} (sd : subread_dict V) aligns M :
  subread_dict_wf sd → Forall (λ a, ¬ in_gap sd a) aligns →
  ∃ ab, affix_boundaries sd aligns M = Ok ab ∧
        (∀ key, default [] (ab !! key) =
                if decide (key ∈ dict_keys sd)
                then expected_key_affixes sd aligns M key else []) ∧
        (∀ key, key ∉ dict_keys sd → ab !! key = None).
Proof.
  intros [Hnd _] Hgap. unfold affix_boundaries.
  destruct (init_extents_spec sd) as (ae0 & Hinit & _). rewrite Hinit. simpl.
  destruct (extent_loop_spec sd aligns [] ae0 (init_extents_of sd ae0 Hinit)
              Hgap) as (ae & -> & Hinv).
  simpl in *. unfold collect_affixes.
  rewrite (collect_keys_spec sd aligns ae M) by done.
  eexists. split; [done|]. split.
  - intros key. by rewrite foldl_keys_lookup.
  - intros key Hkey. by rewrite foldl_keys_lookup_other.
Qed.

Lemma affix_boundaries_Ok_no_gap {V} (sd : subread_dict V) aligns M ab :
  affix_boundaries sd aligns M = Ok ab → Forall (λ a, ¬ in_gap sd a) aligns.
Proof.
  unfold affix_boundaries.
  intros (ae0 & _ & (ae & Hloop & _)%rbind_Ok)%rbind_Ok.
  by eapply extent_loop_Ok_no_gap.
Qed.

(** ** The affix extractor *)

(** C4: on an index whose dictionaries have distinct keys,
    [affix_boundaries] returns exactly when no alignment falls in a gap,
    and the list it then records for a key of the index is made,
    subread by subread, of the prefix
    [(subread.start, least read start of the located alignments)] when
    its length is at least [min_affix_size], followed by the suffix
    [(greatest read end of the located alignments, subread.end)] when
    its length is at least [min_affix_size]; a subread at which no
    alignment is located contributes nothing, and a key outside the
    index gets no entry. *)
Theorem affix_extraction {V} (sd : subread_dict V) aligns M :
  subread_dict_wf sd →
  (Forall (λ a, ¬ in_gap sd a) aligns ↔
   ∃ ab, affix_boundaries sd aligns M = Ok ab) ∧
  ∀ ab, affix_boundaries sd aligns M = Ok ab →
    (∀ key inner, dict_get sd key = Some inner →
       default [] (ab !! key) =
       flat_map (λ sb,
           match located sd key sb aligns with
           | [] => []
           | a :: l =>
               (if decide (M ≤ min_rStart a l - sb.1)
                then [(sb.1, min_rStart a l)] else [])
               ++
               (if decide (M ≤ sb.2 - max_rEnd a l)
                then [(max_rEnd a l, sb.2)] else [])
           end)
         (dict_keys inner)) ∧
    (∀ key, dict_get sd key = None → ab !! key = None).
Proof.
  intros Hwf. split.
  - split.
    + intros Hgap.
      destruct (affix_boundaries_spec sd aligns M Hwf Hgap) as (ab & ? & _).
      by exists ab.
    + intros [ab Hrun]. by eapply affix_boundaries_Ok_no_gap.
  - intros ab Hrun.
    pose proof (affix_boundaries_Ok_no_gap sd aligns M ab Hrun) as Hgap.
    destruct (affix_boundaries_spec sd aligns M Hwf Hgap)
      as (ab' & Hrun' & Hin & Hout).
    assert (ab' = ab) as -> by congruence. split.
    + intros key inner Hget. rewrite Hin.
      rewrite decide_True by (by eapply dict_get_Some_keys).
      unfold expected_key_affixes. rewrite Hget. simpl.
      apply flat_map_ext. intros sb. unfold expected_affixes.
      by destruct (located sd key sb aligns).
    + intros key Hget. apply Hout. by apply dict_get_None_keys.
Qed.

Lemma affix_extraction_witness :
  subread_dict_wf one_subread_index ∧
  (Forall (λ a, ¬ in_gap one_subread_index a) [primary_high] ↔
   ∃ ab, affix_boundaries one_subread_index [primary_high] 50 = Ok ab) ∧
  ∀ ab, affix_boundaries one_subread_index [primary_high] 50 = Ok ab →
    (∀ key inner, dict_get one_subread_index key = Some inner →
       default [] (ab !! key) =
       flat_map (λ sb,
           match located one_subread_index key sb [primary_high] with
           | [] => []
           | a :: l =>
               (if decide (50 ≤ min_rStart a l - sb.1)
                then [(sb.1, min_rStart a l)] else [])
               ++
               (if decide (50 ≤ sb.2 - max_rEnd a l)
                then [(max_rEnd a l, sb.2)] else [])
           end)
         (dict_keys inner)) ∧
    (∀ key, dict_get one_subread_index key = None → ab !! key = None).
Proof.
  assert (subread_dict_wf one_subread_index) as H1 by compute_done.
  split; [exact H1|].
  exact (affix_extraction one_subread_index [primary_high] 50 H1).
Defined.

(** The example of the specification: the subread [(0, 1000)] with one
    alignment over [(100, 900)] and a minimum affix size of 50 yields
    the prefix [(0, 100)] and the suffix [(900, 1000)]. *)
Example affix_boundaries_example :
  affix_boundaries one_subread_index [primary_high] 50
    = Ok one_subread_affix_bounds.
Proof. vm_compute. reflexivity. Qed.

(** ** No overlap between an affix and the alignments of its subread *)

Lemma located_elem_of {V} (sd : subread_dict V) key sb aligns a :
  a ∈ aligns → located_at sd key sb a → a ∈ located sd key sb aligns.
Proof. intros. by apply list_elem_of_filter. Qed.

Lemma expected_affixes_disjoint sb l M x a :
  x ∈ expected_affixes sb l M → a ∈ l →
  intersectRanges x (rStart a, rEnd a) = None.
Proof.
  unfold expected_affixes. destruct l as [|b l]; simpl.
  { by intros ?%elem_of_nil. }
  intros Hx Ha. pose proof (min_rStart_le b l a Ha).
  pose proof (max_rEnd_ge b l a Ha).
  apply intersectRanges_None.
  apply elem_of_app in Hx as [Hx|Hx]; case_decide;
    try (by apply elem_of_nil in Hx);
    apply list_elem_of_singleton in Hx as ->; simpl; lia.
Qed.

Lemma elem_of_flat_map {A B} (f : A → list B) (l : list A) (x : B) :
  x ∈ flat_map f l ↔ ∃ y, y ∈ l ∧ x ∈ f y.
Proof.
  rewrite list_elem_of_In, in_flat_map. split.
  - intros (y & ? & ?). exists y. by rewrite !list_elem_of_In.
  - intros (y & ? & ?). exists y. by rewrite <-!list_elem_of_In.
Qed.

Lemma expected_key_affixes_elem_of {V} (sd : subread_dict V) aligns M key x :
  x ∈ expected_key_affixes sd aligns M key →
  ∃ inner sb, dict_get sd key = Some inner ∧ sb ∈ dict_keys inner ∧
              x ∈ expected_affixes sb (located sd key sb aligns) M.
Proof.
  unfold expected_key_affixes.
  destruct (dict_get sd key) as [inner|]; simpl.
  - intros (sb & Hsb & Hx)%elem_of_flat_map. by exists inner, sb.
  - by intros ?%elem_of_nil.
Qed.

(** C9: every affix interval that [affix_boundaries] retains is one of
    the affixes of some subread of its key, and for every subread,
    every affix retained for it is disjoint, in the half-open overlap
    sense, from the read interval of every alignment located at that
    subread. *)
Theorem affix_no_self_overlap {V} (sd : subread_dict V) aligns M ab :
  subread_dict_wf sd → affix_boundaries sd aligns M = Ok ab →
  (∀ key x, x ∈ default [] (ab !! key) →
     ∃ inner sb, dict_get sd key = Some inner ∧ sb ∈ dict_keys inner ∧
       x ∈ expected_affixes sb (located sd key sb aligns) M ∧
       ∀ a, a ∈ aligns → located_at sd key sb a →
            intersectRanges x (rStart a, rEnd a) = None) ∧
  (∀ key inner sb x a,
     dict_get sd key = Some inner → sb ∈ dict_keys inner →
     x ∈ expected_affixes sb (located sd key sb aligns) M →
     a ∈ aligns → located_at sd key sb a →
     x ∈ default [] (ab !! key) ∧
     intersectRanges x (rStart a, rEnd a) = None).
Proof.
  intros Hwf Hrun.
  pose proof (affix_boundaries_Ok_no_gap sd aligns M ab Hrun) as Hgap.
  destruct (affix_boundaries_spec sd aligns M Hwf Hgap) as (ab' & Hrun' & Hin & _).
  assert (ab' = ab) as -> by congruence.
  split.
  - intros key x Hx. rewrite Hin in Hx. case_decide as Hkey.
    + apply expected_key_affixes_elem_of in Hx as (inner & sb & ? & ? & Hx).
      exists inner, sb. split_and!; [done..|].
      intros a Ha Hloc. eapply expected_affixes_disjoint; [done|].
      by apply located_elem_of.
    + by apply elem_of_nil in Hx.
  - intros key inner sb x a Hget Hsb Hx Ha Hloc. split.
    + rewrite Hin.
      rewrite decide_True by (by eapply dict_get_Some_keys).
      unfold expected_key_affixes. rewrite Hget. simpl.
      apply elem_of_flat_map. by exists sb.
    + eapply expected_affixes_disjoint; [done|]. by apply located_elem_of.
Qed.

Lemma affix_no_self_overlap_witness :
  subread_dict_wf one_subread_index ∧
  affix_boundaries one_subread_index [primary_high] 50
    = Ok one_subread_affix_bounds ∧
  (∀ key x, x ∈ default [] (one_subread_affix_bounds !! key) →
     ∃ inner sb, dict_get one_subread_index key = Some inner ∧
       sb ∈ dict_keys inner ∧
       x ∈ expected_affixes sb
             (located one_subread_index key sb [primary_high]) 50 ∧
       ∀ a, a ∈ [primary_high] → located_at one_subread_index key sb a →
            intersectRanges x (rStart a, rEnd a) = None) ∧
  (∀ key inner sb x a,
     dict_get one_subread_index key = Some inner → sb ∈ dict_keys inner →
     x ∈ expected_affixes sb
           (located one_subread_index key sb [primary_high]) 50 →
     a ∈ [primary_high] → located_at one_subread_index key sb a →
     x ∈ default [] (one_subread_affix_bounds !! key) ∧
     intersectRanges x (rStart a, rEnd a) = None).
Proof.
  assert (subread_dict_wf one_subread_index) as H1 by compute_done.
  assert (affix_boundaries one_subread_index [primary_high] 50
            = Ok one_subread_affix_bounds) as H2 by (vm_compute; reflexivity).
  split_and!; [exact H1|exact H2|..];
    apply (affix_no_self_overlap one_subread_index [primary_high] 50
             one_subread_affix_bounds H1 H2).
Defined.

(** ** The size threshold *)

Lemma affix_count_insert (ab : gmap subread_key (list bounds)) k l :
  ab !! k = None → affix_count (<[k := l]> ab) = (length l + affix_count ab)%nat.
Proof.
  intros Hk. unfold affix_count.
  rewrite map_fold_insert_L; [done| |done]. intros. lia.
Qed.

Lemma affix_count_delete (ab : gmap subread_key (list bounds)) k l :
  ab !! k = Some l → affix_count ab = (length l + affix_count (delete k ab))%nat.
Proof.
  intros Hk. unfold affix_count.
  rewrite (map_fold_delete_L _ _ k l ab); [done| |done]. intros. lia.
Qed.

(** A dictionary whose lists are pointwise no longer holds no more
    affixes. *)
Lemma affix_count_mono (ab' ab : gmap subread_key (list bounds)) :
  (∀ k, (length (default [] (ab' !! k)) ≤ length (default [] (ab !! k)))%nat) →
  (affix_count ab' ≤ affix_count ab)%nat.
Proof.
  revert ab. induction ab' as [|k l ab' Hk IH] using map_ind; intros ab Hle.
  - unfold affix_count at 1. rewrite map_fold_empty. lia.
  - rewrite affix_count_insert by done.
    pose proof (Hle k) as Hlek. rewrite lookup_insert_eq in Hlek. simpl in Hlek.
    destruct (ab !! k) as [l0|] eqn:Hab.
    + rewrite (affix_count_delete ab k l0) by done. simpl in Hlek.
      specialize (IH (delete k ab)).
      assert (affix_count ab' ≤ affix_count (delete k ab))%nat; [|lia].
      apply IH. intros k'. destruct (decide (k' = k)) as [->|Hne].
      * rewrite Hk. simpl. lia.
      * specialize (Hle k'). rewrite lookup_insert_ne in Hle by done.
        by rewrite lookup_delete_ne.
    + simpl in Hlek.
      assert (affix_count ab' ≤ affix_count ab)%nat; [|lia].
      apply IH. intros k'. destruct (decide (k' = k)) as [->|Hne].
      * rewrite Hk. simpl. lia.
      * specialize (Hle k'). by rewrite lookup_insert_ne in Hle.
Qed.

Lemma expected_affixes_length_ge sb l M x :
  x ∈ expected_affixes sb l M → M ≤ x.2 - x.1.
Proof.
  unfold expected_affixes. destruct (envelope l) as [env|];
    [|by intros ?%elem_of_nil].
  intros [Hx|Hx]%elem_of_app; case_decide;
    try (by apply elem_of_nil in Hx);
    by apply list_elem_of_singleton in Hx as ->.
Qed.

Lemma expected_affixes_count_mono sb l M M' :
  M ≤ M' →
  (length (expected_affixes sb l M') ≤ length (expected_affixes sb l M))%nat.
Proof.
  intros HM. unfold expected_affixes. destruct (envelope l) as [env|]; [|done].
  rewrite !length_app. repeat case_decide; simpl; lia.
Qed.

Lemma flat_map_length_mono {A B} (f g : A → list B) (l : list A) :
  (∀ x, (length (f x) ≤ length (g x))%nat) →
  (length (flat_map f l) ≤ length (flat_map g l))%nat.
Proof.
  intros Hfg. induction l as [|x l IH]; simpl; [done|].
  rewrite !length_app. specialize (Hfg x). lia.
Qed.

(** C8: for a fixed index and alignment stream on which
    [affix_boundaries] returns with [min_affix_size = M], every
    retained affix interval has length at least [M], and for every
    [M' ≥ M] the call with [M'] returns too and retains no more affix
    intervals in total. *)
Theorem affix_size_threshold {V} (sd : subread_dict V) aligns M ab :
  subread_dict_wf sd → affix_boundaries sd aligns M = Ok ab →
  (∀ key l x, ab !! key = Some l → x ∈ l → M ≤ x.2 - x.1) ∧
  (∀ M', M ≤ M' →
     ∃ ab', affix_boundaries sd aligns M' = Ok ab' ∧
            (affix_count ab' ≤ affix_count ab)%nat).
Proof.
  intros Hwf Hrun.
  pose proof (affix_boundaries_Ok_no_gap sd aligns M ab Hrun) as Hgap.
  destruct (affix_boundaries_spec sd aligns M Hwf Hgap) as (ab0 & Hrun0 & Hin & _).
  assert (ab0 = ab) as -> by congruence.
  split.
  - intros key l x Hl Hx. specialize (Hin key). rewrite Hl in Hin. simpl in Hin.
    rewrite Hin in Hx. case_decide; [|by apply elem_of_nil in Hx].
    apply expected_key_affixes_elem_of in Hx as (inner & sb & _ & _ & Hx).
    by eapply expected_affixes_length_ge.
  - intros M' HM.
    destruct (affix_boundaries_spec sd aligns M' Hwf Hgap)
      as (ab' & Hrun' & Hin' & _).
    exists ab'. split; [done|]. apply affix_count_mono. intros k.
    rewrite Hin, Hin'. case_decide; [|done].
    apply flat_map_length_mono. intros sb.
    by apply expected_affixes_count_mono.
Qed.

Lemma affix_size_threshold_witness :
  subread_dict_wf one_subread_index ∧
  affix_boundaries one_subread_index [primary_high] 50
    = Ok one_subread_affix_bounds ∧
  (∀ key l x, one_subread_affix_bounds !! key = Some l → x ∈ l →
              50 ≤ x.2 - x.1) ∧
  (∀ M', 50 ≤ M' →
     ∃ ab', affix_boundaries one_subread_index [primary_high] M' = Ok ab' ∧
            (affix_count ab' ≤ affix_count one_subread_affix_bounds)%nat).
Proof.
  assert (subread_dict_wf one_subread_index) as H1 by compute_done.
  assert (affix_boundaries one_subread_index [primary_high] 50
            = Ok one_subread_affix_bounds) as H2 by (vm_compute; reflexivity).
  split_and!; [exact H1|exact H2|..];
    apply (affix_size_threshold one_subread_index [primary_high] 50
             one_subread_affix_bounds H1 H2).
Defined.

(** ** The report *)

(** On a dictionary with distinct keys the two nested loops visit the
    stored values in order. *)
Lemma for_each_inner_slots {V S} (d : subread_dict V) (body : S → V → result S)
    key inner :
  dict_get d key = Some inner → NoDup (dict_keys inner) →
  ∀ l s, (∀ x, x ∈ l → x ∈ inner) →
    for_each (λ s subread_bounds,
        inner ←r dict_getitem d key;
        subread_alns ←r dict_getitem inner subread_bounds;
        body s subread_alns)
      s l.*1 =
    for_each body s l.*2.
Proof.
  intros Hget Hnd. induction l as [|[sb v] l IH]; intros s Hin; [done|].
  cbn [fmap list_fmap for_each fst snd].
  unfold dict_getitem at 1 2. rewrite Hget. cbn [rbind].
  rewrite (dict_get_elem_NoDup inner sb v Hnd) by (apply Hin; left).
  cbn [rbind]. destruct (body s v); cbn [rbind]; [|done].
  apply IH. intros. apply Hin. by right.
Qed.

Lemma for_each_outer_slots {V S} (d : subread_dict V)
    (body : S → V → result S) :
  subread_dict_wf d →
  ∀ l s, (∀ x, x ∈ l → x ∈ d) →
    for_each (λ s key,
        inner ←r dict_getitem d key;
        for_each (λ s subread_bounds,
            inner ←r dict_getitem d key;
            subread_alns ←r dict_getitem inner subread_bounds;
            body s subread_alns)
          s (dict_keys inner))
      s l.*1 =
    for_each body s (flat_map (λ kv, kv.2.*2) l).
Proof.
  intros [Hnd Hinner].
  induction l as [|[key inner] l IH]; intros s Hsub; [done|].
  cbn [fmap list_fmap for_each fst snd flat_map].
  assert ((key, inner) ∈ d) as Hin by (apply Hsub; left).
  unfold dict_getitem at 1.
  rewrite (dict_get_elem_NoDup d key inner Hnd Hin). cbn [rbind].
  rewrite Forall_forall in Hinner. unfold dict_keys at 1.
  rewrite (for_each_inner_slots d body key inner
             (dict_get_elem_NoDup d key inner Hnd Hin) (Hinner _ Hin))
    by done.
  rewrite for_each_app.
  destruct (for_each body s inner.*2); cbn [rbind]; [|done].
  apply IH. intros. apply Hsub. by right.
Qed.

Lemma for_each_subread_slots {V S} (d : subread_dict V)
    (body : S → V → result S) (s : S) :
  subread_dict_wf d →
  for_each_subread d body s = for_each body s (subread_slots d).
Proof.
  intros Hwf. unfold for_each_subread, subread_slots.
  by apply (for_each_outer_slots d body Hwf d s).
Qed.

Lemma count_loop_spec slots :
  Forall (λ slot, slot = None ∨ holds_primary slot) slots →
  ∀ n : nat,
    for_each (λ counter (subread_alns : option role_map),
        match subread_alns with
        | None => Ok counter
        | Some _ => Ok (S counter)
        end) n slots =
    Ok (n + length (filter holds_primary slots))%nat.
Proof.
  induction 1 as [|slot slots Hslot _ IH]; intros n; simpl.
  - f_equal. lia.
  - destruct Hslot as [->|Hp].
    + simpl. rewrite IH. by rewrite filter_cons_False by (by intros []).
    + destruct slot as [roles|]; [|done]. simpl. rewrite IH.
      rewrite filter_cons_True by done. simpl. f_equal. lia.
Qed.

Lemma output_line_Ok roles :
  is_Some (dict_get roles "primary"%string) → ∃ line, output_line roles = Ok line.
Proof.
  intros [primary Hprimary]. unfold output_line, dict_getitem.
  rewrite Hprimary. simpl. eauto.
Qed.

Lemma write_loop_spec slots :
  Forall (λ slot, slot = None ∨ holds_primary slot) slots →
  ∀ file, ∃ rows,
    for_each (λ file (subread_alns : option role_map),
        match subread_alns with
        | None => Ok file
        | Some roles =>
            line ←r output_line roles;
            Ok (file ++ [DataRow line])
        end) file slots =
    Ok (file ++ (DataRow <$> rows)) ∧
    length rows = length (filter holds_primary slots).
Proof.
  induction 1 as [|slot slots Hslot _ IH]; intros file; cbn [for_each].
  - exists []. by rewrite app_nil_r.
  - destruct Hslot as [->|Hp].
    + cbn [rbind]. destruct (IH file) as (rows & -> & Hlen). exists rows.
      by rewrite filter_cons_False by (by intros []).
    + destruct slot as [roles|]; [|done].
      destruct (output_line_Ok roles Hp) as [line Hline].
      rewrite Hline. cbn [rbind].
      destruct (IH (file ++ [DataRow line])) as (rows & -> & Hlen).
      exists (line :: rows). split; [by rewrite <-app_assoc|].
      rewrite filter_cons_True by done. simpl. by rewrite Hlen.
Qed.

Lemma data_rows_app file rows :
  data_rows (file ++ (DataRow <$> rows)) = data_rows file ++ rows.
Proof.
  unfold data_rows. rewrite omap_app. f_equal.
  induction rows as [|row rows IH]; [done|].
  cbn [fmap list_fmap omap list_omap]. f_equal. exact IH.
Qed.

(** What [write_split_reads_file] writes on a dictionary with distinct
    keys whose populated subreads hold a primary role. *)
Lemma write_split_reads_file_spec (d : all_subread_dict) :
  subread_dict_wf d → populated_hold_primary d →
  ∃ rows,
    write_split_reads_file d =
      Ok ([VersionLine; TotalSubreadsLine (subreads_with_primary d);
           ColumnsLine] ++ (DataRow <$> rows)) ∧
    length rows = subreads_with_primary d.
Proof.
  intros Hwf Hpop. unfold write_split_reads_file, count_subreads.
  rewrite !for_each_subread_slots by done.
  rewrite (count_loop_spec _ Hpop). simpl.
  rewrite for_each_subread_slots by done.
  destruct (write_loop_spec _ Hpop
              [VersionLine;
               TotalSubreadsLine (length (filter holds_primary (subread_slots d)));
               ColumnsLine]) as (rows & -> & Hlen).
  by exists rows.
Qed.

(** C7: on a dictionary with distinct keys in which every populated
    subread holds a primary role, as the aggregation passes leave it,
    [write_split_reads_file] writes one data row per subread that holds
    a primary role (a subread that holds [None] gets no row), and the
    count in the header is that same number. *)
Theorem report_completeness (d : all_subread_dict) :
  subread_dict_wf d → populated_hold_primary d →
  ∃ file,
    write_split_reads_file d = Ok file ∧
    length (data_rows file) = subreads_with_primary d ∧
    header_total file = Some (subreads_with_primary d).
Proof.
  intros Hwf Hpop.
  destruct (write_split_reads_file_spec d Hwf Hpop) as (rows & Hfile & Hlen).
  eexists. split; [exact Hfile|]. split.
  - by rewrite data_rows_app.
  - done.
Qed.

Lemma report_completeness_witness :
  subread_dict_wf mixed_dict ∧ populated_hold_primary mixed_dict ∧
  ∃ file,
    write_split_reads_file mixed_dict = Ok file ∧
    length (data_rows file) = subreads_with_primary mixed_dict ∧
    header_total file = Some (subreads_with_primary mixed_dict).
Proof.
  assert (subread_dict_wf mixed_dict) as H1 by compute_done.
  assert (populated_hold_primary mixed_dict) as H2 by compute_done.
  split_and!; [exact H1|exact H2|].
  exact (report_completeness mixed_dict H1 H2).
Defined.

(** ** What the aggregation passes leave behind *)

Ltac inv_rbind :=
  repeat match goal with
         | H : rbind _ _ = Ok _ |- _ =>
             let x := fresh "x" in
             let Hx := fresh "Hx" in
             apply rbind_Ok in H as (x & Hx & H)
         end.

Lemma for_each_invariant {A S} (I : S → Prop) (body : S → A → result S) l :
  (∀ s x s', I s → body s x = Ok s' → I s') →
  ∀ s s', I s → for_each body s l = Ok s' → I s'.
Proof.
  intros Hstep. induction l as [|x l IH]; intros s s' Hs; simpl.
  - by intros [= <-].
  - intros (s1 & Hbody & Hloop)%rbind_Ok. eauto.
Qed.

Lemma Forall_dict_set {K V} `{EqDecision K} (P : K * V → Prop)
    (d : list (K * V)) k v :
  Forall P d → P (k, v) → (∀ k' v', k' = k → P (k', v') → P (k', v)) →
  Forall P (dict_set d k v).
Proof.
  intros Hall Hkv Hsame. induction Hall as [|[k' v'] d Hx Hd IH]; simpl.
  - by constructor.
  - destruct (decide (k' = k)); constructor; eauto.
Qed.

Lemma subread_dict_wf_set {V} (d : subread_dict V) key inner sb v :
  subread_dict_wf d → dict_get d key = Some inner →
  subread_dict_wf (dict_set d key (dict_set inner sb v)).
Proof.
  intros [Hnd Hinner] Hget. split; [by apply dict_set_NoDup|].
  assert (NoDup (dict_keys (dict_set inner sb v))) as Hnew.
  { apply dict_set_NoDup. rewrite Forall_forall in Hinner.
    apply (Hinner (key, inner)). by apply dict_get_Some_elem. }
  apply Forall_dict_set; [done..|]. intros k' v' -> _. done.
Qed.

Lemma populated_hold_primary_at_set d key inner sb roles :
  populated_hold_primary_at d → dict_get d key = Some inner →
  is_Some (dict_get roles "primary"%string) →
  populated_hold_primary_at (dict_set d key (dict_set inner sb (Some roles))).
Proof.
  intros Hpop Hget Hroles key2 inner2 sb2 roles2.
  rewrite dict_get_set. destruct (decide (key = key2)) as [<-|Hne].
  - intros [= <-]. rewrite dict_get_set.
    destruct (decide (sb = sb2)) as [<-|Hne].
    + by intros [= <-].
    + by apply (Hpop key inner).
  - apply Hpop.
Qed.

Lemma primary_step_invariant d loc a d' loc' :
  subread_dict_wf d ∧ populated_hold_primary_at d →
  primary_step (d, loc) a = Ok (d', loc') →
  subread_dict_wf d' ∧ populated_hold_primary_at d'.
Proof.
  intros [Hwf Hpop]. unfold primary_step.
  destruct (find_subread_entry a d) as [[key|] osb]; [|by intros [= <- <-]].
  intros Hstep. inv_rbind.
  apply dict_getitem_Ok in Hx.
  destruct x3; [|by simplify_eq].
  destruct osb as [sb|]; [|done]. simplify_eq. split.
  - by apply subread_dict_wf_set.
  - apply populated_hold_primary_at_set; [done..|]. simpl. eauto.
Qed.

Lemma affix_step_invariant d loc a d' loc' :
  subread_dict_wf d ∧ populated_hold_primary_at d →
  affix_step (d, loc) a = Ok (d', loc') →
  subread_dict_wf d' ∧ populated_hold_primary_at d'.
Proof.
  intros [Hwf Hpop]. unfold affix_step.
  destruct (find_subread_entry a d) as [[key|] osb]; [|by intros [= <- <-]].
  intros Hstep. inv_rbind.
  apply dict_getitem_Ok in Hx.
  destruct x0 as [roles|]; [|by simplify_eq].
  destruct osb as [sb|]; [|done]. inv_rbind.
  apply dict_getitem_Ok in Hx1.
  assert (∀ affix_type, affix_type ≠ "primary"%string →
            is_Some (dict_get (dict_set roles affix_type
                                 (alignment_to_output_dict a sb))
                       "primary"%string)) as Hkeep.
  { intros affix_type Hne. rewrite dict_get_set_ne by done. eauto. }
  repeat case_match; simplify_eq; try done;
    (split; [by apply subread_dict_wf_set|
             apply populated_hold_primary_at_set; [done..|by apply Hkeep]]).
Qed.

Lemma populated_hold_primary_iff d :
  subread_dict_wf d → populated_hold_primary_at d ↔ populated_hold_primary d.
Proof.
  intros [Hnd Hinner]. unfold populated_hold_primary, subread_slots.
  rewrite Forall_forall. split.
  - intros Hpop slot ([key inner] & Hkv & Hslot)%elem_of_flat_map.
    simpl in Hslot. apply list_elem_of_fmap in Hslot as ([sb v] & -> & Hv).
    simpl. destruct v as [roles|]; [right|by left]. simpl.
    apply (Hpop key inner sb roles).
    + by apply dict_get_elem_NoDup.
    + apply dict_get_elem_NoDup; [|done].
      rewrite Forall_forall in Hinner. by apply (Hinner (key, inner)).
  - intros Hall key inner sb roles Hget Hsb.
    destruct (Hall (Some roles)) as [?|Hp]; [|done|done].
    apply elem_of_flat_map. exists (key, inner). split.
    + by apply dict_get_Some_elem.
    + simpl. apply list_elem_of_fmap. exists (sb, Some roles).
      split; [done|]. by apply dict_get_Some_elem.
Qed.

(** From a dictionary of subreads with distinct keys in which the
    populated subreads hold a primary role, in particular one whose
    subreads all hold [None], the two passes produce a dictionary with
    the same two properties. *)
Lemma aggregate_invariant d0 primary affix d :
  subread_dict_wf d0 → populated_hold_primary d0 →
  aggregate d0 primary affix = Ok d →
  subread_dict_wf d ∧ populated_hold_primary d.
Proof.
  intros Hwf Hpop. unfold aggregate. intros Hrun. inv_rbind.
  injection Hrun as <-.
  set (I := λ st : all_subread_dict * locals,
              subread_dict_wf st.1 ∧ populated_hold_primary_at st.1).
  assert (I (d0, no_locals)) as H0.
  { split; [done|]. by apply populated_hold_primary_iff. }
  assert (I x) as H1.
  { eapply (for_each_invariant I primary_step); [|exact H0|exact Hx].
    intros [d1 l1] a [d2 l2]. apply primary_step_invariant. }
  assert (I x0) as [H2 H2'].
  { eapply (for_each_invariant I affix_step); [|exact H1|exact Hx0].
    intros [d1 l1] a [d2 l2]. apply affix_step_invariant. }
  split; [done|]. by apply populated_hold_primary_iff.
Qed.

(** ** The primary pass overwrites *)

Lemma find_subread_entry_located {V} (d : subread_dict V) a key sb :
  find_subread_entry a d = (Some key, Some sb) →
  ∃ inner, dict_get d key = Some inner ∧ sb ∈ dict_keys inner ∧
           is_Some (intersectRanges (rStart a, rEnd a) sb).
Proof.
  unfold find_subread_entry.
  destruct (dict_get d (movieInfo_Name a, HoleNumber a)) as [inner|] eqn:Hget;
    [|done].
  intros [= <- Hfo]. exists inner. split_and!; [done|..].
  - by eapply first_overlap_elem_of.
  - by eapply first_overlap_overlaps.
Qed.

(** Once [existing_aligment] is bound, and already on a subread that
    holds [None], a located primary alignment replaces the role
    dictionary of its subread whatever its map quality, and leaves
    [existing_aligment] bound to [None]. *)
Lemma primary_step_overwrites (d : all_subread_dict) loc a key sb
    (inner : list (bounds * option role_map)) :
  find_subread_entry a d = (Some key, Some sb) →
  dict_get d key = Some inner →
  existing_aligment loc = Some None ∨ dict_get inner sb = Some None →
  (∀ roles, dict_get inner sb = Some (Some roles) →
            is_Some (dict_get roles "primary"%string)) →
  ∃ loc',
    primary_step (d, loc) a =
      Ok (dict_set d key
            (dict_set inner sb
               (Some [("primary"%string, alignment_to_output_dict a sb)])),
          loc') ∧
    existing_aligment loc' = Some None.
Proof.
  intros Hfind Hget Htypo Hroles.
  destruct (find_subread_entry_located d a key sb Hfind)
    as (inner' & Hget' & Hsb & _).
  assert (inner' = inner) as -> by congruence.
  apply dict_keys_get in Hsb as [slot Hslot].
  destruct slot as [roles|].
  - destruct Htypo as [Htypo|?]; [|congruence].
    destruct (Hroles roles Hslot) as [p Hp].
    exists (mkLocals (Some (Some p)) (existing_aligment loc)).
    split; [|done].
    unfold primary_step. rewrite Hfind. unfold dict_getitem_opt, dict_getitem.
    rewrite Hget. cbn [rbind]. rewrite Hslot. cbn [rbind]. rewrite Hp.
    cbn [rbind existing_aligment]. rewrite Htypo. done.
  - exists (mkLocals (existing_alignment loc) (Some None)).
    split; [|done].
    unfold primary_step. rewrite Hfind. unfold dict_getitem_opt, dict_getitem.
    rewrite Hget. cbn [rbind]. rewrite Hslot. done.
Qed.

(** ** The uniqueness filter raises whenever it removes *)

Lemma dict_pop_length {K V} `{EqDecision K} (d : list (K * V)) k :
  k ∈ dict_keys d → length d = S (length (dict_pop d k)).
Proof.
  induction d as [|[k' v'] d IH]; simpl.
  - by intros ?%elem_of_nil.
  - intros Hin. destruct (decide (k' = k)) as [->|Hne]; [done|].
    simpl. f_equal. apply IH.
    apply elem_of_cons in Hin as [?|?]; [congruence|done].
Qed.

Lemma nonunique_loop_changed used keys roles :
  length roles ≠ used → nonunique_loop used keys roles = Raise RuntimeError.
Proof. intros Hne. destruct keys; simpl; by rewrite decide_False. Qed.

(** A role dictionary that holds a prefix or suffix role of map quality
    below 254: the loop pops the first such role it visits and the next
    step of the iteration raises. *)
Lemma remove_nonunique_roles_low roles affix_type od :
  affix_type = "prefix"%string ∨ affix_type = "suffix"%string →
  dict_get roles affix_type = Some od → map_qv od < 254 →
  remove_nonunique_roles (Some roles) = Raise RuntimeError.
Proof.
  intros Htype Hget Hlow. unfold remove_nonunique_roles.
  assert (affix_type ∈ dict_keys roles) as Hin
    by (by eapply dict_get_Some_keys).
  assert (∀ k, k ∈ dict_keys roles → k ∈ dict_keys roles) as Hsub by done.
  revert Hin Hsub. generalize (dict_keys roles) at 1 2 4 as keys.
  induction keys as [|k keys IH]; intros Hin Hsub.
  { by apply elem_of_nil in Hin. }
  assert (nonunique_loop (length roles) keys (dict_pop roles k)
            = Raise RuntimeError) as Hpop.
  { apply nonunique_loop_changed.
    rewrite (dict_pop_length roles k) by (apply Hsub; left). lia. }
  cbn [nonunique_loop]. rewrite decide_True by done.
  destruct (dict_keys_get roles k) as [od' Hod']; [apply Hsub; left|].
  unfold dict_getitem. rewrite Hod'. cbn [rbind].
  assert (k = affix_type → map_qv od' < 254) as Hsame
    by (intros ->; congruence).
  assert (k ≠ affix_type →
          rbind (nonunique_loop (length roles) keys roles)
            (λ roles0, Ok (Some roles0)) = Raise RuntimeError) as Hrest.
  { intros Hne. apply IH.
    - apply elem_of_cons in Hin as [?|?]; [congruence|done].
    - intros. apply Hsub. by right. }
  destruct (decide (k = affix_type)) as [Heq|Hne].
  - rewrite decide_True by (by rewrite Heq).
    rewrite decide_True by auto. by rewrite Hpop.
  - specialize (Hrest Hne). repeat case_decide; try done. by rewrite Hpop.
Qed.

(** A role dictionary with nothing to remove is left as it is. *)
Lemma remove_nonunique_roles_high roles :
  (∀ affix_type od,
     affix_type = "prefix"%string ∨ affix_type = "suffix"%string →
     dict_get roles affix_type = Some od → 254 ≤ map_qv od) →
  remove_nonunique_roles (Some roles) = Ok (Some roles).
Proof.
  intros Hhigh. unfold remove_nonunique_roles.
  assert (∀ k, k ∈ dict_keys roles → k ∈ dict_keys roles) as Hsub by done.
  revert Hsub. generalize (dict_keys roles) at 1 3 as keys.
  induction keys as [|k keys IH]; intros Hsub; cbn [nonunique_loop].
  - by rewrite decide_True.
  - rewrite decide_True by done.
    destruct (dict_keys_get roles k) as [od Hod]; [apply Hsub; left|].
    unfold dict_getitem. rewrite Hod. cbn [rbind].
    specialize (IH (λ k' Hk', Hsub k' (list_elem_of_further _ _ _ Hk'))).
    case_decide as Htype; [|done].
    rewrite decide_False; [done|]. specialize (Hhigh k od Htype Hod). lia.
Qed.

(** C6, at a subread whose role dictionary holds a primary role of map
    quality 254 and a suffix role of map quality 200, the dictionary
    that the two passes build from one primary and one affix alignment:
    [remove_nonunique_alignments] pops the suffix role and the
    iteration over the role dictionary then raises [RuntimeError], so
    the filter does not complete and with [unique_only] no report is
    written; a subread that holds [None] makes it raise [TypeError]. *)
Theorem unique_filter_raises :
  aggregate one_subread_index [primary_high] [suffix_low] = Ok low_suffix_dict ∧
  map_qv (alignment_to_output_dict suffix_low (0, 1000)) = 200 ∧
  remove_nonunique_roles (Some low_suffix_roles) = Raise RuntimeError ∧
  remove_nonunique_alignments low_suffix_dict = Raise RuntimeError ∧
  create_pbbridgemapper_output one_subread_index [primary_high] [suffix_low]
    true = Raise RuntimeError ∧
  remove_nonunique_alignments mixed_dict = Raise RuntimeError ∧
  remove_nonunique_alignments one_subread_index = Raise TypeError.
Proof. split_and!; reflexivity. Qed.

(** ** The pipeline without the filter *)

(** The report written after the two passes, from a dictionary of
    subreads with distinct keys that all hold [None] or a primary role:
    one data row per subread with a primary role, and that number in
    the header. *)
Lemma pipeline_report_completeness d0 primary affix d :
  subread_dict_wf d0 → populated_hold_primary d0 →
  aggregate d0 primary affix = Ok d →
  ∃ file,
    create_pbbridgemapper_output d0 primary affix false = Ok file ∧
    length (data_rows file) = subreads_with_primary d ∧
    header_total file = Some (subreads_with_primary d).
Proof.
  intros Hwf Hpop Hrun.
  destruct (aggregate_invariant d0 primary affix d Hwf Hpop Hrun) as [Hwf' Hpop'].
  destruct (write_split_reads_file_spec d Hwf' Hpop') as (rows & Hfile & Hlen).
  eexists. unfold create_pbbridgemapper_output, filter_and_write.
  rewrite Hrun. cbn [rbind]. split; [exact Hfile|]. split.
  - by rewrite data_rows_app.
  - done.
Qed.

(** ** The dictionary of the input subreads *)

Lemma subread_dict_wf_nil {V} : subread_dict_wf ([] : subread_dict V).
Proof. split; constructor. Qed.

Lemma subread_dict_wf_set_new {V} (d : subread_dict V) key inner :
  subread_dict_wf d → NoDup (dict_keys inner) →
  subread_dict_wf (dict_set d key inner).
Proof.
  intros [Hnd Hinner] Hnew. split; [by apply dict_set_NoDup|].
  apply Forall_dict_set; [done..|]. by intros k' v' -> _.
Qed.

Lemma slots_None_set {A} (d : subread_dict (option A)) key inner :
  Forall (λ slot, slot = None) (subread_slots d) →
  Forall (λ kv, kv.2 = None) inner →
  Forall (λ slot, slot = None) (subread_slots (dict_set d key inner)).
Proof.
  unfold subread_slots. intros Hd Hinner.
  assert (Forall (λ slot : option A, slot = None) inner.*2) as Hinner'.
  { induction Hinner; constructor; auto. }
  induction d as [|[k v] d IH]; simpl in *.
  - by rewrite app_nil_r.
  - apply Forall_app in Hd as [Hv Hd].
    destruct (decide (k = key)); simpl; apply Forall_app; auto.
Qed.

Lemma inner_None_set {A} (inner : list (bounds * option A)) sb :
  Forall (λ kv, kv.2 = None) inner →
  Forall (λ kv, kv.2 = None) (dict_set inner sb None).
Proof.
  intros Hall. apply Forall_dict_set; [done..|]. by intros k' v' -> _.
Qed.

Lemma subread_dict_inner_None {A} (d : subread_dict (option A)) key inner :
  Forall (λ slot, slot = None) (subread_slots d) →
  dict_get d key = Some inner → Forall (λ kv, kv.2 = None) inner.
Proof.
  unfold subread_slots. intros Hall Hget.
  apply dict_get_Some_elem in Hget. rewrite Forall_forall in Hall.
  rewrite Forall_forall. intros [sb v] Hin. simpl.
  apply Hall, elem_of_flat_map.
  exists (key, inner). split; [done|]. simpl.
  apply list_elem_of_fmap. by exists (sb, v).
Qed.

Lemma subread_dictionary_step_start {A} movie (d : subread_dict (option A)) zmw :
  subread_dict_wf d ∧ Forall (λ slot, slot = None) (subread_slots d) →
  subread_dict_wf (subread_dictionary_step movie d zmw) ∧
  Forall (λ slot, slot = None) (subread_slots (subread_dictionary_step movie d zmw)).
Proof.
  intros Hd. unfold subread_dictionary_step.
  set (first_key := (movie, holeNumber zmw)).
  assert (subread_dict_wf
            (match dict_get d first_key with
             | Some _ => d
             | None => dict_set d first_key []
             end) ∧
          Forall (λ slot, slot = None)
            (subread_slots
               (match dict_get d first_key with
                | Some _ => d
                | None => dict_set d first_key []
                end))) as Hd1.
  { destruct (dict_get d first_key); [done|]. destruct Hd as [Hwf Hnone].
    split.
    - apply subread_dict_wf_set_new; [done|constructor].
    - apply slots_None_set; [done|constructor]. }
  revert Hd1. generalize (match dict_get d first_key with
                          | Some _ => d
                          | None => dict_set d first_key []
                          end) as d1.
  induction (insertRegions zmw) as [|sb sbs IH]; intros d1 Hd1; [done|].
  cbn [foldl]. apply IH. destruct Hd1 as [Hwf Hnone].
  match goal with
  | |- context [default [] ?o] => destruct o as [inner|] eqn:Hget
  end; unfold default; cbn [from_option id].
  - split.
    + by apply subread_dict_wf_set.
    + apply slots_None_set; [done|].
      apply inner_None_set. by eapply subread_dict_inner_None.
  - split.
    + apply subread_dict_wf_set_new; [done|]. simpl. apply NoDup_singleton.
    + apply slots_None_set; [done|]. by repeat constructor.
Qed.

(** The dictionary built from a reader has distinct keys and holds
    [None] for every subread, so it is a valid start for the two
    aggregation passes. *)
Lemma subread_dictionary_start {A} movie (zmws : list Zmw) :
  subread_dict_wf (subread_dictionary (A:=A) movie zmws) ∧
  Forall (λ slot, slot = None)
    (subread_slots (subread_dictionary (A:=A) movie zmws)).
Proof.
  unfold subread_dictionary.
  assert (subread_dict_wf ([] : subread_dict (option A)) ∧
          Forall (λ slot, slot = None)
            (subread_slots ([] : subread_dict (option A)))) as H0
    by (split; [apply subread_dict_wf_nil|constructor]).
  revert H0. generalize ([] : subread_dict (option A)) as d.
  induction zmws as [|zmw zmws IH]; intros d Hd; [done|].
  cbn [foldl]. apply IH. by apply subread_dictionary_step_start.
Qed.

Lemma slots_None_populated (d : all_subread_dict) :
  Forall (λ slot, slot = None) (subread_slots d) → populated_hold_primary d.
Proof.
  unfold populated_hold_primary. intros Hall.
  eapply Forall_impl; [exact Hall|]. auto.
Qed.

(** ** Affixes of a positive minimum size are not empty *)

Lemma retained_affixes_nonempty {V} (sd : subread_dict V)
    (aligns : list CmpH5Alignment) (min_affix_size : Z)
    (ab : gmap subread_key (list bounds)) (key : subread_key)
    (l : list bounds) :
  subread_dict_wf sd → 0 < min_affix_size →
  affix_boundaries sd aligns min_affix_size = Ok ab →
  ab !! key = Some l → Forall (λ a, a.1 < a.2) l.
Proof.
  intros Hwf HM Hrun Hl.
  pose proof (affix_boundaries_Ok_no_gap sd aligns _ ab Hrun) as Hgap.
  destruct (affix_boundaries_spec sd aligns min_affix_size Hwf Hgap)
    as (ab0 & Hrun0 & Hin & _).
  assert (ab0 = ab) as -> by congruence.
  specialize (Hin key). rewrite Hl in Hin. simpl in Hin.
  rewrite Forall_forall. intros x Hx. rewrite Hin in Hx.
  case_decide; [|by apply elem_of_nil in Hx].
  apply expected_key_affixes_elem_of in Hx as (inner & sb & _ & _ & Hx).
  apply expected_affixes_length_ge in Hx. lia.
Qed.

(** ** The example of the specification *)

(** Subread [(0, 1000)], one primary alignment over [(100, 900)] and one
    affix alignment over [(0, 80)]: the affix alignment is classified
    as the prefix, and the report row holds the prefix and the primary
    role and placeholders for the suffix. *)
Example spec_example_report :
  let prefix_alignment := example_alignment "m1" 1 0 80 254 in
  create_pbbridgemapper_output one_subread_index [primary_high]
    [prefix_alignment] false =
  Ok [VersionLine; TotalSubreadsLine 1; ColumnsLine;
      DataRow ([CStr "m1/1/0_1000"; CInt 1000]
               ++ role_cells (alignment_to_output_dict prefix_alignment (0, 1000))
               ++ role_cells (alignment_to_output_dict primary_high (0, 1000))
               ++ replicate 9 CAbsent)].
Proof. reflexivity. Qed.

(** ** The affix pass keeps the best record of a role *)

(** An affix alignment located at a subread that holds a primary role
    and classified as [affix_type] leaves in that role slot the better
    of the record that was there and its own record, the record that
    was there on a tie; the other slots are untouched. *)
Lemma affix_step_keeps_best (d : all_subread_dict) loc a key sb
    (inner : list (bounds * option role_map)) (roles : role_map)
    primary_dict affix_type :
  find_subread_entry a d = (Some key, Some sb) →
  dict_get d key = Some inner →
  dict_get inner sb = Some (Some roles) →
  dict_get roles "primary"%string = Some primary_dict →
  affix_role (alignment_to_output_dict a sb) primary_dict = Some affix_type →
  ∃ d' loc' inner' roles',
    affix_step (d, loc) a = Ok (d', loc') ∧
    dict_get d' key = Some inner' ∧
    dict_get inner' sb = Some (Some roles') ∧
    dict_get roles' affix_type =
      Some (better_role (dict_get roles affix_type)
              (alignment_to_output_dict a sb)) ∧
    ∀ other, other ≠ affix_type → dict_get roles' other = dict_get roles other.
Proof.
  intros Hfind Hget Hslot Hprimary Hrole.
  assert (∀ existing,
            dict_get roles affix_type = existing →
            let replace :=
              match existing with
              | Some e =>
                  bool_decide (map_qv e < MapQV a)
              | None => true
              end in
            ∃ d' inner' roles',
              (if replace
               then Ok (dict_set d key
                          (dict_set inner sb
                             (Some (dict_set roles affix_type
                                      (alignment_to_output_dict a sb)))),
                        mkLocals (Some existing) (existing_aligment loc))
               else Ok (d, mkLocals (Some existing) (existing_aligment loc)))
              = Ok (d', mkLocals (Some existing) (existing_aligment loc)) ∧
              dict_get d' key = Some inner' ∧
              dict_get inner' sb = Some (Some roles') ∧
              dict_get roles' affix_type =
                Some (better_role existing (alignment_to_output_dict a sb)) ∧
              ∀ other, other ≠ affix_type →
                       dict_get roles' other = dict_get roles other) as Hstore.
  { intros existing Hex. simpl. destruct existing as [e|]; simpl.
    - destruct (decide (map_qv e < MapQV a)) as [Hlt|Hge].
      + rewrite bool_decide_true by done.
        eexists _, _, _. split_and!; [done|..].
        * by rewrite dict_get_set_eq.
        * by rewrite dict_get_set_eq.
        * by rewrite dict_get_set_eq.
        * intros other Hne. by rewrite dict_get_set_ne.
      + rewrite bool_decide_false by done.
        eexists _, _, _. split_and!; done.
    - eexists _, _, _. split_and!; [done|..].
      + by rewrite dict_get_set_eq.
      + by rewrite dict_get_set_eq.
      + by rewrite dict_get_set_eq.
      + intros other Hne. by rewrite dict_get_set_ne. }
  destruct (Hstore _ eq_refl) as (d' & inner' & roles' & Hrun & Hrest).
  exists d', (mkLocals (Some (dict_get roles affix_type)) (existing_aligment loc)),
    inner', roles'.
  split; [|exact Hrest].
  unfold affix_step. rewrite Hfind. unfold dict_getitem_opt, dict_getitem.
  rewrite Hget. cbn [rbind]. rewrite Hslot. cbn [rbind].
  rewrite Hprimary. cbn [rbind].
  unfold affix_role in Hrole.
  destruct (decide (subread_end (alignment_to_output_dict a sb)
                    ≤ subread_start primary_dict)).
  - injection Hrole as <-. exact Hrun.
  - destruct (decide (subread_end primary_dict
                      ≤ subread_start (alignment_to_output_dict a sb)));
      [|done].
    injection Hrole as <-. exact Hrun.
Qed.

(** ** From the subreads to the synthesized table *)

Lemma expected_affixes_within {V} (sd : subread_dict V) key sb aligns M x :
  0 < M → x ∈ expected_affixes sb (located sd key sb aligns) M →
  sb.1 ≤ x.1 ∧ x.1 < x.2 ∧ x.2 ≤ sb.2.
Proof.
  intros HM. unfold expected_affixes.
  destruct (located sd key sb aligns) as [|a l] eqn:Hloc; simpl.
  { by intros ?%elem_of_nil. }
  assert (∀ b, b ∈ a :: l → is_Some (intersectRanges (rStart b, rEnd b) sb))
    as Hover.
  { intros b Hb. rewrite <-Hloc in Hb. apply list_elem_of_filter in Hb as [Hb _].
    by destruct (find_subread_entry_located sd b key sb Hb) as (? & ? & ? & ?). }
  destruct (min_rStart_attained a l) as (b1 & Hb1 & Hmin).
  destruct (max_rEnd_attained a l) as (b2 & Hb2 & Hmax).
  pose proof (Hover _ Hb1) as [? H1]. pose proof (Hover _ Hb2) as [? H2].
  unfold intersectRanges in H1, H2. simpl in H1, H2.
  repeat case_decide; try done;
    intros [Hx|Hx]%elem_of_app;
    try (by apply elem_of_nil in Hx);
    apply list_elem_of_singleton in Hx as ->; simpl; lia.
Qed.

Lemma expected_affixes_pairwise_disjoint {V} (sd : subread_dict V) key sb
    aligns M :
  pairwise_disjoint (expected_affixes sb (located sd key sb aligns) M).
Proof.
  unfold expected_affixes.
  destruct (located sd key sb aligns) as [|a l] eqn:Hloc; simpl; [done|].
  assert (a ∈ located sd key sb aligns) as Ha by (rewrite Hloc; left).
  apply list_elem_of_filter in Ha as [Ha _].
  destruct (find_subread_entry_located sd a key sb Ha) as (? & ? & ? & [? Hov]).
  unfold intersectRanges in Hov. simpl in Hov. case_decide; [|done].
  pose proof (min_rStart_le a l a ltac:(left)).
  pose proof (max_rEnd_ge a l a ltac:(left)).
  repeat case_decide; simpl; repeat split; try done; repeat constructor.
  apply intersectRanges_None. simpl. lia.
Qed.

Lemma pairwise_disjoint_app l1 l2 :
  pairwise_disjoint l1 → pairwise_disjoint l2 →
  (∀ x y, x ∈ l1 → y ∈ l2 → intersectRanges x y = None) →
  pairwise_disjoint (l1 ++ l2).
Proof.
  intros H1 H2 Hcross. induction l1 as [|x l1 IH]; simpl; [done|].
  destruct H1 as [Hx H1]. split.
  - apply Forall_app. split; [done|].
    rewrite Forall_forall. intros y Hy. apply Hcross; [left|done].
  - apply IH; [done|]. intros. apply Hcross; [by right|done].
Qed.

Lemma pairwise_disjoint_flat_map (f : bounds → list bounds) l :
  pairwise_disjoint l →
  (∀ sb, sb ∈ l → pairwise_disjoint (f sb)) →
  (∀ sb x, sb ∈ l → x ∈ f sb → sb.1 ≤ x.1 ∧ x.2 ≤ sb.2) →
  pairwise_disjoint (flat_map f l).
Proof.
  induction l as [|sb l IH]; intros Hdis Hf Hin; simpl; [done|].
  destruct Hdis as [Hsb Hdis]. apply pairwise_disjoint_app.
  - apply Hf. left.
  - apply IH; [done|..].
    + intros. apply Hf. by right.
    + intros sb' x ? ?. apply (Hin sb' x); [by right|done].
  - intros x y Hx (sb' & Hsb' & Hy)%elem_of_flat_map.
    rewrite Forall_forall in Hsb. specialize (Hsb sb' Hsb').
    apply intersectRanges_None in Hsb. apply intersectRanges_None.
    pose proof (Hin sb x ltac:(left) Hx).
    pose proof (Hin sb' y ltac:(by right) Hy). lia.
Qed.

(** The affixes that [affix_boundaries] retains with a positive minimum
    size, for subreads that are pairwise disjoint and lie within their
    reads, are non-empty, pairwise disjoint sub-intervals of the read:
    what the tiling of the synthesized table assumes. *)
Lemma retained_affixes_fit {V} (sd : subread_dict V)
    (aligns : list CmpH5Alignment) (min_affix_size : Z)
    (ab : gmap subread_key (list bounds)) (movie : string)
    (tbl : list region_row) :
  subread_dict_wf sd → 0 < min_affix_size → subreads_fit sd movie tbl →
  affix_boundaries sd aligns min_affix_size = Ok ab →
  ∀ h l L, ab !! (movie, h) = Some l → read_length tbl h = Ok L →
           affixes_fit l L.
Proof.
  intros Hwf HM Hfit Hrun h l L Hl HL.
  pose proof (affix_boundaries_Ok_no_gap sd aligns _ ab Hrun) as Hgap.
  destruct (affix_boundaries_spec sd aligns min_affix_size Hwf Hgap)
    as (ab0 & Hrun0 & Hin & _).
  assert (ab0 = ab) as -> by congruence.
  specialize (Hin (movie, h)). unfold subread_key in *.
  rewrite Hl in Hin. simpl in Hin.
  case_decide as Hkey; [|subst l; split; [constructor|done]].
  apply dict_keys_get in Hkey as [inner Hget].
  destruct (Hfit h inner L Hget HL) as [Hbounds Hdis].
  unfold expected_key_affixes in Hin. unfold subread_key in *.
  rewrite Hget in Hin. simpl in Hin.
  subst l. split.
  - rewrite Forall_forall. intros x (sb & Hsb & Hx)%elem_of_flat_map.
    apply expected_affixes_within in Hx; [|done].
    rewrite Forall_forall in Hbounds. specialize (Hbounds sb Hsb). lia.
  - apply pairwise_disjoint_flat_map; [done|..].
    + intros. apply expected_affixes_pairwise_disjoint.
    + intros sb x Hsb Hx. apply expected_affixes_within in Hx; [lia|done].
Qed.

(** The two steps of [create_affix_region_tables] for one movie: the
    table synthesized from the affixes of pairwise disjoint subreads
    tiles every read and alternates. *)
Lemma affix_pipeline_tiles {V} (sd : subread_dict V)
    (aligns : list CmpH5Alignment) (min_affix_size : Z)
    (ab : gmap subread_key (list bounds)) (movie : string)
    (tbl : list region_row) :
  subread_dict_wf sd → 0 < min_affix_size → subreads_fit sd movie tbl →
  has_hq_rows tbl → Forall (λ r, 0 ≤ col_end r) tbl →
  affix_boundaries sd aligns min_affix_size = Ok ab →
  ∃ out ab',
    affix_region_table tbl movie ab = Ok (out, ab') ∧
    (∀ h, h ∈ col_hole <$> out ↔ h ∈ col_hole <$> tbl) ∧
    ∀ h, h ∈ col_hole <$> tbl →
      ∃ L, read_length tbl h = Ok L ∧
           tiles 0 L (sort_rows (non_hq_rows out h)) ∧
           alternates (sort_rows (non_hq_rows out h)).
Proof.
  intros Hwf HM Hfit Hhq Hnonneg Hrun.
  apply affix_region_table_tiles; [done..|].
  by eapply retained_affixes_fit.
Qed.

(** * Further properties of the code *)

(** ** [affix_boundaries]: what the alignment stream contributes *)

Lemma for_each_filter_skip {A S} (P : A → Prop) `{∀ x, Decision (P x)}
    (body : S → A → result S) (l : list A) :
  (∀ s x, ¬ P x → body s x = Ok s) →
  ∀ s, for_each body s l = for_each body s (filter P l).
Proof.
  intros Hskip. induction l as [|x l IH]; intros s; [done|].
  destruct (decide (P x)) as [HP|HP].
  - rewrite filter_cons_True by done. cbn [for_each].
    destruct (body s x); cbn [rbind]; auto.
  - rewrite filter_cons_False by done. cbn [for_each].
    rewrite Hskip by done. cbn [rbind]. auto.
Qed.

Lemma extent_step_foreign {V} (sd : subread_dict V) ae a :
  ¬ in_index sd a → extent_step sd ae a = Ok ae.
Proof.
  unfold in_index, extent_step, find_subread_entry. intros Hn.
  destruct (dict_get sd (movieInfo_Name a, HoleNumber a)); [|done].
  destruct Hn. eauto.
Qed.

(** X1: alignments whose (movie, hole) key is not in the index have no
    effect on [affix_boundaries]: the call behaves, result or exception,
    as on the stream without them. *)
Theorem affix_boundaries_ignores_foreign {V} (sd : subread_dict V)
    (aligns : list CmpH5Alignment) (min_affix_size : Z) :
  affix_boundaries sd aligns min_affix_size =
  affix_boundaries sd (filter (in_index sd) aligns) min_affix_size.
Proof.
  unfold affix_boundaries. destruct (init_extents sd) as [ae0|e]; [|done].
  cbn [rbind].
  rewrite (for_each_filter_skip (in_index sd) (extent_step sd) aligns); [done|].
  intros ae a. apply extent_step_foreign.
Qed.

Lemma extent_step_raises {V} (sd : subread_dict V) ae a e :
  extent_step sd ae a = Raise e → e = KeyError.
Proof.
  unfold extent_step, dict_getitem_opt, dict_getitem.
  repeat case_match; simpl; repeat case_match; simpl; congruence.
Qed.

Lemma extent_loop_raises {V} (sd : subread_dict V) l : ∀ ae e,
  for_each (extent_step sd) ae l = Raise e → e = KeyError.
Proof.
  induction l as [|a l IH]; intros ae e; cbn [for_each]; [done|].
  destruct (extent_step sd ae a) as [ae'|e'] eqn:Hstep; cbn [rbind].
  - apply IH.
  - intros [= <-]. by eapply extent_step_raises.
Qed.

(** With an alignment in a gap the call raises [KeyError]. *)
Lemma affix_boundaries_gap {V} (sd : subread_dict V) aligns M :
  ¬ Forall (λ a, ¬ in_gap sd a) aligns →
  affix_boundaries sd aligns M = Raise KeyError.
Proof.
  intros Hgap. unfold affix_boundaries.
  destruct (init_extents_spec sd) as (ae0 & -> & _). cbn [rbind].
  destruct (for_each (extent_step sd) ae0 aligns) as [ae|e] eqn:Hloop.
  - destruct Hgap. by eapply extent_loop_Ok_no_gap.
  - apply extent_loop_raises in Hloop as ->. done.
Qed.

Lemma append_affix_no_empty ab key x :
  no_empty_list ab → no_empty_list (append_affix ab key x).
Proof.
  intros Hab k l. unfold append_affix.
  destruct (decide (key = k)) as [->|Hne].
  - rewrite lookup_insert_eq. intros [= <-]. by destruct (default [] (ab !! k)).
  - rewrite lookup_insert_ne by done. apply Hab.
Qed.

Lemma collect_subread_no_empty ae M key ab sb ab' :
  no_empty_list ab → collect_subread ae M key ab sb = Ok ab' →
  no_empty_list ab'.
Proof.
  intros Hab. unfold collect_subread. intros Hrun. inv_rbind.
  destruct x0 as [e|]; [|by simplify_eq].
  injection Hrun as <-. revert ab Hab.
  induction (subread_affixes sb e M) as [|af l IH]; intros ab Hab; [done|].
  cbn [foldl]. apply IH. by apply append_affix_no_empty.
Qed.

Lemma affix_boundaries_no_empty {V} (sd : subread_dict V) aligns M ab :
  affix_boundaries sd aligns M = Ok ab → no_empty_list ab.
Proof.
  unfold affix_boundaries, collect_affixes. intros Hrun. inv_rbind.
  eapply (for_each_invariant no_empty_list);
    [|intros k l Hl; by rewrite lookup_empty in Hl|exact Hrun].
  intros ab1 key ab2 Hab1 Hbody. cbv beta in Hbody. inv_rbind.
  eapply (for_each_invariant no_empty_list); [|exact Hab1|exact Hbody].
  intros ab3 sb ab4. apply collect_subread_no_empty.
Qed.

(** The list recorded for a key, exactly. *)
Lemma affix_boundaries_lookup {V} (sd : subread_dict V)
    (aligns : list CmpH5Alignment) (M : Z)
    (ab : gmap subread_key (list bounds)) (key : subread_key) :
  subread_dict_wf sd → affix_boundaries sd aligns M = Ok ab →
  ab !! key =
    match expected_key_affixes sd aligns M key with
    | [] => None
    | l => if decide (key ∈ dict_keys sd) then Some l else None
    end.
Proof.
  intros Hwf Hrun.
  pose proof (affix_boundaries_no_empty sd aligns M ab Hrun) as Hne.
  pose proof (affix_boundaries_Ok_no_gap sd aligns M ab Hrun) as Hgap.
  destruct (affix_boundaries_spec sd aligns M Hwf Hgap)
    as (ab0 & Hrun0 & Hin & Hout).
  assert (ab0 = ab) as -> by congruence.
  specialize (Hin key). specialize (Hout key). specialize (Hne key).
  destruct (decide (key ∈ dict_keys sd)) as [Hkey|Hkey].
  - destruct (ab !! key) as [l|] eqn:Hl; simpl in Hin.
    + rewrite <-Hin. destruct l; [by destruct (Hne [])|done].
    + by rewrite <-Hin.
  - rewrite Hout by done. by destruct (expected_key_affixes sd aligns M key).
Qed.

Lemma envelope_Permutation l l' : l ≡ₚ l' → envelope l = envelope l'.
Proof.
  intros Hp. destruct l as [|a l], l' as [|a' l']; simpl.
  - done.
  - by apply Permutation_nil_cons in Hp.
  - symmetry in Hp. by apply Permutation_nil_cons in Hp.
  - destruct (min_rStart_attained a l) as (b1 & Hb1 & Hm1).
    destruct (min_rStart_attained a' l') as (b1' & Hb1' & Hm1').
    destruct (max_rEnd_attained a l) as (b2 & Hb2 & Hm2).
    destruct (max_rEnd_attained a' l') as (b2' & Hb2' & Hm2').
    pose proof (min_rStart_le a l b1') as H1.
    pose proof (min_rStart_le a' l' b1) as H2.
    pose proof (max_rEnd_ge a l b2') as H3.
    pose proof (max_rEnd_ge a' l' b2) as H4.
    rewrite Hp in H1, H3. rewrite <-Hp in H2, H4.
    specialize (H1 Hb1'). specialize (H2 Hb1).
    specialize (H3 Hb2'). specialize (H4 Hb2).
    f_equal. f_equal; lia.
Qed.

Lemma expected_key_affixes_Permutation {V} (sd : subread_dict V) aligns aligns'
    M key :
  aligns ≡ₚ aligns' →
  expected_key_affixes sd aligns M key = expected_key_affixes sd aligns' M key.
Proof.
  intros Hp. unfold expected_key_affixes. apply flat_map_ext. intros sb.
  unfold expected_affixes.
  rewrite (envelope_Permutation (located sd key sb aligns)
             (located sd key sb aligns')); [done|].
  unfold located. by rewrite Hp.
Qed.

(** X2: on an index with distinct keys, [affix_boundaries] does not
    depend on the order of the alignment stream: two streams with the
    same alignments give the same dictionary, or both raise
    [KeyError]. *)
Theorem affix_boundaries_stream_order {V} (sd : subread_dict V)
    (aligns aligns' : list CmpH5Alignment) (min_affix_size : Z) :
  subread_dict_wf sd → aligns ≡ₚ aligns' →
  affix_boundaries sd aligns min_affix_size =
  affix_boundaries sd aligns' min_affix_size.
Proof.
  intros Hwf Hp.
  destruct (decide (Forall (λ a, ¬ in_gap sd a) aligns)) as [Hgap|Hgap].
  - assert (Forall (λ a, ¬ in_gap sd a) aligns') as Hgap' by (by rewrite <-Hp).
    destruct (affix_boundaries_spec sd aligns min_affix_size Hwf Hgap)
      as (ab & Hrun & _).
    destruct (affix_boundaries_spec sd aligns' min_affix_size Hwf Hgap')
      as (ab' & Hrun' & _).
    rewrite Hrun, Hrun'. f_equal. apply map_eq. intros key.
    rewrite (affix_boundaries_lookup sd aligns min_affix_size ab key Hwf Hrun).
    rewrite (affix_boundaries_lookup sd aligns' min_affix_size ab' key Hwf Hrun').
    by rewrite (expected_key_affixes_Permutation sd aligns aligns').
  - assert (¬ Forall (λ a, ¬ in_gap sd a) aligns') as Hgap' by (by rewrite <-Hp).
    by rewrite !affix_boundaries_gap.
Qed.

Lemma affix_boundaries_stream_order_witness :
  subread_dict_wf one_subread_index ∧
  [primary_high; suffix_low] ≡ₚ [suffix_low; primary_high] ∧
  affix_boundaries one_subread_index [primary_high; suffix_low] 50 =
  affix_boundaries one_subread_index [suffix_low; primary_high] 50.
Proof.
  assert (subread_dict_wf one_subread_index) as H1 by compute_done.
  assert ([primary_high; suffix_low] ≡ₚ [suffix_low; primary_high]) as H2
    by apply Permutation_swap.
  split_and!; [exact H1|exact H2|].
  exact (affix_boundaries_stream_order one_subread_index _ _ 50 H1 H2).
Defined.

Lemma expected_affixes_length sb l M : (length (expected_affixes sb l M) ≤ 2)%nat.
Proof.
  unfold expected_affixes. destruct (envelope l); simpl; [|lia].
  rewrite length_app. repeat case_decide; simpl; lia.
Qed.

Lemma flat_map_length_le {A B} (f : A → list B) (l : list A) (n : nat) :
  (∀ x, (length (f x) ≤ n)%nat) →
  (length (flat_map f l) ≤ n * length l)%nat.
Proof.
  intros Hf. induction l as [|x l IH]; cbn [flat_map length]; [lia|].
  rewrite length_app. specialize (Hf x). lia.
Qed.

(** X3: the shape of the dictionary that [affix_boundaries] returns on
    an index with distinct keys: every key it holds is a key of the
    index, no key holds an empty list, and a key holds at most two
    affixes for each of its subreads. *)
Theorem affix_boundaries_shape {V} (sd : subread_dict V)
    (aligns : list CmpH5Alignment) (min_affix_size : Z)
    (ab : gmap subread_key (list bounds)) :
  subread_dict_wf sd → affix_boundaries sd aligns min_affix_size = Ok ab →
  ∀ (key : subread_key) (l : list bounds), ab !! key = Some l →
    l ≠ [] ∧
    ∃ inner, dict_get sd key = Some inner ∧
             (length l ≤ 2 * length (dict_keys inner))%nat.
Proof.
  intros Hwf Hrun key l Hl.
  split; [by eapply (affix_boundaries_no_empty sd aligns)|].
  rewrite (affix_boundaries_lookup sd aligns min_affix_size ab key Hwf Hrun)
    in Hl.
  destruct (expected_key_affixes sd aligns min_affix_size key) as [|x l'] eqn:E;
    [done|].
  case_decide as Hkey; [|done]. injection Hl as <-.
  apply dict_keys_get in Hkey as [inner Hget]. exists inner. split; [done|].
  rewrite <-E. unfold expected_key_affixes. rewrite Hget. cbn [default from_option id].
  apply (flat_map_length_le _ _ 2). intros sb. apply expected_affixes_length.
Qed.

Lemma affix_boundaries_shape_witness :
  subread_dict_wf one_subread_index ∧
  affix_boundaries one_subread_index [primary_high] 50
    = Ok one_subread_affix_bounds ∧
  ∀ (key : subread_key) (l : list bounds),
    one_subread_affix_bounds !! key = Some l →
    l ≠ [] ∧
    ∃ inner, dict_get one_subread_index key = Some inner ∧
             (length l ≤ 2 * length (dict_keys inner))%nat.
Proof.
  assert (subread_dict_wf one_subread_index) as H1 by compute_done.
  assert (affix_boundaries one_subread_index [primary_high] 50
            = Ok one_subread_affix_bounds) as H2 by (vm_compute; reflexivity).
  split_and!; [exact H1|exact H2|].
  exact (affix_boundaries_shape one_subread_index [primary_high] 50
           one_subread_affix_bounds H1 H2).
Defined.

(** X4: with a positive minimum affix size, every affix interval that
    [affix_boundaries] retains for a key is non-empty and lies within
    one of the subreads of that key. *)
Theorem affix_within_subread {V} (sd : subread_dict V)
    (aligns : list CmpH5Alignment) (min_affix_size : Z)
    (ab : gmap subread_key (list bounds)) :
  subread_dict_wf sd → 0 < min_affix_size →
  affix_boundaries sd aligns min_affix_size = Ok ab →
  ∀ (key : subread_key) (l : list bounds) (x : bounds),
    ab !! key = Some l → x ∈ l →
    ∃ inner sb, dict_get sd key = Some inner ∧ sb ∈ dict_keys inner ∧
                sb.1 ≤ x.1 ∧ x.1 < x.2 ∧ x.2 ≤ sb.2.
Proof.
  intros Hwf HM Hrun key l x Hl Hx.
  rewrite (affix_boundaries_lookup sd aligns min_affix_size ab key Hwf Hrun)
    in Hl.
  destruct (expected_key_affixes sd aligns min_affix_size key) as [|y l'] eqn:E;
    [done|].
  case_decide; [|done]. injection Hl as <-. rewrite <-E in Hx.
  apply expected_key_affixes_elem_of in Hx as (inner & sb & Hget & Hsb & Hx).
  exists inner, sb. split; [done|]. split; [done|].
  by eapply expected_affixes_within.
Qed.

Lemma affix_within_subread_witness :
  subread_dict_wf one_subread_index ∧ 0 < 50 ∧
  affix_boundaries one_subread_index [primary_high] 50
    = Ok one_subread_affix_bounds ∧
  ∀ (key : subread_key) (l : list bounds) (x : bounds),
    one_subread_affix_bounds !! key = Some l → x ∈ l →
    ∃ inner sb, dict_get one_subread_index key = Some inner ∧
                sb ∈ dict_keys inner ∧
                sb.1 ≤ x.1 ∧ x.1 < x.2 ∧ x.2 ≤ sb.2.
Proof.
  assert (subread_dict_wf one_subread_index) as H1 by compute_done.
  assert (0 < 50) as H2 by lia.
  assert (affix_boundaries one_subread_index [primary_high] 50
            = Ok one_subread_affix_bounds) as H3 by (vm_compute; reflexivity).
  split_and!; [exact H1|exact H2|exact H3|].
  exact (affix_within_subread one_subread_index [primary_high] 50
           one_subread_affix_bounds H1 H2 H3).
Defined.

(** ** [find_subread_entry]: which bounds are returned *)

Lemma first_overlap_Some r l sb :
  first_overlap r l = Some sb ↔
  ∃ l1 l2, l = l1 ++ sb :: l2 ∧ is_Some (intersectRanges r sb) ∧
           Forall (λ sb', intersectRanges r sb' = None) l1.
Proof.
  induction l as [|x l IH]; simpl.
  - split; [done|]. intros (l1 & l2 & Heq & _). by destruct l1.
  - destruct (intersectRanges r x) as [i|] eqn:Hx.
    + split.
      * intros [= <-]. exists [], l. rewrite Hx. split_and!; eauto.
      * intros (l1 & l2 & Heq & Hov & Hall). destruct l1 as [|y l1].
        -- by injection Heq as <- _.
        -- injection Heq as <- _. apply Forall_cons in Hall as [Hy _].
           congruence.
    + rewrite IH. split.
      * intros (l1 & l2 & -> & Hov & Hall). exists (x :: l1), l2.
        split_and!; [done|done|by constructor].
      * intros (l1 & l2 & Heq & Hov & Hall). destruct l1 as [|y l1].
        -- injection Heq as <- _. rewrite Hx in Hov. by destruct Hov.
        -- injection Heq as <- ->. apply Forall_cons in Hall as [_ Hall].
           eauto.
Qed.

Lemma first_overlap_None r l :
  first_overlap r l = None ↔ Forall (λ sb, intersectRanges r sb = None) l.
Proof.
  induction l as [|x l IH]; simpl.
  - split; [constructor|done].
  - destruct (intersectRanges r x) eqn:Hx.
    + split; [done|]. intros [? _]%Forall_cons. congruence.
    + rewrite IH. split; [by constructor|by intros [_ ?]%Forall_cons].
Qed.

(** X5: what [find_subread_entry] returns.  The key is [None] exactly
    when the (movie, hole) of the alignment is not in the dictionary,
    and then the bounds are [None] too; otherwise the key is that
    (movie, hole), and the bounds are the first subread bounds, in the
    iteration order of the hole's dictionary, that overlap the read
    range of the alignment, or [None] when none overlaps. *)
Theorem find_subread_entry_result {V} (sd : subread_dict V)
    (a : CmpH5Alignment) :
  let key := (movieInfo_Name a, HoleNumber a) in
  let r := (rStart a, rEnd a) in
  match find_subread_entry a sd with
  | (None, ob) => ob = None ∧ dict_get sd key = None
  | (Some k, None) =>
      k = key ∧
      ∃ inner, dict_get sd key = Some inner ∧
               Forall (λ sb, intersectRanges r sb = None) (dict_keys inner)
  | (Some k, Some sb) =>
      k = key ∧
      ∃ inner l1 l2,
        dict_get sd key = Some inner ∧ dict_keys inner = l1 ++ sb :: l2 ∧
        is_Some (intersectRanges r sb) ∧
        Forall (λ sb', intersectRanges r sb' = None) l1
  end.
Proof.
  intros key r. unfold find_subread_entry. fold key. fold r.
  destruct (dict_get sd key) as [inner|] eqn:Hget; [|done].
  destruct (first_overlap r (dict_keys inner)) as [sb|] eqn:Hfo.
  - split; [done|]. apply first_overlap_Some in Hfo as (l1 & l2 & ? & ? & ?).
    by exists inner, l1, l2.
  - split; [done|]. exists inner. split; [done|]. by apply first_overlap_None.
Qed.

Lemma first_overlap_contained r l sb :
  pairwise_disjoint l → sb ∈ l → r.1 < r.2 → sb.1 ≤ r.1 → r.2 ≤ sb.2 →
  first_overlap r l = Some sb.
Proof.
  intros Hdis Hin Hne Hlo Hhi. induction l as [|x l IH]; simpl.
  { by apply elem_of_nil in Hin. }
  destruct Hdis as [Hx Hdis].
  destruct (intersectRanges r x) as [i|] eqn:Hrx.
  - apply elem_of_cons in Hin as [->|Hin]; [done|].
    rewrite Forall_forall in Hx. specialize (Hx sb Hin).
    apply intersectRanges_None in Hx.
    unfold intersectRanges in Hrx. case_decide; [|done]. lia.
  - apply elem_of_cons in Hin as [->|Hin]; [|auto].
    apply intersectRanges_None in Hrx. lia.
Qed.

(** X6: when the subread bounds of a hole do not overlap one another,
    an alignment with a non-empty read range that lies within one of
    them is matched to exactly those bounds, whatever the iteration
    order of the hole's dictionary. *)
Theorem find_subread_entry_contained {V} (sd : subread_dict V)
    (a : CmpH5Alignment) (inner : list (bounds * V)) (sb : bounds) :
  dict_get sd (movieInfo_Name a, HoleNumber a) = Some inner →
  pairwise_disjoint (dict_keys inner) → sb ∈ dict_keys inner →
  rStart a < rEnd a → sb.1 ≤ rStart a → rEnd a ≤ sb.2 →
  find_subread_entry a sd = (Some (movieInfo_Name a, HoleNumber a), Some sb).
Proof.
  intros Hget Hdis Hin Hne Hlo Hhi. unfold find_subread_entry.
  rewrite Hget. f_equal. by apply first_overlap_contained.
Qed.

Lemma find_subread_entry_contained_witness :
  dict_get mixed_dict (movieInfo_Name primary_high, HoleNumber primary_high)
    = Some [((0, 1000), Some low_suffix_roles); ((1100, 2000), None)] ∧
  pairwise_disjoint
    (dict_keys [((0, 1000), Some low_suffix_roles); ((1100, 2000), None)]) ∧
  (0, 1000) ∈
    dict_keys [((0, 1000), Some low_suffix_roles); ((1100, 2000), None)] ∧
  rStart primary_high < rEnd primary_high ∧
  (0, 1000).1 ≤ rStart primary_high ∧ rEnd primary_high ≤ (0, 1000).2 ∧
  find_subread_entry primary_high mixed_dict =
    (Some (movieInfo_Name primary_high, HoleNumber primary_high),
     Some (0, 1000)).
Proof.
  assert (dict_get mixed_dict
            (movieInfo_Name primary_high, HoleNumber primary_high)
          = Some [((0, 1000), Some low_suffix_roles); ((1100, 2000), None)])
    as H1 by reflexivity.
  assert (pairwise_disjoint
            (dict_keys [((0, 1000), Some low_suffix_roles);
                        ((1100, 2000), @None role_map)])) as H2
    by (simpl; repeat constructor).
  assert ((0, 1000) ∈
            dict_keys [((0, 1000), Some low_suffix_roles);
                       ((1100, 2000), @None role_map)]) as H3 by (simpl; left).
  assert (rStart primary_high < rEnd primary_high) as H4 by (simpl; lia).
  assert ((0, 1000).1 ≤ rStart primary_high) as H5 by (simpl; lia).
  assert (rEnd primary_high ≤ (0, 1000).2) as H6 by (simpl; lia).
  split_and!; [exact H1|exact H2|exact H3|exact H4|exact H5|exact H6|].
  exact (find_subread_entry_contained mixed_dict primary_high _ (0, 1000)
           H1 H2 H3 H4 H5 H6).
Defined.

(** ** [affix_region_table]: the table as a whole *)

Lemma region_table_step_no_hq tbl movie st h :
  h ∈ col_hole <$> tbl → first_hq_row tbl h = None →
  region_table_step tbl movie st h = Raise IndexError.
Proof.
  intros Hh Hnone. destruct st as [out ab].
  destruct (read_length_Ok tbl h Hh) as [L HL].
  unfold region_table_step, read_length, first_hq_row, hole_rows_of in *.
  rewrite HL. cbn [rbind].
  by destruct (filter (λ r, col_type r = 2) _).
Qed.

Lemma region_table_loop_form tbl movie ab0 hs :
  NoDup hs → (∀ h, h ∈ hs → h ∈ col_hole <$> tbl) →
  (∀ h, h ∈ hs → is_Some (first_hq_row tbl h)) →
  ∀ out ab, (∀ h, h ∈ hs → ab !! (movie, h) = ab0 !! (movie, h)) →
    ∃ ab',
      for_each (region_table_step tbl movie) (out, ab) hs =
        Ok (out ++ flat_map (synthesized_block tbl movie ab0) hs, ab').
Proof.
  induction 1 as [|h hs Hnotin Hnd IH]; intros Hin Hhq out ab Hab.
  - exists ab. simpl. by rewrite app_nil_r.
  - destruct (read_length_Ok tbl h) as [L HL]; [apply Hin; left|].
    destruct (Hhq h) as [hq Hfirst]; [left|].
    cbn [for_each flat_map].
    rewrite (region_table_step_spec _ _ _ _ _ _ _ HL Hfirst). cbn [rbind].
    edestruct (IH (λ h' Hh', Hin h' (list_elem_of_further _ _ _ Hh'))
                 (λ h' Hh', Hhq h' (list_elem_of_further _ _ _ Hh')))
      as [ab' Hloop]; last first.
    { exists ab'. rewrite Hloop. f_equal. f_equal. rewrite <-app_assoc.
      f_equal. f_equal. unfold synthesized_block.
      rewrite HL, Hfirst, <-Hab by left. done. }
    intros h' Hh'. rewrite <-Hab by (by right).
    destruct (ab !! (movie, h)); [|done].
    rewrite lookup_insert_ne; [done|]. intros [= ->]. done.
Qed.

Lemma has_hq_rows_first tbl :
  has_hq_rows tbl ↔ ∀ h, h ∈ col_hole <$> tbl → is_Some (first_hq_row tbl h).
Proof.
  split.
  - intros Hhq h Hh.
    destruct (first_hq_row_Some tbl h Hhq Hh) as (hq & -> & _). eauto.
  - intros Hfirst. unfold has_hq_rows. rewrite Forall_forall. intros r Hr.
    destruct (Hfirst (col_hole r)) as [hq Hhq].
    { by apply list_elem_of_fmap_2. }
    unfold first_hq_row in Hhq.
    destruct (filter (λ r0, col_type r0 = 2) (hole_rows_of tbl (col_hole r)))
      as [|hq' l] eqn:E; [done|].
    assert (hq' ∈ hq' :: l) as Hin by left. rewrite <-E in Hin.
    apply list_elem_of_filter in Hin as [Hty Hin].
    apply list_elem_of_filter in Hin as [Hhole Hin].
    apply Exists_exists. by exists hq'.
Qed.

Lemma region_table_loop_no_hq tbl movie hs :
  (∀ h, h ∈ hs → h ∈ col_hole <$> tbl) →
  Exists (λ h, first_hq_row tbl h = None) hs →
  ∀ st, for_each (region_table_step tbl movie) st hs = Raise IndexError.
Proof.
  induction hs as [|h hs IH]; intros Hin Hex st.
  { by apply Exists_nil in Hex. }
  cbn [for_each].
  destruct (first_hq_row tbl h) as [hq|] eqn:Hfirst.
  - destruct (read_length_Ok tbl h) as [L HL]; [apply Hin; left|].
    destruct st as [out ab].
    rewrite (region_table_step_spec _ _ _ _ _ _ _ HL Hfirst). cbn [rbind].
    apply IH.
    + intros. apply Hin. by right.
    + apply Exists_cons in Hex as [?|?]; [congruence|done].
  - rewrite region_table_step_no_hq; [done| |done]. apply Hin. left.
Qed.

(** X7: [affix_region_table] returns exactly when every hole of the
    table has a high-quality-region row, and the table it returns is
    then the blocks of the holes in ascending hole order; when some hole
    has no such row it raises [IndexError]. *)
Theorem affix_region_table_returns (tbl : list region_row) (movie : string)
    (ab : gmap subread_key (list bounds)) :
  (has_hq_rows tbl ∧
   ∃ ab', affix_region_table tbl movie ab
            = Ok (synthesized_table tbl movie ab, ab')) ∨
  (¬ has_hq_rows tbl ∧ affix_region_table tbl movie ab = Raise IndexError).
Proof.
  unfold affix_region_table, synthesized_table.
  destruct (decide (has_hq_rows tbl)) as [Hhq|Hhq].
  - left. split; [done|].
    destruct (region_table_loop_form tbl movie ab
                (numpy_unique (col_hole <$> tbl))
                (numpy_unique_NoDup _)
                (λ h, proj1 (numpy_unique_elem_of _ h))) with (out := @nil region_row) (ab := ab)
      as [ab' Hloop]; [|done|by exists ab'].
    intros h Hh. apply has_hq_rows_first; [done|].
    by apply numpy_unique_elem_of.
  - right. split; [done|]. apply region_table_loop_no_hq.
    + intros h. apply numpy_unique_elem_of.
    + destruct (decide (Exists (λ h, first_hq_row tbl h = None)
                          (numpy_unique (col_hole <$> tbl)))) as [|Hne];
        [done|].
      destruct Hhq. apply has_hq_rows_first. intros h Hh.
      destruct (first_hq_row tbl h) eqn:Hfirst; [eauto|].
      destruct Hne. apply Exists_exists. exists h.
      by rewrite numpy_unique_elem_of.
Qed.

Lemma affix_region_table_form tbl movie ab out ab' :
  affix_region_table tbl movie ab = Ok (out, ab') →
  has_hq_rows tbl ∧ out = synthesized_table tbl movie ab.
Proof.
  intros Hrun. unfold affix_region_table in Hrun.
  destruct (decide (has_hq_rows tbl)) as [Hhq|Hhq].
  - split; [done|].
    destruct (region_table_loop_form tbl movie ab
                (numpy_unique (col_hole <$> tbl))
                (numpy_unique_NoDup _)
                (λ h, proj1 (numpy_unique_elem_of _ h)))
      with (out := @nil region_row) (ab := ab) as [ab1 Hloop]; [|done|].
    + intros h Hh. apply has_hq_rows_first; [done|].
      by apply numpy_unique_elem_of.
    + rewrite Hloop in Hrun. by injection Hrun as <- _.
  - rewrite region_table_loop_no_hq in Hrun; [done|..].
    + intros h. apply numpy_unique_elem_of.
    + destruct (decide (Exists (λ h, first_hq_row tbl h = None)
                          (numpy_unique (col_hole <$> tbl)))) as [|Hne];
        [done|].
      destruct Hhq. apply has_hq_rows_first. intros h Hh.
      destruct (first_hq_row tbl h) eqn:Hfirst; [eauto|].
      destruct Hne. apply Exists_exists. exists h.
      by rewrite numpy_unique_elem_of.
Qed.

Lemma affix_rows_types h l : ∀ prev,
  filter (λ r, col_type r = 2) (affix_rows h prev l).1 = [] ∧
  filter (λ r, col_type r = INSERT_REGION) (affix_rows h prev l).1 =
    (λ af, mkRow h INSERT_REGION af.1 af.2 (-1)) <$> l.
Proof.
  induction l as [|af l IH]; intros prev; simpl; [done|].
  specialize (IH af.2). destruct (affix_rows h af.2 l) as [rows last].
  simpl in *. destruct IH as [IH1 IH2].
  rewrite !filter_cons. simpl.
  rewrite IH1, IH2. done.
Qed.

(** X8: in a table returned by [affix_region_table], every hole of the
    original table has exactly one high-quality-region row: for a hole
    with an entry in the affix bounds it is the hole's first original
    high-quality row, unchanged, and for a hole without an entry it is
    the zero-length row [[hole, HQ, 0, 0, 0]]. *)
Theorem region_table_hq_rows (tbl : list region_row) (movie : string)
    (ab ab' : gmap subread_key (list bounds)) (out : list region_row) :
  affix_region_table tbl movie ab = Ok (out, ab') →
  ∀ h, h ∈ col_hole <$> tbl →
    ∃ hq, first_hq_row tbl h = Some hq ∧
          filter (λ r, col_type r = 2) (hole_rows_of out h) =
            match ab !! (movie, h) with
            | Some _ => [hq]
            | None => [mkRow h HQ_REGION 0 0 0]
            end.
Proof.
  intros Hrun h Hh.
  destruct (affix_region_table_form _ _ _ _ _ Hrun) as [Hhq _].
  destruct (affix_region_table_spec tbl movie ab Hhq)
    as (out0 & ab0 & Hrun0 & _ & Hblocks & _).
  assert (out0 = out) as -> by congruence.
  destruct (Hblocks h Hh) as (L & hq & HL & Hfirst & ->).
  destruct (first_hq_row_Some tbl h Hhq Hh) as (hq' & Hfirst' & _ & Hty & _).
  assert (hq' = hq) as -> by congruence.
  exists hq. split; [done|]. unfold synthesized_rows.
  destruct (ab !! (movie, h)) as [l|]; [|done].
  rewrite filter_app, (proj1 (affix_rows_types h (list_sort l) 0)).
  rewrite filter_cons_False by (simpl; unfold ADAPTER_REGION; lia).
  by rewrite filter_cons_True.
Qed.

Lemma region_table_hq_rows_witness :
  affix_region_table no_affix_table "m1" ∅ =
    Ok ([mkRow 7 HQ_REGION 0 0 0; mkRow 7 ADAPTER_REGION 0 90 0], ∅) ∧
  ∀ h, h ∈ col_hole <$> no_affix_table →
    ∃ hq, first_hq_row no_affix_table h = Some hq ∧
          filter (λ r, col_type r = 2)
            (hole_rows_of
               [mkRow 7 HQ_REGION 0 0 0; mkRow 7 ADAPTER_REGION 0 90 0] h) =
            match (∅ : gmap subread_key (list bounds)) !! ("m1"%string, h) with
            | Some _ => [hq]
            | None => [mkRow h HQ_REGION 0 0 0]
            end.
Proof.
  assert (affix_region_table no_affix_table "m1" ∅ =
            Ok ([mkRow 7 HQ_REGION 0 0 0; mkRow 7 ADAPTER_REGION 0 90 0], ∅))
    as H1 by reflexivity.
  split; [exact H1|].
  exact (region_table_hq_rows no_affix_table "m1" ∅ ∅ _ H1).
Defined.

(** X9: in a table returned by [affix_region_table], the insert rows of
    a hole are exactly the affix intervals recorded for that hole,
    sorted, each with score -1; a hole without an entry in the affix
    bounds has no insert row. *)
Theorem region_table_insert_rows (tbl : list region_row) (movie : string)
    (ab ab' : gmap subread_key (list bounds)) (out : list region_row) :
  affix_region_table tbl movie ab = Ok (out, ab') →
  ∀ h,
    filter (λ r, col_type r = INSERT_REGION) (hole_rows_of out h) =
      (λ af, mkRow h INSERT_REGION af.1 af.2 (-1)) <$>
        (if decide (h ∈ col_hole <$> tbl)
         then list_sort (default [] (ab !! (movie, h))) else []).
Proof.
  intros Hrun h.
  destruct (affix_region_table_form _ _ _ _ _ Hrun) as [Hhq _].
  destruct (affix_region_table_spec tbl movie ab Hhq)
    as (out0 & ab0 & Hrun0 & Hother & Hblocks & _).
  assert (out0 = out) as -> by congruence.
  case_decide as Hh; [|by rewrite Hother].
  destruct (Hblocks h Hh) as (L & hq & HL & Hfirst & ->).
  destruct (first_hq_row_Some tbl h Hhq Hh) as (hq' & Hfirst' & _ & Hty & _).
  assert (hq' = hq) as -> by congruence.
  unfold synthesized_rows. destruct (ab !! (movie, h)) as [l|]; simpl.
  - rewrite filter_app, (proj2 (affix_rows_types h (list_sort l) 0)).
    rewrite filter_cons_False by (simpl; unfold ADAPTER_REGION, INSERT_REGION; lia).
    rewrite filter_cons_False by (simpl; unfold INSERT_REGION; lia).
    by rewrite filter_nil, app_nil_r.
  - done.
Qed.

Lemma region_table_insert_rows_witness :
  affix_region_table affix_table "m1" affix_table_bounds =
    Ok (synthesized_table affix_table "m1" affix_table_bounds,
        <[("m1"%string, 3) := [(0, 20); (60, 100)]]> affix_table_bounds) ∧
  ∀ h,
    filter (λ r, col_type r = INSERT_REGION)
      (hole_rows_of (synthesized_table affix_table "m1" affix_table_bounds) h) =
      (λ af, mkRow h INSERT_REGION af.1 af.2 (-1)) <$>
        (if decide (h ∈ col_hole <$> affix_table)
         then list_sort (default [] (affix_table_bounds !! ("m1"%string, h)))
         else []).
Proof.
  assert (affix_region_table affix_table "m1" affix_table_bounds =
    Ok (synthesized_table affix_table "m1" affix_table_bounds,
        <[("m1"%string, 3) := [(0, 20); (60, 100)]]> affix_table_bounds))
    as H1 by (vm_compute; reflexivity).
  split; [exact H1|].
  exact (region_table_insert_rows affix_table "m1" affix_table_bounds _ _ H1).
Defined.

(** ** [affix_region_table]: what the table depends on *)

Lemma list_sort_unique l1 l2 : l1 ≡ₚ l2 → list_sort l1 = list_sort l2.
Proof.
  intros Hp. apply (StronglySorted_unique tuple_le).
  - apply list_sort_StronglySorted.
  - apply list_sort_StronglySorted.
  - by rewrite !list_sort_Permutation.
Qed.

Lemma list_sort_idemp l : list_sort (list_sort l) = list_sort l.
Proof. apply list_sort_unique, list_sort_Permutation. Qed.

Lemma synthesized_table_ext tbl movie ab1 ab2 :
  (∀ h, h ∈ col_hole <$> tbl →
        list_sort <$> ab1 !! (movie, h) = list_sort <$> ab2 !! (movie, h)) →
  synthesized_table tbl movie ab1 = synthesized_table tbl movie ab2.
Proof.
  intros Hsame. unfold synthesized_table.
  assert (∀ h, h ∈ numpy_unique (col_hole <$> tbl) → h ∈ col_hole <$> tbl)
    as Hin by (intros h; apply numpy_unique_elem_of).
  induction (numpy_unique (col_hole <$> tbl)) as [|h hs IH]; simpl; [done|].
  rewrite IH by (intros h' Hh'; apply Hin; by right). f_equal.
  unfold synthesized_block.
  destruct (read_length tbl h) as [L|]; [|done].
  destruct (first_hq_row tbl h) as [hq|]; [|done].
  specialize (Hsame h (Hin h ltac:(left))).
  unfold synthesized_rows.
  destruct (ab1 !! (movie, h)) as [l1|], (ab2 !! (movie, h)) as [l2|];
    simpl in Hsame; try done.
  injection Hsame as Hsame. by rewrite Hsame.
Qed.

(** X10: calling [affix_region_table] a second time, with the affix
    bounds as the first call left them, returns the same table and
    leaves the affix bounds as they are: the in-place sorting of the
    first call does not change what a later call computes. *)
Theorem affix_region_table_again (tbl : list region_row) (movie : string)
    (ab ab' : gmap subread_key (list bounds)) (out : list region_row) :
  affix_region_table tbl movie ab = Ok (out, ab') →
  affix_region_table tbl movie ab' = Ok (out, ab').
Proof.
  intros Hrun.
  destruct (affix_region_table_form _ _ _ _ _ Hrun) as [Hhq ->].
  destruct (affix_region_table_spec tbl movie ab Hhq)
    as (out1 & ab1 & Hrun1 & _ & _ & Hin1 & Hout1).
  assert (ab1 = ab') as -> by congruence.
  destruct (affix_region_table_spec tbl movie ab' Hhq)
    as (out2 & ab2 & Hrun2 & _ & _ & Hin2 & Hout2).
  rewrite Hrun2.
  destruct (affix_region_table_form _ _ _ _ _ Hrun2) as [_ ->].
  f_equal. f_equal.
  - apply synthesized_table_ext. intros h Hh. rewrite (Hin1 h Hh).
    destruct (ab !! (movie, h)); simpl; [|done].
    by rewrite list_sort_idemp.
  - apply map_eq. intros [m h].
    destruct (decide (m = movie ∧ h ∈ col_hole <$> tbl)) as [[-> Hh]|Hno].
    + pose proof (Hin1 h Hh) as E1. pose proof (Hin2 h Hh) as E2.
      etransitivity; [exact E2|]. etransitivity; [|symmetry; exact E1].
      etransitivity; [exact (f_equal (fmap list_sort) E1)|].
      destruct (ab !! (movie, h)); simpl; [|done].
      by rewrite list_sort_idemp.
    + apply Hout2. intros h' Hh' [= -> ->]. by apply Hno.
Qed.

Lemma affix_region_table_again_witness :
  affix_region_table affix_table "m1" affix_table_bounds =
    Ok (synthesized_table affix_table "m1" affix_table_bounds,
        <[("m1"%string, 3) := [(0, 20); (60, 100)]]> affix_table_bounds) ∧
  affix_region_table affix_table "m1"
    (<[("m1"%string, 3) := [(0, 20); (60, 100)]]> affix_table_bounds) =
    Ok (synthesized_table affix_table "m1" affix_table_bounds,
        <[("m1"%string, 3) := [(0, 20); (60, 100)]]> affix_table_bounds).
Proof.
  assert (affix_region_table affix_table "m1" affix_table_bounds =
    Ok (synthesized_table affix_table "m1" affix_table_bounds,
        <[("m1"%string, 3) := [(0, 20); (60, 100)]]> affix_table_bounds))
    as H1 by (vm_compute; reflexivity).
  split; [exact H1|].
  exact (affix_region_table_again affix_table "m1" affix_table_bounds _ _ H1).
Defined.

(** X11: the table that [affix_region_table] returns depends on the
    affix bounds only through the intervals recorded for the holes of
    this movie, and not on the order in which they were appended: with
    two dictionaries that hold the same intervals for every hole of the
    movie up to order, the call returns the same table or fails for
    both. *)
Theorem affix_region_table_order_free (tbl : list region_row)
    (movie : string) (ab1 ab2 : gmap subread_key (list bounds)) :
  same_affixes movie ab1 ab2 →
  (∀ out, (∃ ab', affix_region_table tbl movie ab1 = Ok (out, ab')) ↔
          (∃ ab', affix_region_table tbl movie ab2 = Ok (out, ab'))) ∧
  (∀ e, affix_region_table tbl movie ab1 = Raise e ↔
        affix_region_table tbl movie ab2 = Raise e).
Proof.
  intros Hsame.
  assert (synthesized_table tbl movie ab1 = synthesized_table tbl movie ab2)
    as Htbl.
  { apply synthesized_table_ext. intros h _. specialize (Hsame h).
    destruct (ab1 !! (movie, h)) as [l1|], (ab2 !! (movie, h)) as [l2|];
      simpl; try done.
    f_equal. by apply list_sort_unique. }
  destruct (decide (has_hq_rows tbl)) as [Hhq|Hhq].
  - destruct (affix_region_table_spec tbl movie ab1 Hhq)
      as (out1 & ab1' & Hrun1 & _).
    destruct (affix_region_table_spec tbl movie ab2 Hhq)
      as (out2 & ab2' & Hrun2 & _).
    destruct (affix_region_table_form _ _ _ _ _ Hrun1) as [_ ->].
    destruct (affix_region_table_form _ _ _ _ _ Hrun2) as [_ ->].
    rewrite Hrun1, Hrun2, Htbl. split.
    + intros out. split; intros [ab' [= <- _]]; eauto.
    + intros e. split; intros [=].
  - assert (∀ ab, affix_region_table tbl movie ab = Raise IndexError) as Hr.
    { intros ab. destruct (affix_region_table tbl movie ab) as [[out ab']|e] eqn:Hrun.
      - by destruct (affix_region_table_form _ _ _ _ _ Hrun).
      - unfold affix_region_table in Hrun.
        rewrite region_table_loop_no_hq in Hrun; [done|..].
        + intros h. apply numpy_unique_elem_of.
        + destruct (decide (Exists (λ h, first_hq_row tbl h = None)
                              (numpy_unique (col_hole <$> tbl)))) as [|Hne];
            [done|].
          destruct Hhq. apply has_hq_rows_first. intros h Hh.
          destruct (first_hq_row tbl h) eqn:Hfirst; [eauto|].
          destruct Hne. apply Exists_exists. exists h.
          by rewrite numpy_unique_elem_of. }
    rewrite !Hr. split.
    + intros out. split; intros [ab' [=]].
    + done.
Qed.

Lemma affix_region_table_order_free_witness :
  same_affixes "m1" affix_table_bounds
    (<[("m1"%string, 3) := [(0, 20); (60, 100)]]> affix_table_bounds) ∧
  (∀ out, (∃ ab', affix_region_table affix_table "m1" affix_table_bounds
                    = Ok (out, ab')) ↔
          (∃ ab', affix_region_table affix_table "m1"
                    (<[("m1"%string, 3) := [(0, 20); (60, 100)]]>
                       affix_table_bounds) = Ok (out, ab'))) ∧
  (∀ e, affix_region_table affix_table "m1" affix_table_bounds = Raise e ↔
        affix_region_table affix_table "m1"
          (<[("m1"%string, 3) := [(0, 20); (60, 100)]]> affix_table_bounds)
          = Raise e).
Proof.
  assert (same_affixes "m1" affix_table_bounds
    (<[("m1"%string, 3) := [(0, 20); (60, 100)]]> affix_table_bounds)) as H1.
  { intros h. destruct (decide (h = 3)) as [->|Hne].
    - rewrite lookup_insert_eq. vm_compute. apply perm_swap.
    - rewrite lookup_insert_ne by congruence.
      by destruct (affix_table_bounds !! ("m1"%string, h)). }
  split; [exact H1|].
  exact (affix_region_table_order_free affix_table "m1" _ _ H1).
Defined.

Lemma synthesized_block_hole tbl movie ab h :
  Forall (λ r, col_hole r = h) (synthesized_block tbl movie ab h).
Proof.
  unfold synthesized_block.
  destruct (read_length tbl h) as [L|]; [|constructor].
  destruct (first_hq_row tbl h) as [hq|] eqn:Hfirst; [|constructor].
  apply synthesized_rows_hole.
  unfold first_hq_row in Hfirst. apply head_Some_elem_of in Hfirst.
  apply list_elem_of_filter in Hfirst as [_ Hfirst].
  unfold hole_rows_of in Hfirst.
  by apply list_elem_of_filter in Hfirst as [? _].
Qed.

Lemma same_hole_sorted h (rows : list region_row) :
  Forall (λ r, col_hole r = h) rows → StronglySorted Z.le (col_hole <$> rows).
Proof.
  induction 1 as [|r rs Hr Hrs IH]; [constructor|].
  rewrite fmap_cons. constructor; [done|].
  apply Forall_fmap. eapply Forall_impl; [exact Hrs|].
  simpl. intros r' Hr'. lia.
Qed.

Lemma flat_map_holes_sorted (f : Z → list region_row) hs :
  StronglySorted Z.le hs →
  (∀ h, Forall (λ r, col_hole r = h) (f h)) →
  StronglySorted Z.le (col_hole <$> flat_map f hs).
Proof.
  intros Hs Hf. induction Hs as [|h hs Hs IH Hall]; [constructor|].
  cbn [flat_map]. rewrite fmap_app. apply StronglySorted_app_2;
    [|by apply same_hole_sorted with h|exact IH].
  intros x y [r [-> Hr]]%list_elem_of_fmap [r' [-> Hr']]%list_elem_of_fmap.
  apply elem_of_flat_map in Hr' as (h' & Hh' & Hr').
  rewrite Forall_forall in Hall.
  pose proof (Hf h) as Hfh. rewrite Forall_forall in Hfh.
  pose proof (Hf h') as Hfh'. rewrite Forall_forall in Hfh'.
  rewrite (Hfh r Hr), (Hfh' r' Hr'). by apply Hall.
Qed.

(** X12: a table returned by [affix_region_table] is grouped by hole in
    ascending order of the hole number, and its holes are exactly the
    holes of the original table. *)
Theorem region_table_holes (tbl : list region_row) (movie : string)
    (ab ab' : gmap subread_key (list bounds)) (out : list region_row) :
  affix_region_table tbl movie ab = Ok (out, ab') →
  StronglySorted Z.le (col_hole <$> out) ∧
  ∀ h, h ∈ col_hole <$> out ↔ h ∈ col_hole <$> tbl.
Proof.
  intros Hrun.
  destruct (affix_region_table_form _ _ _ _ _ Hrun) as [Hhq ->].
  split.
  - apply flat_map_holes_sorted.
    + unfold numpy_unique. apply StronglySorted_merge_sort; apply _.
    + intros h. apply synthesized_block_hole.
  - intros h. unfold synthesized_table. split.
    + intros [r [-> Hr]]%list_elem_of_fmap.
      apply elem_of_flat_map in Hr as (h' & Hh' & Hr).
      pose proof (synthesized_block_hole tbl movie ab h') as Hb.
      rewrite Forall_forall in Hb. rewrite (Hb r Hr).
      by apply numpy_unique_elem_of.
    + intros Hh.
      destruct (read_length_Ok tbl h Hh) as [L HL].
      destruct (first_hq_row_Some tbl h Hhq Hh) as (hq & Hfirst & _).
      pose proof (synthesized_block_hole tbl movie ab h) as Hb.
      unfold synthesized_block in Hb. rewrite HL, Hfirst in Hb.
      destruct (synthesized_rows h (ab !! (movie, h)) L hq) as [|r rs] eqn:Hrows;
        [by apply synthesized_rows_nonempty in Hrows|].
      apply Forall_cons in Hb as [Hr _].
      apply list_elem_of_fmap. exists r. split; [done|].
      apply elem_of_flat_map. exists h. split.
      * by apply numpy_unique_elem_of.
      * unfold synthesized_block. rewrite HL, Hfirst, Hrows. left.
Qed.

Lemma region_table_holes_witness :
  affix_region_table affix_table "m1" affix_table_bounds =
    Ok (synthesized_table affix_table "m1" affix_table_bounds,
        <[("m1"%string, 3) := [(0, 20); (60, 100)]]> affix_table_bounds) ∧
  StronglySorted Z.le
    (col_hole <$> synthesized_table affix_table "m1" affix_table_bounds) ∧
  ∀ h, h ∈ col_hole <$> synthesized_table affix_table "m1" affix_table_bounds
       ↔ h ∈ col_hole <$> affix_table.
Proof.
  assert (affix_region_table affix_table "m1" affix_table_bounds =
    Ok (synthesized_table affix_table "m1" affix_table_bounds,
        <[("m1"%string, 3) := [(0, 20); (60, 100)]]> affix_table_bounds))
    as H1 by (vm_compute; reflexivity).
  split; [exact H1|].
  exact (region_table_holes affix_table "m1" affix_table_bounds _ _ H1).
Defined.

(** ** [subread_dictionary]: the entries of the index *)

Lemma dict_keys_is_Some {K V} `{EqDecision K} (d : list (K * V)) k :
  k ∈ dict_keys d ↔ is_Some (dict_get d k).
Proof.
  split; [apply dict_keys_get|]. intros [v Hv].
  by apply dict_get_Some_keys in Hv.
Qed.

Lemma dict_keys_set {K V} `{EqDecision K} (d : list (K * V)) k v k' :
  k' ∈ dict_keys (dict_set d k v) ↔ k' = k ∨ k' ∈ dict_keys d.
Proof.
  rewrite !dict_keys_is_Some, dict_get_set.
  destruct (decide (k = k')) as [->|Hne].
  - split; eauto.
  - split; [auto|]. intros [->|?]; done.
Qed.

Lemma second_keys_fold_keys {A} (regions : list bounds) :
  ∀ (inner : list (bounds * option A)) sb,
    sb ∈ dict_keys (foldl (λ i sk, dict_set i sk None) inner regions) ↔
    sb ∈ dict_keys inner ∨ sb ∈ regions.
Proof.
  induction regions as [|r regions IH]; intros inner sb; simpl.
  - rewrite elem_of_nil. tauto.
  - rewrite IH, dict_keys_set, elem_of_cons. tauto.
Qed.

Lemma second_keys_fold_values {A} (regions : list bounds) :
  ∀ (inner : list (bounds * option A)) sb v,
    dict_get (foldl (λ i sk, dict_set i sk None) inner regions) sb = Some v →
    v = None ∨ dict_get inner sb = Some v.
Proof.
  induction regions as [|r regions IH]; intros inner sb v; simpl; [auto|].
  intros [->|Hv]%IH; [auto|]. rewrite dict_get_set in Hv.
  destruct (decide (r = sb)); [left; congruence|auto].
Qed.

Lemma second_keys_fold_get {A} (first_key : subread_key)
    (regions : list bounds) :
  ∀ (d : subread_dict (option A)) inner key,
    dict_get d first_key = Some inner →
    dict_get
      (foldl (λ d second_key,
                dict_set d first_key
                  (dict_set (default [] (dict_get d first_key)) second_key None))
         d regions) key =
    if decide (key = first_key)
    then Some (foldl (λ i sk, dict_set i sk None) inner regions)
    else dict_get d key.
Proof.
  induction regions as [|r regions IH]; intros d inner key Hget; simpl.
  - case_decide; congruence.
  - erewrite IH; [|apply dict_get_set_eq]. rewrite Hget. simpl.
    case_decide; [done|]. by rewrite dict_get_set_ne.
Qed.

Lemma subread_dictionary_step_get {A} movie (d : subread_dict (option A))
    zmw (key : subread_key) :
  dict_get (subread_dictionary_step movie d zmw) key =
    if decide (key = (movie, holeNumber zmw))
    then Some (foldl (λ i sk, dict_set i sk None)
                 (default [] (dict_get d key)) (insertRegions zmw))
    else dict_get d key.
Proof.
  unfold subread_dictionary_step.
  destruct (dict_get d (movie, holeNumber zmw)) as [inner|] eqn:Hget.
  - erewrite second_keys_fold_get; [|exact Hget].
    case_decide as Hk; [|done]. by rewrite Hk, Hget.
  - erewrite second_keys_fold_get; [|apply dict_get_set_eq].
    case_decide as Hk.
    + by rewrite Hk, Hget.
    + by rewrite dict_get_set_ne.
Qed.

(** X13: the index built by [subread_dictionary].  Its keys are the
    pairs of the movie name and the hole number of a ZMW of the reader;
    the inner dictionary of a hole has one entry for every insert
    region of the ZMWs of that hole, and every entry holds [None]. *)
Theorem subread_dictionary_entries {A} (movieName : string)
    (bash5_reader : list Zmw) (key : subread_key) :
  (is_Some (dict_get (subread_dictionary (A:=A) movieName bash5_reader) key) ↔
   ∃ zmw, zmw ∈ bash5_reader ∧ key = (movieName, holeNumber zmw)) ∧
  ∀ inner,
    dict_get (subread_dictionary (A:=A) movieName bash5_reader) key
      = Some inner →
    ∀ sb,
      (sb ∈ dict_keys inner ↔
       ∃ zmw, zmw ∈ bash5_reader ∧ key = (movieName, holeNumber zmw) ∧
              sb ∈ insertRegions zmw) ∧
      (∀ v, dict_get inner sb = Some v → v = None).
Proof.
  unfold subread_dictionary.
  induction bash5_reader as [|zmw zmws IH] using rev_ind.
  - simpl. split.
    + split; [by intros [? ?]|]. by intros (? & ?%elem_of_nil & _).
    + done.
  - rewrite foldl_app. simpl. rewrite subread_dictionary_step_get.
    destruct IH as [IHkey IHinner]. split.
    + case_decide as Hk.
      * split; [|eauto]. intros _. exists zmw. split; [|done].
        apply elem_of_app. right. left.
      * rewrite IHkey. split.
        -- intros (z & Hz & ->). exists z. split; [|done].
           apply elem_of_app. by left.
        -- intros (z & [Hz|Hz%list_elem_of_singleton]%elem_of_app & ->);
             [eauto|]. by subst z.
    + intros inner Hget sb. case_decide as Hk.
      * injection Hget as <-. split.
        -- rewrite second_keys_fold_keys. split.
           ++ intros [Hsb|Hsb].
              ** destruct (dict_get (foldl (subread_dictionary_step movieName)
                                       [] zmws) key) as [inner0|] eqn:Hget0;
                   [|by apply elem_of_nil in Hsb].
                 simpl in Hsb.
                 destruct (IHinner inner0 eq_refl sb) as [Hkeys _].
                 apply Hkeys in Hsb as (z & Hz & Hkz & Hsb).
                 exists z. split_and!; [|done..].
                 apply elem_of_app. by left.
              ** exists zmw. split_and!; [|done..].
                 apply elem_of_app. right. left.
           ++ intros (z & [Hz|Hz%list_elem_of_singleton]%elem_of_app
                      & Hkz & Hsb).
              ** left.
                 assert (is_Some (dict_get
                           (foldl (subread_dictionary_step movieName) [] zmws)
                           key)) as [inner0 Hget0] by (apply IHkey; eauto).
                 rewrite Hget0. simpl.
                 destruct (IHinner inner0 Hget0 sb) as [Hkeys _].
                 apply Hkeys. eauto.
              ** right. by subst z.
        -- intros v [->|Hv]%second_keys_fold_values; [done|].
           destruct (dict_get (foldl (subread_dictionary_step movieName)
                                 [] zmws) key) as [inner0|] eqn:Hget0;
             [|done].
           simpl in Hv. by destruct (IHinner inner0 eq_refl sb) as [_ Hv0];
             apply Hv0.
      * destruct (IHinner inner Hget sb) as [Hkeys Hvals]. split; [|done].
        rewrite Hkeys. split.
        -- intros (z & Hz & Hkz & Hsb). exists z. split_and!; [|done..].
           apply elem_of_app. by left.
        -- intros (z & [Hz|Hz%list_elem_of_singleton]%elem_of_app
                   & Hkz & Hsb); [eauto|]. by subst z.
Qed.

(** ** The aggregation passes, subread by subread *)

(** A loop whose body either advances an invariant or raises [e] on the
    elements that are [bad]. *)
Lemma for_each_guarded {A S} (Inv : list A → S → Prop) (bad : A → Prop)
    `{∀ x, Decision (bad x)} (e : exn) (body : S → A → result S) :
  (∀ processed s x, Inv processed s → ¬ bad x →
     ∃ s', body s x = Ok s' ∧ Inv (processed ++ [x]) s') →
  (∀ processed s x, Inv processed s → bad x → body s x = Raise e) →
  ∀ l processed s, Inv processed s →
    (Forall (λ x, ¬ bad x) l ∧
     ∃ s', for_each body s l = Ok s' ∧ Inv (processed ++ l) s') ∨
    (Exists bad l ∧ for_each body s l = Raise e).
Proof.
  intros Hgood Hbad. induction l as [|x l IH]; intros processed s HI.
  - left. split; [constructor|]. exists s. by rewrite app_nil_r.
  - cbn [for_each]. destruct (decide (bad x)) as [Hx|Hx].
    + right. split; [by left|]. by rewrite (Hbad processed s x).
    + destruct (Hgood processed s x HI Hx) as (s1 & -> & HI1). cbn [rbind].
      destruct (IH _ _ HI1) as [(Hall & s' & Hrun & HI')|(Hex & Hrun)].
      * left. split; [by constructor|]. exists s'.
        by rewrite <-app_assoc in HI'.
      * right. split; [by right|done].
Qed.

Lemma in_gap_find {V} (sd : subread_dict V) a key :
  find_subread_entry a sd = (Some key, None) → in_gap sd a.
Proof.
  unfold find_subread_entry, in_gap.
  destruct (dict_get sd (movieInfo_Name a, HoleNumber a)) as [inner|];
    [|done].
  intros [= _ Hnone]. eauto.
Qed.

Lemma in_gap_same_entries d0 d a :
  same_entries d0 d → in_gap d0 a → in_gap d a.
Proof.
  intros Hsame Hgap. apply find_subread_entry_gap in Hgap.
  rewrite <-Hsame in Hgap. by apply in_gap_find in Hgap.
Qed.

Lemma find_subread_entry_set (d : all_subread_dict) key inner sb v a :
  dict_get d key = Some inner → sb ∈ dict_keys inner →
  find_subread_entry a (dict_set d key (dict_set inner sb v)) =
  find_subread_entry a d.
Proof.
  intros Hget Hsb. unfold find_subread_entry. rewrite dict_get_set.
  case_decide as Hk; [|done]. subst key. rewrite Hget.
  by rewrite dict_keys_set_present.
Qed.

Lemma slots_are_ext d0 d F G :
  (∀ key sb, G key sb = F key sb) → slots_are d0 d F → slots_are d0 d G.
Proof.
  intros HG Hs key inner0 sb H0 Hsb.
  destruct (Hs key inner0 sb H0 Hsb) as (inner & Hget & Hslot).
  exists inner. by rewrite HG.
Qed.

Lemma slots_are_set d0 (d : all_subread_dict) F G (key : subread_key)
    (inner : list (bounds * option role_map)) (sb : bounds) v :
  slots_are d0 d F → dict_get d key = Some inner →
  G key sb = v →
  (∀ key' sb', (key', sb') ≠ (key, sb) → G key' sb' = F key' sb') →
  slots_are d0 (dict_set d key (dict_set inner sb v)) G.
Proof.
  intros Hs Hget Hv Hother key' inner0 sb' H0 Hsb'.
  destruct (Hs key' inner0 sb' H0 Hsb') as (inner' & Hget' & Hslot').
  rewrite dict_get_set. case_decide as Hk.
  - subst key'. assert (inner' = inner) as -> by congruence.
    exists (dict_set inner sb v). split; [done|].
    rewrite dict_get_set. case_decide as Hb.
    + subst sb'. by rewrite Hv.
    + rewrite Hother by congruence. done.
  - exists inner'. split; [done|]. rewrite Hother by congruence. done.
Qed.

Lemma fresh_index_slots d0 : fresh_index d0 → slots_are d0 d0 (λ _ _, None).
Proof.
  intros Hfresh key inner0 sb H0 Hsb. exists inner0. split; [done|].
  apply dict_keys_get in Hsb as [v Hv]. rewrite Hv. f_equal.
  pose proof (subread_dict_inner_None d0 key inner0 Hfresh H0) as Hnone.
  rewrite Forall_forall in Hnone.
  apply dict_get_Some_elem in Hv. exact (Hnone _ Hv).
Qed.

Lemma primary_pass_start d0 :
  fresh_index d0 → primary_pass_inv d0 [] (d0, no_locals).
Proof.
  intros Hfresh. split_and!; cbn [fst snd].
  - done.
  - eapply slots_are_ext; [|by apply fresh_index_slots]. done.
  - right. done.
Qed.

Lemma primary_step_advances d0 processed d loc a :
  primary_pass_inv d0 processed (d, loc) → ¬ in_gap d0 a →
  ∃ st', primary_step (d, loc) a = Ok st' ∧
         primary_pass_inv d0 (processed ++ [a]) st'.
Proof.
  intros (Hsame & Hslots & Hloc) Hgap. cbn [fst snd] in *.
  unfold primary_step. rewrite Hsame.
  destruct (find_subread_entry a d0) as [[key|] ob] eqn:Hfind.
  - destruct ob as [sb|]; [|by apply in_gap_find in Hfind].
    destruct (find_subread_entry_located d0 a key sb Hfind)
      as (inner0 & H0 & Hsb & _).
    destruct (Hslots key inner0 sb H0 Hsb) as (inner & Hget & Hslot).
    assert (∃ loc',
      existing_aligment loc' = Some None ∧
      (slot ←r dict_getitem_opt inner (Some sb);
       loc ←r match slot with
              | Some roles =>
                  p ←r dict_getitem roles "primary"%string;
                  Ok (mkLocals (Some (Some p)) (existing_aligment loc))
              | None => Ok (mkLocals (existing_alignment loc) (Some None))
              end;
       typo ←r read_local (existing_aligment loc);
       replace ←r match typo with
                  | None => Ok true
                  | Some _ =>
                      existing ←r read_local (existing_alignment loc);
                      q ←r getitem_map_qv existing;
                      Ok (bool_decide (q < MapQV a))
                  end;
       if (replace : bool) then
         Ok (dict_set d key
               (dict_set inner sb
                  (Some [("primary"%string, alignment_to_output_dict a sb)])),
             loc)
       else Ok (d, loc)) =
      Ok (dict_set d key
            (dict_set inner sb
               (Some [("primary"%string, alignment_to_output_dict a sb)])),
          loc')) as (loc' & Hloc' & Hrun).
    { unfold dict_getitem_opt, dict_getitem. rewrite Hslot. cbn [rbind].
      unfold roles_of.
      destruct (last (located d0 key sb processed)) as [b|] eqn:Hlast.
      - cbn [foldl dict_get]. rewrite decide_True by done. cbn [rbind].
        destruct Hloc as [Hl|[_ Hempty]];
          [|by rewrite Hempty in Hlast].
        cbn [existing_aligment]. rewrite Hl. cbn [read_local rbind].
        eexists. split; [|reflexivity]. done.
      - cbn [rbind existing_aligment read_local].
        eexists. split; [|reflexivity]. done. }
    unfold dict_getitem at 1. rewrite Hget. cbn [rbind].
    eexists. split; [exact Hrun|].
    assert (sb ∈ dict_keys inner) as Hsb'
      by (by eapply dict_get_Some_keys).
    split_and!; cbn [fst snd].
    + intros a'. rewrite find_subread_entry_set by done. apply Hsame.
    + eapply slots_are_set; [exact Hslots|exact Hget|..].
      * rewrite (located_snoc_same _ _ _ _ _ Hfind). unfold roles_of.
        by rewrite last_snoc.
      * intros key' sb' Hne. cbv beta.
        rewrite located_snoc_other; [done|]. rewrite Hfind. congruence.
    + by left.
  - exists (d, loc). split; [done|].
    assert (∀ key sb,
              located d0 key sb (processed ++ [a]) = located d0 key sb processed)
      as Hsame_located.
    { intros key sb. apply located_snoc_other. by rewrite Hfind. }
    split_and!; cbn [fst snd].
    + done.
    + eapply slots_are_ext; [|exact Hslots]. intros key sb. cbv beta.
      by rewrite Hsame_located.
    + destruct Hloc as [?|[? Hempty]]; [by left|right].
      split; [done|]. intros key sb. by rewrite Hsame_located.
Qed.

Lemma primary_step_stops d0 processed d loc a :
  primary_pass_inv d0 processed (d, loc) → in_gap d0 a →
  primary_step (d, loc) a = Raise KeyError.
Proof.
  intros (Hsame & _) Hgap. apply primary_step_gap.
  by eapply in_gap_same_entries.
Qed.

Lemma affix_role_cases ad pd t :
  affix_role ad pd = Some t → t = "prefix"%string ∨ t = "suffix"%string.
Proof.
  unfold affix_role. repeat case_decide; intros [=]; auto.
Qed.

Lemma affix_update_primary sb roles a :
  dict_get (affix_update sb roles a) "primary"%string =
  dict_get roles "primary"%string.
Proof.
  unfold affix_update.
  destruct (dict_get roles "primary"%string) as [p|] eqn:Hp; [|done].
  destruct (affix_role (alignment_to_output_dict a sb) p) as [t|] eqn:Ht;
    [|done].
  assert (t ≠ "primary"%string) as Hne
    by (apply affix_role_cases in Ht as [->| ->]; done).
  destruct (dict_get roles t) as [e|].
  - case_decide; [|done]. by rewrite dict_get_set_ne.
  - by rewrite dict_get_set_ne.
Qed.

Lemma affix_fold_primary sb p l :
  dict_get (foldl (affix_update sb) [("primary"%string, p)] l)
    "primary"%string = Some p.
Proof.
  induction l as [|a l IH] using rev_ind.
  - cbn [foldl dict_get]. by rewrite decide_True.
  - by rewrite foldl_app; cbn [foldl]; rewrite affix_update_primary.
Qed.

(** One step of the affix pass on a subread that holds roles. *)
Lemma affix_step_update (d : all_subread_dict) loc a (key : subread_key)
    (sb : bounds) (inner : list (bounds * option role_map))
    (roles : role_map) :
  find_subread_entry a d = (Some key, Some sb) →
  dict_get d key = Some inner →
  dict_get inner sb = Some (Some roles) →
  is_Some (dict_get roles "primary"%string) →
  ∃ d' loc',
    affix_step (d, loc) a = Ok (d', loc') ∧
    ((d' = d ∧ affix_update sb roles a = roles) ∨
     d' = dict_set d key (dict_set inner sb (Some (affix_update sb roles a)))).
Proof.
  intros Hfind Hget Hslot [p Hp].
  unfold affix_step. rewrite Hfind. unfold dict_getitem_opt, dict_getitem.
  rewrite Hget. cbn [rbind]. rewrite Hslot. cbn [rbind].
  rewrite Hp. cbn [rbind].
  unfold affix_update. rewrite Hp. unfold affix_role.
  assert (∀ t : string,
    ∃ d' loc',
      (if match dict_get roles t with
          | Some e => bool_decide (map_qv e < MapQV a)
          | None => true
          end
       then Ok (dict_set d key
                  (dict_set inner sb
                     (Some (dict_set roles t (alignment_to_output_dict a sb)))),
                mkLocals (Some (dict_get roles t)) (existing_aligment loc))
       else Ok (d, mkLocals (Some (dict_get roles t)) (existing_aligment loc)))
      = Ok (d', loc') ∧
      ((d' = d ∧
        match dict_get roles t with
        | Some e =>
            if decide (map_qv e < MapQV a)
            then dict_set roles t (alignment_to_output_dict a sb)
            else roles
        | None => dict_set roles t (alignment_to_output_dict a sb)
        end = roles) ∨
       d' = dict_set d key
              (dict_set inner sb
                 (Some match dict_get roles t with
                       | Some e =>
                           if decide (map_qv e < MapQV a)
                           then dict_set roles t
                                  (alignment_to_output_dict a sb)
                           else roles
                       | None =>
                           dict_set roles t (alignment_to_output_dict a sb)
                       end)))) as Hstore.
  { intros t. destruct (dict_get roles t) as [e|].
    - destruct (decide (map_qv e < MapQV a)) as [Hlt|Hge].
      + rewrite bool_decide_true by done. eexists _, _. split; [done|].
        by right.
      + rewrite bool_decide_false by done. eexists _, _. split; [done|].
        by left.
    - eexists _, _. split; [done|]. by right. }
  destruct (decide (subread_end (alignment_to_output_dict a sb)
                    ≤ subread_start p)).
  - apply Hstore.
  - destruct (decide (subread_end p
                      ≤ subread_start (alignment_to_output_dict a sb))).
    + apply Hstore.
    + eexists _, _. split; [done|]. by left.
Qed.

Lemma affix_pass_start d0 primary_aligns st :
  primary_pass_inv d0 primary_aligns st →
  affix_pass_inv d0 primary_aligns [] st.
Proof. intros (Hsame & Hslots & _). by split. Qed.

Lemma affix_step_advances d0 primary_aligns processed d loc a :
  affix_pass_inv d0 primary_aligns processed (d, loc) → ¬ in_gap d0 a →
  ∃ st', affix_step (d, loc) a = Ok st' ∧
         affix_pass_inv d0 primary_aligns (processed ++ [a]) st'.
Proof.
  intros (Hsame & Hslots) Hgap. cbn [fst snd] in *.
  destruct (find_subread_entry a d0) as [[key|] ob] eqn:Hfind.
  - destruct ob as [sb|]; [|by apply in_gap_find in Hfind].
    destruct (find_subread_entry_located d0 a key sb Hfind)
      as (inner0 & H0 & Hsb & _).
    destruct (Hslots key inner0 sb H0 Hsb) as (inner & Hget & Hslot).
    assert (∀ key' sb', (key', sb') ≠ (key, sb) →
              located d0 key' sb' (processed ++ [a])
              = located d0 key' sb' processed) as Hother.
    { intros key' sb' Hne. apply located_snoc_other. rewrite Hfind.
      congruence. }
    pose proof (located_snoc_same d0 key sb processed a Hfind) as Hhere.
    assert (sb ∈ dict_keys inner) as Hsb'
      by (by eapply dict_get_Some_keys).
    unfold roles_of in Hslot.
    destruct (last (located d0 key sb primary_aligns)) as [b|] eqn:Hlast.
    + destruct (affix_step_update d loc a key sb inner _
                  ltac:(by rewrite Hsame) Hget Hslot
                  ltac:(by rewrite affix_fold_primary))
        as (d' & loc' & Hrun & [[-> Hsame_roles]|Hd']).
      * exists (d, loc'). split; [done|]. split; cbn [fst snd]; [done|].
        eapply slots_are_ext; [|exact Hslots]. intros key' sb'. cbv beta.
        destruct (decide ((key', sb') = (key, sb))) as [[= -> ->]|Hne].
        -- rewrite Hhere. unfold roles_of. rewrite Hlast.
           by rewrite foldl_app; cbn [foldl]; rewrite Hsame_roles.
        -- by rewrite Hother.
      * exists (d', loc'). split; [done|]. subst d'.
        split; cbn [fst snd].
        -- intros a'. rewrite find_subread_entry_set by done. apply Hsame.
        -- eapply slots_are_set; [exact Hslots|exact Hget|..].
           ++ rewrite Hhere. unfold roles_of. rewrite Hlast.
              by rewrite foldl_app.
           ++ intros key' sb' Hne. cbv beta. by rewrite Hother.
    + exists (d, loc). split.
      * unfold affix_step. rewrite Hsame, Hfind.
        unfold dict_getitem_opt, dict_getitem.
        rewrite Hget. cbn [rbind]. by rewrite Hslot.
      * split; cbn [fst snd]; [done|].
        eapply slots_are_ext; [|exact Hslots]. intros key' sb'. cbv beta.
        destruct (decide ((key', sb') = (key, sb))) as [[= -> ->]|Hne].
        -- unfold roles_of. by rewrite Hlast.
        -- by rewrite Hother.
  - exists (d, loc). split.
    + unfold affix_step. by rewrite Hsame, Hfind.
    + split; cbn [fst snd]; [done|].
      eapply slots_are_ext; [|exact Hslots]. intros key sb. cbv beta.
      rewrite located_snoc_other; [done|]. by rewrite Hfind.
Qed.

Lemma affix_step_stops d0 primary_aligns processed d loc a :
  affix_pass_inv d0 primary_aligns processed (d, loc) → in_gap d0 a →
  affix_step (d, loc) a = Raise KeyError.
Proof.
  intros (Hsame & _) Hgap. apply affix_step_gap.
  by eapply in_gap_same_entries.
Qed.

(** Both passes from a fresh index: they end unless an alignment falls
    in a gap, and then every subread holds [roles_of] its alignments. *)
Lemma aggregate_cases d0 primary_aligns affix_aligns :
  fresh_index d0 →
  (Forall (λ a, ¬ in_gap d0 a) (primary_aligns ++ affix_aligns) ∧
   ∃ d, aggregate d0 primary_aligns affix_aligns = Ok d ∧
        same_entries d0 d ∧
        slots_are d0 d
          (λ key sb, roles_of sb (located d0 key sb primary_aligns)
                       (located d0 key sb affix_aligns))) ∨
  (Exists (in_gap d0) (primary_aligns ++ affix_aligns) ∧
   aggregate d0 primary_aligns affix_aligns = Raise KeyError).
Proof.
  intros Hfresh. unfold aggregate.
  destruct (for_each_guarded (primary_pass_inv d0) (in_gap d0) KeyError
              primary_step) with (l := primary_aligns) (processed := @nil CmpH5Alignment)
              (s := (d0, no_locals))
    as [(Hall1 & st1 & Hrun1 & HI1)|(Hex1 & Hrun1)].
  - intros processed [d loc] a. apply primary_step_advances.
  - intros processed [d loc] a. apply primary_step_stops.
  - by apply primary_pass_start.
  - rewrite Hrun1. cbn [rbind]. rewrite app_nil_l in HI1.
    destruct (for_each_guarded (affix_pass_inv d0 primary_aligns) (in_gap d0)
                KeyError affix_step) with (l := affix_aligns)
                (processed := @nil CmpH5Alignment) (s := st1)
      as [(Hall2 & st2 & Hrun2 & HI2)|(Hex2 & Hrun2)].
    + intros processed [d loc] a. apply affix_step_advances.
    + intros processed [d loc] a. apply affix_step_stops.
    + by apply affix_pass_start.
    + left. split; [by apply Forall_app|]. rewrite Hrun2. cbn [rbind].
      exists st2.1. rewrite app_nil_l in HI2. destruct HI2 as [? ?]. done.
    + right. split; [apply Exists_app; by right|]. by rewrite Hrun2.
  - right. split; [apply Exists_app; by left|]. by rewrite Hrun1.
Qed.

Lemma affix_update_role sb roles a p t :
  dict_get roles "primary"%string = Some p →
  dict_get (affix_update sb roles a) t =
    if decide (affix_role (alignment_to_output_dict a sb) p = Some t)
    then Some (better_role (dict_get roles t) (alignment_to_output_dict a sb))
    else dict_get roles t.
Proof.
  intros Hp. unfold affix_update. rewrite Hp.
  destruct (affix_role (alignment_to_output_dict a sb) p) as [t'|] eqn:Hrole.
  - case_decide as Ht.
    + injection Ht as ->. unfold better_role.
      destruct (dict_get roles t) as [e|] eqn:He.
      * cbn [map_qv alignment_to_output_dict].
        case_decide; [by rewrite dict_get_set_eq|done].
      * by rewrite dict_get_set_eq.
    + assert (t' ≠ t) as Hne by congruence.
      destruct (dict_get roles t') as [e|].
      * case_decide; [|done]. by rewrite dict_get_set_ne.
      * by rewrite dict_get_set_ne.
  - by rewrite decide_False.
Qed.

Lemma affix_fold_role sb p t l :
  t = "prefix"%string ∨ t = "suffix"%string →
  match dict_get (foldl (affix_update sb) [("primary"%string, p)] l) t with
  | Some od =>
      affix_role od p = Some t ∧
      (∃ a, a ∈ l ∧ od = alignment_to_output_dict a sb) ∧
      ∀ a', a' ∈ l → affix_role (alignment_to_output_dict a' sb) p = Some t →
            MapQV a' ≤ map_qv od
  | None =>
      ∀ a', a' ∈ l → affix_role (alignment_to_output_dict a' sb) p ≠ Some t
  end.
Proof.
  intros Ht. induction l as [|a l IH] using rev_ind.
  - cbn [foldl dict_get].
    rewrite decide_False by (destruct Ht as [-> | ->]; done).
    intros a' Ha'. by apply elem_of_nil in Ha'.
  - rewrite foldl_app. cbn [foldl].
    rewrite (affix_update_role sb _ a p t) by apply affix_fold_primary.
    destruct (decide (affix_role (alignment_to_output_dict a sb) p = Some t))
      as [Hrole|Hrole].
    + unfold better_role.
      destruct (dict_get (foldl (affix_update sb) [("primary"%string, p)] l) t)
        as [e|].
      * destruct IH as (Hre & (b & Hb & Heq) & Hmax).
        destruct (decide (map_qv e < map_qv (alignment_to_output_dict a sb)))
          as [Hlt|Hge].
        -- split_and!; [done| |].
           ++ exists a. split; [|done]. apply elem_of_app. right. left.
           ++ intros a' [Ha'|Ha']%elem_of_app Hr'.
              ** specialize (Hmax a' Ha' Hr'). lia.
              ** apply list_elem_of_singleton in Ha' as ->. done.
        -- split_and!; [done| |].
           ++ exists b. split; [|done]. apply elem_of_app. by left.
           ++ intros a' [Ha'|Ha']%elem_of_app Hr'.
              ** by apply Hmax.
              ** apply list_elem_of_singleton in Ha' as ->.
                 cbn [map_qv alignment_to_output_dict] in Hge. lia.
      * split_and!; [done| |].
        -- exists a. split; [|done]. apply elem_of_app. right. left.
        -- intros a' [Ha'|Ha']%elem_of_app Hr'.
           ++ by destruct (IH a' Ha').
           ++ apply list_elem_of_singleton in Ha' as ->. done.
    + destruct (dict_get (foldl (affix_update sb) [("primary"%string, p)] l) t)
        as [e|].
      * destruct IH as (Hre & (b & Hb & Heq) & Hmax). split_and!; [done| |].
        -- exists b. split; [|done]. apply elem_of_app. by left.
        -- intros a' [Ha'|Ha']%elem_of_app Hr'.
           ++ by apply Hmax.
           ++ apply list_elem_of_singleton in Ha' as ->. done.
      * intros a' [Ha'|Ha']%elem_of_app.
        -- by apply IH.
        -- apply list_elem_of_singleton in Ha' as ->. done.
Qed.

(** X14: the primary pass in general.  When both passes of
    [create_pbbridgemapper_output] end on a freshly built index, a
    subread holds roles exactly when some primary alignment was located
    at it, and its primary role is the record of the {e last} such
    alignment of the stream, whatever the map qualities are. *)
Theorem aggregate_primary_last (d0 d : all_subread_dict)
    (primary_cmph5_reader affix_cmph5_reader : list CmpH5Alignment) :
  fresh_index d0 →
  aggregate d0 primary_cmph5_reader affix_cmph5_reader = Ok d →
  ∀ key inner0 sb, dict_get d0 key = Some inner0 → sb ∈ dict_keys inner0 →
    ∃ inner, dict_get d key = Some inner ∧
      match last (located d0 key sb primary_cmph5_reader) with
      | None => dict_get inner sb = Some None
      | Some a =>
          ∃ roles, dict_get inner sb = Some (Some roles) ∧
                   dict_get roles "primary"%string
                     = Some (alignment_to_output_dict a sb)
      end.
Proof.
  intros Hfresh Hrun key inner0 sb H0 Hsb.
  destruct (aggregate_cases d0 primary_cmph5_reader affix_cmph5_reader Hfresh)
    as [(_ & d1 & Hrun1 & _ & Hslots)|(_ & Hrun1)]; [|congruence].
  assert (d1 = d) as -> by congruence.
  destruct (Hslots key inner0 sb H0 Hsb) as (inner & Hget & Hslot).
  exists inner. split; [done|]. unfold roles_of in Hslot.
  destruct (last (located d0 key sb primary_cmph5_reader)) as [a|]; [|done].
  eexists. split; [exact Hslot|]. apply affix_fold_primary.
Qed.

Lemma aggregate_primary_last_witness :
  fresh_index one_subread_index ∧
  aggregate one_subread_index [primary_high; primary_low] [] =
    Ok [(("m1"%string, 1),
         [((0, 1000),
           Some [("primary"%string,
                  alignment_to_output_dict primary_low (0, 1000))])])] ∧
  ∀ key inner0 sb,
    dict_get one_subread_index key = Some inner0 → sb ∈ dict_keys inner0 →
    ∃ inner,
      dict_get [(("m1"%string, 1),
                 [((0, 1000),
                   Some [("primary"%string,
                          alignment_to_output_dict primary_low (0, 1000))])])]
        key = Some inner ∧
      match last (located one_subread_index key sb [primary_high; primary_low])
      with
      | None => dict_get inner sb = Some None
      | Some a =>
          ∃ roles, dict_get inner sb = Some (Some roles) ∧
                   dict_get roles "primary"%string
                     = Some (alignment_to_output_dict a sb)
      end.
Proof.
  assert (fresh_index one_subread_index) as H1 by (repeat constructor).
  assert (aggregate one_subread_index [primary_high; primary_low] [] =
    Ok [(("m1"%string, 1),
         [((0, 1000),
           Some [("primary"%string,
                  alignment_to_output_dict primary_low (0, 1000))])])])
    as H2 by reflexivity.
  split; [exact H1|]. split; [exact H2|].
  exact (aggregate_primary_last one_subread_index _ _ _ H1 H2).
Defined.

(** X15: on a freshly built index the two passes of
    [create_pbbridgemapper_output] end exactly when no alignment of
    either stream falls in a gap between the subreads of its hole;
    otherwise they raise [KeyError] and nothing is filtered or
    written. *)
Theorem aggregate_returns (d0 : all_subread_dict)
    (primary_cmph5_reader affix_cmph5_reader : list CmpH5Alignment) :
  fresh_index d0 →
  (Forall (λ a, ¬ in_gap d0 a) (primary_cmph5_reader ++ affix_cmph5_reader) ∧
   ∃ d, aggregate d0 primary_cmph5_reader affix_cmph5_reader = Ok d) ∨
  (Exists (in_gap d0) (primary_cmph5_reader ++ affix_cmph5_reader) ∧
   aggregate d0 primary_cmph5_reader affix_cmph5_reader = Raise KeyError ∧
   ∀ unique_only,
     create_pbbridgemapper_output d0 primary_cmph5_reader affix_cmph5_reader
       unique_only = Raise KeyError).
Proof.
  intros Hfresh.
  destruct (aggregate_cases d0 primary_cmph5_reader affix_cmph5_reader Hfresh)
    as [(Hall & d & Hrun & _)|(Hex & Hrun)].
  - left. eauto.
  - right. split_and!; [done..|]. intros unique_only.
    unfold create_pbbridgemapper_output. by rewrite Hrun.
Qed.

Lemma aggregate_returns_witness :
  fresh_index gap_index ∧
  ((Forall (λ a, ¬ in_gap gap_index a) ([gap_alignment] ++ []) ∧
    ∃ d, aggregate gap_index [gap_alignment] [] = Ok d) ∨
   (Exists (in_gap gap_index) ([gap_alignment] ++ []) ∧
    aggregate gap_index [gap_alignment] [] = Raise KeyError ∧
    ∀ unique_only,
      create_pbbridgemapper_output gap_index [gap_alignment] [] unique_only
      = Raise KeyError)).
Proof.
  assert (fresh_index gap_index) as H1 by (repeat constructor).
  split; [exact H1|].
  exact (aggregate_returns gap_index [gap_alignment] [] H1).
Defined.

(** X16: the affix pass in general.  When both passes end on a freshly
    built index, the prefix (suffix) role of a subread, if present, is
    the record of an affix alignment located at that subread that the
    pass classified as prefix (suffix) with respect to the primary
    record, and no such alignment has a greater map quality; the role
    is absent exactly when there is no such alignment. *)
Theorem aggregate_affix_best (d0 d : all_subread_dict)
    (primary_cmph5_reader affix_cmph5_reader : list CmpH5Alignment) :
  fresh_index d0 →
  aggregate d0 primary_cmph5_reader affix_cmph5_reader = Ok d →
  ∀ key inner0 sb inner roles p affix_type,
    dict_get d0 key = Some inner0 → sb ∈ dict_keys inner0 →
    dict_get d key = Some inner → dict_get inner sb = Some (Some roles) →
    dict_get roles "primary"%string = Some p →
    affix_type = "prefix"%string ∨ affix_type = "suffix"%string →
    match dict_get roles affix_type with
    | Some od =>
        affix_role od p = Some affix_type ∧
        (∃ a, a ∈ affix_cmph5_reader ∧ located_at d0 key sb a ∧
              od = alignment_to_output_dict a sb) ∧
        ∀ a', a' ∈ affix_cmph5_reader → located_at d0 key sb a' →
              affix_role (alignment_to_output_dict a' sb) p = Some affix_type →
              MapQV a' ≤ map_qv od
    | None =>
        ∀ a', a' ∈ affix_cmph5_reader → located_at d0 key sb a' →
              affix_role (alignment_to_output_dict a' sb) p ≠ Some affix_type
    end.
Proof.
  intros Hfresh Hrun key inner0 sb inner roles p t H0 Hsb Hget Hslot Hp Ht.
  destruct (aggregate_cases d0 primary_cmph5_reader affix_cmph5_reader Hfresh)
    as [(_ & d1 & Hrun1 & _ & Hslots)|(_ & Hrun1)]; [|congruence].
  assert (d1 = d) as -> by congruence.
  destruct (Hslots key inner0 sb H0 Hsb) as (inner' & Hget' & Hslot').
  assert (inner' = inner) as -> by congruence.
  rewrite Hslot in Hslot'. unfold roles_of in Hslot'.
  destruct (last (located d0 key sb primary_cmph5_reader)) as [b|]; [|done].
  injection Hslot' as Hroles.
  assert (p = alignment_to_output_dict b sb) as Hpb.
  { rewrite Hroles, affix_fold_primary in Hp. congruence. }
  assert (roles = foldl (affix_update sb) [("primary"%string, p)]
                    (located d0 key sb affix_cmph5_reader)) as Hroles'
    by (by rewrite Hpb).
  pose proof (affix_fold_role sb p t (located d0 key sb affix_cmph5_reader) Ht)
    as Hrole.
  rewrite <-Hroles' in Hrole.
  destruct (dict_get roles t) as [od|].
  - destruct Hrole as (Hre & (a & Ha & Heq) & Hmax).
    apply list_elem_of_filter in Ha as [Hloc Ha]. split_and!; [done|eauto|].
    intros a' Ha' Hloc'. apply Hmax. by apply list_elem_of_filter.
  - intros a' Ha' Hloc'. apply Hrole. by apply list_elem_of_filter.
Qed.

Lemma aggregate_affix_best_witness :
  fresh_index one_subread_index ∧
  aggregate one_subread_index [primary_high] [suffix_low] = Ok low_suffix_dict ∧
  ∀ key inner0 sb inner roles p affix_type,
    dict_get one_subread_index key = Some inner0 → sb ∈ dict_keys inner0 →
    dict_get low_suffix_dict key = Some inner →
    dict_get inner sb = Some (Some roles) →
    dict_get roles "primary"%string = Some p →
    affix_type = "prefix"%string ∨ affix_type = "suffix"%string →
    match dict_get roles affix_type with
    | Some od =>
        affix_role od p = Some affix_type ∧
        (∃ a, a ∈ [suffix_low] ∧ located_at one_subread_index key sb a ∧
              od = alignment_to_output_dict a sb) ∧
        ∀ a', a' ∈ [suffix_low] → located_at one_subread_index key sb a' →
              affix_role (alignment_to_output_dict a' sb) p = Some affix_type →
              MapQV a' ≤ map_qv od
    | None =>
        ∀ a', a' ∈ [suffix_low] → located_at one_subread_index key sb a' →
              affix_role (alignment_to_output_dict a' sb) p ≠ Some affix_type
    end.
Proof.
  assert (fresh_index one_subread_index) as H1 by (repeat constructor).
  assert (aggregate one_subread_index [primary_high] [suffix_low]
          = Ok low_suffix_dict) as H2 by reflexivity.
  split; [exact H1|]. split; [exact H2|].
  exact (aggregate_affix_best one_subread_index _ _ _ H1 H2).
Defined.

(** ** The uniqueness filter never removes *)

(** A loop whose body leaves the state as it is on the elements that
    satisfy [P] and raises on the others. *)
Lemma for_each_fixed {A S} (P : A → Prop) `{∀ x, Decision (P x)}
    (Q : exn → Prop) (body : S → A → result S) (s : S) (l : list A) :
  (∀ x, x ∈ l → P x → body s x = Ok s) →
  (∀ x, x ∈ l → ¬ P x → ∃ e, body s x = Raise e ∧ Q e) →
  (Forall P l ∧ for_each body s l = Ok s) ∨
  (¬ Forall P l ∧ ∃ e, for_each body s l = Raise e ∧ Q e).
Proof.
  induction l as [|x l IH]; intros Hgood Hbad.
  - left. by split.
  - cbn [for_each]. destruct (decide (P x)) as [Hx|Hx].
    + rewrite Hgood by (done || left). cbn [rbind].
      destruct IH as [[Hall Hrun]|[Hnot Hrun]].
      * intros y Hy. apply Hgood. by right.
      * intros y Hy. apply Hbad. by right.
      * left. split; [by constructor|done].
      * right. split; [|done]. by intros [_ ?]%Forall_cons.
    + destruct (Hbad x ltac:(left) Hx) as (e & -> & He). right.
      split; [by intros [? _]%Forall_cons|]. eauto.
Qed.

Lemma for_each_fmap {A B S} (f : A → B) (body : S → B → result S) s
    (l : list A) :
  for_each body s (f <$> l) = for_each (λ s x, body s (f x)) s l.
Proof.
  revert s. induction l as [|x l IH]; intros s; [done|].
  rewrite fmap_cons. cbn [for_each]. destruct (body s (f x)); cbn [rbind]; auto.
Qed.

Lemma dict_set_same {K V} `{EqDecision K} (d : list (K * V)) k v :
  dict_get d k = Some v → dict_set d k v = d.
Proof.
  induction d as [|[k' v'] d IH]; simpl; [done|].
  destruct (decide (k' = k)) as [->|Hne].
  - by intros [= ->].
  - intros Hget. by rewrite IH.
Qed.

Lemma Forall_flat_map_iff {A B} (P : B → Prop) (f : A → list B) (l : list A) :
  Forall P (flat_map f l) ↔ Forall (λ x, Forall P (f x)) l.
Proof.
  induction l as [|x l IH]; simpl.
  - split; constructor.
  - rewrite Forall_app, Forall_cons, IH. done.
Qed.

Lemma remove_nonunique_roles_cases slot :
  (survives_filter slot ∧ remove_nonunique_roles slot = Ok slot) ∨
  (¬ survives_filter slot ∧
   ∃ e, remove_nonunique_roles slot = Raise e ∧
        (e = TypeError ∨ e = RuntimeError)).
Proof.
  destruct slot as [roles|]; [|right; split; [by intros []|eauto]].
  destruct (decide (survives_filter (Some roles))) as [Hs|Hs].
  - left. split; [done|]. apply remove_nonunique_roles_high.
    destruct Hs as [Hpre Hsuf]. unfold high_quality in *.
    intros t od [-> | ->] Hget.
    + by rewrite Hget in Hpre.
    + by rewrite Hget in Hsuf.
  - right. split; [done|]. exists RuntimeError. split; [|by right].
    cbn [survives_filter] in Hs. apply not_and_l in Hs as [Hs|Hs];
      unfold high_quality in Hs.
    + destruct (dict_get roles "prefix"%string) as [od|] eqn:Hget;
        [|by destruct Hs].
      eapply remove_nonunique_roles_low; [by left|exact Hget|lia].
    + destruct (dict_get roles "suffix"%string) as [od|] eqn:Hget;
        [|by destruct Hs].
      eapply remove_nonunique_roles_low; [by right|exact Hget|lia].
Qed.

Lemma nonunique_inner_loop (d : all_subread_dict) (key : subread_key)
    (inner : list (bounds * option role_map)) :
  dict_get d key = Some inner → NoDup (dict_keys inner) →
  (Forall survives_filter inner.*2 ∧
   for_each (λ d sb,
       inner ←r dict_getitem d key;
       slot ←r dict_getitem inner sb;
       slot' ←r remove_nonunique_roles slot;
       Ok (dict_set d key (dict_set inner sb slot')))
     d (dict_keys inner) = Ok d) ∨
  (¬ Forall survives_filter inner.*2 ∧
   ∃ e, for_each (λ d sb,
            inner ←r dict_getitem d key;
            slot ←r dict_getitem inner sb;
            slot' ←r remove_nonunique_roles slot;
            Ok (dict_set d key (dict_set inner sb slot')))
          d (dict_keys inner) = Raise e ∧
        (e = TypeError ∨ e = RuntimeError)).
Proof.
  intros Hget Hnd. replace (dict_keys inner) with (fst <$> inner) by done.
  rewrite for_each_fmap, Forall_fmap.
  apply (for_each_fixed (λ e : bounds * option role_map, survives_filter e.2)
           (λ e, e = TypeError ∨ e = RuntimeError)).
  - intros [sb slot] He Hs. cbn [fst snd] in *.
    assert (dict_get inner sb = Some slot) as Hslot
      by (by apply dict_get_elem_NoDup).
    rewrite (proj2 (dict_getitem_Ok d key inner)) by done. cbn [rbind].
    rewrite (proj2 (dict_getitem_Ok inner sb slot)) by done. cbn [rbind].
    destruct (remove_nonunique_roles_cases slot) as [[_ ->]|[? _]]; [|done].
    cbn [rbind].
    by rewrite (dict_set_same inner sb slot Hslot),
      (dict_set_same d key inner Hget).
  - intros [sb slot] He Hs. cbn [fst snd] in *.
    assert (dict_get inner sb = Some slot) as Hslot
      by (by apply dict_get_elem_NoDup).
    rewrite (proj2 (dict_getitem_Ok d key inner)) by done. cbn [rbind].
    rewrite (proj2 (dict_getitem_Ok inner sb slot)) by done. cbn [rbind].
    destruct (remove_nonunique_roles_cases slot)
      as [[? _]|[_ (e & -> & He')]]; [done|].
    exists e. by split.
Qed.

(** X17: [remove_nonunique_alignments] never returns a dictionary that
    differs from its argument.  When every subread holds roles and no
    prefix or suffix record has a map quality below 254 it returns and
    the dictionary is unchanged; in every other case, a subread without
    roles or an affix that the filter would remove, it raises
    [TypeError] or [RuntimeError]. *)
Theorem remove_nonunique_never_removes (d : all_subread_dict) :
  subread_dict_wf d →
  (Forall survives_filter (subread_slots d) ∧
   remove_nonunique_alignments d = Ok d) ∨
  (¬ Forall survives_filter (subread_slots d) ∧
   ∃ e, remove_nonunique_alignments d = Raise e ∧
        (e = TypeError ∨ e = RuntimeError)).
Proof.
  intros [Hnd Hinner]. unfold remove_nonunique_alignments, subread_slots.
  replace (dict_keys d) with (fst <$> d) in * by done.
  rewrite for_each_fmap.
  rewrite Forall_flat_map_iff.
  apply (for_each_fixed (λ kv : subread_key * list (bounds * option role_map),
                           Forall survives_filter kv.2.*2)
           (λ e, e = TypeError ∨ e = RuntimeError)).
  - intros [key inner] Hkv Hall. cbn [fst snd] in *.
    assert (dict_get d key = Some inner) as Hget
      by (by apply dict_get_elem_NoDup).
    rewrite (proj2 (dict_getitem_Ok d key inner)) by done. cbn [rbind].
    rewrite Forall_forall in Hinner.
    by destruct (nonunique_inner_loop d key inner Hget (Hinner _ Hkv))
      as [[_ Hrun]|[Hnot _]].
  - intros [key inner] Hkv Hall. cbn [fst snd] in *.
    assert (dict_get d key = Some inner) as Hget
      by (by apply dict_get_elem_NoDup).
    rewrite (proj2 (dict_getitem_Ok d key inner)) by done. cbn [rbind].
    rewrite Forall_forall in Hinner.
    by destruct (nonunique_inner_loop d key inner Hget (Hinner _ Hkv))
      as [[Hyes _]|[_ Hrun]].
Qed.

Lemma remove_nonunique_never_removes_witness :
  subread_dict_wf low_suffix_dict ∧
  ((Forall survives_filter (subread_slots low_suffix_dict) ∧
    remove_nonunique_alignments low_suffix_dict = Ok low_suffix_dict) ∨
   (¬ Forall survives_filter (subread_slots low_suffix_dict) ∧
    ∃ e, remove_nonunique_alignments low_suffix_dict = Raise e ∧
         (e = TypeError ∨ e = RuntimeError))).
Proof.
  assert (subread_dict_wf low_suffix_dict) as H1.
  { split; [|repeat constructor; by intros ?%elem_of_nil].
    repeat constructor. by intros ?%elem_of_nil. }
  split; [exact H1|].
  exact (remove_nonunique_never_removes low_suffix_dict H1).
Defined.

(** ** The report: rows and columns *)

Lemma output_line_length roles line :
  output_line roles = Ok line → length line = length OUTPUT_COLUMNS.
Proof.
  unfold output_line. intros Hrun. inv_rbind. injection Hrun as <-.
  cbn [app flat_map length].
  rewrite !length_app.
  assert (∀ t, length match dict_get roles t with
                      | Some od => role_cells od
                      | None => replicate 9 CAbsent
                      end = 9%nat) as Hlen
    by (intros t; by destruct (dict_get roles t)).
  rewrite !Hlen. reflexivity.
Qed.

Lemma output_line_KeyError roles :
  dict_get roles "primary"%string = None → output_line roles = Raise KeyError.
Proof.
  intros Hnone. unfold output_line, dict_getitem. by rewrite Hnone.
Qed.

Lemma count_loop_populated (slots : list (option role_map)) :
  ∀ n : nat,
    for_each (λ counter (subread_alns : option role_map),
        match subread_alns with
        | None => Ok counter
        | Some _ => Ok (S counter)
        end) n slots =
    Ok (n + length (filter is_Some slots))%nat.
Proof.
  induction slots as [|slot slots IH]; intros n; cbn [for_each].
  - cbn. f_equal. lia.
  - destruct slot as [roles|]; cbn [rbind]; rewrite IH.
    + rewrite filter_cons_True by eauto. cbn [length]. f_equal. lia.
    + rewrite filter_cons_False by (by intros [? ?]). done.
Qed.

Lemma write_loop_cases (slots : list (option role_map)) :
  ∀ file,
    (Forall (λ slot, ¬ lacks_primary slot) slots ∧
     ∃ rows,
       for_each (λ file (subread_alns : option role_map),
           match subread_alns with
           | None => Ok file
           | Some roles =>
               line ←r output_line roles;
               Ok (file ++ [DataRow line])
           end) file slots = Ok (file ++ (DataRow <$> rows)) ∧
       length rows = length (filter is_Some slots) ∧
       Forall (λ row, length row = length OUTPUT_COLUMNS) rows) ∨
    (Exists lacks_primary slots ∧
     for_each (λ file (subread_alns : option role_map),
         match subread_alns with
         | None => Ok file
         | Some roles =>
             line ←r output_line roles;
             Ok (file ++ [DataRow line])
         end) file slots = Raise KeyError).
Proof.
  induction slots as [|slot slots IH]; intros file; cbn [for_each].
  - left. split; [constructor|]. exists []. by rewrite app_nil_r.
  - destruct slot as [roles|].
    + destruct (dict_get roles "primary"%string) as [p|] eqn:Hp.
      * destruct (output_line_Ok roles ltac:(eauto)) as [line Hline].
        rewrite Hline. cbn [rbind].
        destruct (IH (file ++ [DataRow line]))
          as [(Hall & rows & Hrun & Hlen & Hcols)|(Hex & Hrun)].
        -- left. split.
           ++ constructor; [|done]. intros [_ Hno]. apply Hno. simpl. eauto.
           ++ exists (line :: rows). rewrite Hrun, <-app_assoc.
              split_and!; [done| |].
              ** rewrite filter_cons_True by eauto. cbn [length]. lia.
              ** constructor; [|done]. by eapply output_line_length.
        -- right. split; [by right|done].
      * right. split.
        -- left. split; [eauto|]. simpl. rewrite Hp. by intros [? ?].
        -- by rewrite output_line_KeyError.
    + cbn [rbind]. destruct (IH file)
        as [(Hall & rows & Hrun & Hlen & Hcols)|(Hex & Hrun)].
      * left. split.
        -- constructor; [|done]. by intros [[? ?] _].
        -- exists rows. split_and!; [done| |done].
           rewrite filter_cons_False by (by intros [? ?]). done.
      * right. split; [by right|done].
Qed.

(** X18: the report that [write_split_reads_file] writes.  Unless some
    subread holds roles without a primary role, the file is the three
    header lines followed by one data row for every subread that holds
    roles; the count in the header is the number of data rows, and
    every data row has as many cells as [OUTPUT_COLUMNS] has names, 29.
    If some subread holds roles without a primary role, the call raises
    [KeyError]. *)
Theorem write_split_reads_file_returns (d : all_subread_dict) :
  subread_dict_wf d →
  (Forall (λ slot, ¬ lacks_primary slot) (subread_slots d) ∧
   ∃ rows,
     write_split_reads_file d =
       Ok ([VersionLine; TotalSubreadsLine (length rows); ColumnsLine]
           ++ (DataRow <$> rows)) ∧
     length rows = length (filter is_Some (subread_slots d)) ∧
     Forall (λ row, length row = length OUTPUT_COLUMNS) rows ∧
     length OUTPUT_COLUMNS = 29%nat) ∨
  (Exists lacks_primary (subread_slots d) ∧
   write_split_reads_file d = Raise KeyError).
Proof.
  intros Hwf. unfold write_split_reads_file, count_subreads.
  rewrite for_each_subread_slots by done.
  rewrite count_loop_populated. cbn [rbind].
  rewrite for_each_subread_slots by done.
  destruct (write_loop_cases (subread_slots d)
              [VersionLine;
               TotalSubreadsLine (0 + length (filter is_Some (subread_slots d)));
               ColumnsLine])
    as [(Hall & rows & Hrun & Hlen & Hcols)|(Hex & Hrun)].
  - left. split; [done|]. exists rows. rewrite Hrun, Hlen.
    split_and!; done.
  - right. by split.
Qed.

Lemma write_split_reads_file_returns_witness :
  subread_dict_wf low_suffix_dict ∧
  ((Forall (λ slot, ¬ lacks_primary slot) (subread_slots low_suffix_dict) ∧
    ∃ rows,
      write_split_reads_file low_suffix_dict =
        Ok ([VersionLine; TotalSubreadsLine (length rows); ColumnsLine]
            ++ (DataRow <$> rows)) ∧
      length rows = length (filter is_Some (subread_slots low_suffix_dict)) ∧
      Forall (λ row, length row = length OUTPUT_COLUMNS) rows ∧
      length OUTPUT_COLUMNS = 29%nat) ∨
   (Exists lacks_primary (subread_slots low_suffix_dict) ∧
    write_split_reads_file low_suffix_dict = Raise KeyError)).
Proof.
  assert (subread_dict_wf low_suffix_dict) as H1.
  { split; [|repeat constructor; by intros ?%elem_of_nil].
    repeat constructor. by intros ?%elem_of_nil. }
  split; [exact H1|].
  exact (write_split_reads_file_returns low_suffix_dict H1).
Defined.
